(** * modify_svg.py: rewriting SVG fill and stroke colours into CSS classes

    A shallow embedding of [modify_svg.py] and the properties of its four
    stages: the style-block manager ([update_svg_style]), the attribute
    normaliser and colour-to-class rewriter ([replace_color]) and the marker
    propagator ([deal_with_markers]), together with the construction of the
    colour tables ([load_theme_colors], [load_color_mapping]).

    Conventions of the embedding.
    - A Python [str] is a [list ascii]: a sequence of characters, here the
      characters with a code below 256.
    - A [dict] that is only looked up is a [gmap]; a [dict] that is iterated
      is the list of its items in insertion order.
    - A raised exception is the [Raise] case of [result].
    - The regular expressions are parsers that return their matches in the
      order in which the backtracking matcher of [re] tries them, so the first
      element of the list is the match that [re] reports. *)

From Stdlib Require Import Ascii String List Arith Lia Permutation.
From stdpp Require Import gmap strings list fin_maps.

Set Default Proof Using "Type".

(** ** Python strings *)

Inductive chars := chars_nil | chars_cons (c : ascii) (s : chars).

Fixpoint chars_of_bytes (b : list Byte.byte) : chars :=
  match b with
  | [] => chars_nil
  | x :: r => chars_cons (ascii_of_byte x) (chars_of_bytes r)
  end.

Fixpoint bytes_of_chars (s : chars) : list Byte.byte :=
  match s with
  | chars_nil => []
  | chars_cons c r => byte_of_ascii c :: bytes_of_chars r
  end.

Declare Scope py_scope.
Delimit Scope py_scope with py.
#[warnings="-via-type-mismatch"]
String Notation list chars_of_bytes bytes_of_chars
  (via chars mapping [[nil] => chars_nil, [cons] => chars_cons]) : py_scope.
Local Open Scope py_scope.

Abbreviation str := (list ascii).

(** Named characters. [SOH] is the character that the escape [\1] denotes in
    a Python string literal that is not raw. *)
Definition NL : ascii := ascii_of_nat 10.
Definition SOH : ascii := ascii_of_nat 1.

Definition in_range (lo hi : nat) (c : ascii) : bool :=
  (lo <=? nat_of_ascii c) && (nat_of_ascii c <=? hi).

(** [str.isspace] on one character (code points below 256). *)
Definition isspace (c : ascii) : bool :=
  in_range 9 13 c || in_range 28 32 c
  || (nat_of_ascii c =? 133) || (nat_of_ascii c =? 160).

(** [[a-zA-Z0-9]] and [[a-fA-F0-9]]. *)
Definition alnum (c : ascii) : bool :=
  in_range 97 122 c || in_range 65 90 c || in_range 48 57 c.
Definition hexdigit (c : ascii) : bool :=
  in_range 97 102 c || in_range 65 70 c || in_range 48 57 c.

Definition eqc (a b : ascii) : bool := bool_decide (a = b).

(** [s.lstrip()], [s.rstrip()], [s.strip()]. *)
Fixpoint lstrip (s : str) : str :=
  match s with
  | [] => []
  | c :: r => if isspace c then lstrip r else s
  end.
Definition rstrip (s : str) : str := rev (lstrip (rev s)).
Definition strip (s : str) : str := rstrip (lstrip s).

(** [s.split(sep)] for a separator of one character. *)
Fixpoint split (sep : ascii) (s : str) : list str :=
  match s with
  | [] => [[]]
  | c :: r =>
      if eqc c sep then [] :: split sep r
      else match split sep r with
           | h :: t => (c :: h) :: t
           | [] => [[c]]
           end
  end.

(** [sep.join(l)]. *)
Fixpoint join (sep : str) (l : list str) : str :=
  match l with
  | [] => []
  | [x] => x
  | x :: r => x ++ sep ++ join sep r
  end.

(** [s.startswith(p)]. *)
Fixpoint startswith (s p : str) : bool :=
  match p, s with
  | [], _ => true
  | a :: p', b :: s' => eqc a b && startswith s' p'
  | _ :: _, [] => false
  end.

(** ** Exceptions *)

Inductive exn := ValueError | KeyError | AttributeError | IndexError | SyntaxError.

Inductive result (A : Type) :=
  | Ok (a : A)
  | Raise (e : exn).
Arguments Ok {A} a.
Arguments Raise {A} e.

Definition rbind {A B} (f : A -> result B) (r : result A) : result B :=
  match r with
  | Ok a => f a
  | Raise e => Raise e
  end.

#[global] Instance result_bind : MBind result := @rbind.
#[global] Instance result_ret : MRet result := @Ok.

(** ** Regular expressions as backtracking parsers *)

Module Re.

Definition parser (A : Type) : Type := str -> list (A * str).

Definition ret {A} (a : A) : parser A := fun s => [(a, s)].

Definition bind {A B} (f : A -> parser B) (p : parser A) : parser B :=
  fun s => flat_map (fun ar => f (fst ar) (snd ar)) (p s).

#[global] Instance parser_bind : MBind parser := @bind.
#[global] Instance parser_ret : MRet parser := @ret.

(** [p|q]: the matches of [p] are tried before those of [q]. *)
Definition alt {A} (p q : parser A) : parser A := fun s => p s ++ q s.

(** [.] (without DOTALL): any character but a newline. *)
Definition dot : parser ascii := fun s =>
  match s with
  | c :: r => if eqc c NL then [] else [(c, r)]
  | [] => []
  end.

(** A character class. *)
Definition cls (f : ascii -> bool) : parser ascii := fun s =>
  match s with
  | c :: r => if f c then [(c, r)] else []
  | [] => []
  end.

(** A literal; the result is the text matched. *)
Fixpoint lit (w : str) : parser str := fun s =>
  match w with
  | [] => [([], s)]
  | a :: w' =>
      match s with
      | b :: r => if eqc a b then map (fun xr => (a :: fst xr, snd xr)) (lit w' r) else []
      | [] => []
      end
  end.

(** [[f]+], greedy: the longest run first, then the shorter ones. *)
Fixpoint many1 (f : ascii -> bool) (s : str) : list (str * str) :=
  match s with
  | c :: r =>
      if f c then map (fun xr => (c :: fst xr, snd xr)) (many1 f r) ++ [([c], r)]
      else []
  | [] => []
  end.

(** [[f]*], greedy. *)
Definition many (f : ascii -> bool) : parser str := fun s => many1 f s ++ [([], s)].

(** [(p)?], greedy. *)
Definition opt (p : parser str) : parser str := alt p (mret []).

(** [[f]{3}]. *)
Definition three (f : ascii -> bool) : parser str :=
  a ← cls f; b ← cls f; c ← cls f; mret [a; b; c].

(** [re.match]: the first match in the matcher's order, with what follows it. *)
Definition rmatch {A} (p : parser A) (s : str) : option (A * str) := head (p s).

(** [re.finditer]: the matches at successive positions, left to right and
    not overlapping. [skip] counts the characters of the last match that are
    still to be passed. The patterns of this program match no empty string. *)
Fixpoint finditer_from {A} (p : parser A) (skip : nat) (s : str) : list A :=
  match s with
  | [] => []
  | _ :: r =>
      match skip with
      | S k => finditer_from p k r
      | O =>
          match rmatch p s with
          | Some (a, rest) => a :: finditer_from p (length s - length rest - 1) r
          | None => finditer_from p 0 r
          end
      end
  end.
Definition finditer {A} (p : parser A) (s : str) : list A := finditer_from p 0 s.

(** [re.sub] with a replacement that is used as it is. *)
Fixpoint sub_from {A} (p : parser A) (repl : str) (skip : nat) (s : str) : str :=
  match s with
  | [] => []
  | c :: r =>
      match skip with
      | S k => sub_from p repl k r
      | O =>
          match rmatch p s with
          | Some (_, rest) => repl ++ sub_from p repl (length s - length rest - 1) r
          | None => c :: sub_from p repl 0 r
          end
      end
  end.

(** [re.sub(pattern, repl, string)]. A replacement with a backslash is a
    template of [re] (escapes and group references); that language is not
    embedded, and [None] stands for such a call. *)
Definition sub {A} (p : parser A) (repl : str) (s : str) : option str :=
  if bool_decide ("\"%char ∈ repl) then None else Some (sub_from p repl 0 s).

End Re.

(** ** The style-block manager *)

(** The pattern of [update_svg_style]:
    [.(?P<rule_type>(fill|stroke))-(?P<color_name>[a-zA-Z0-9]+) {(\1):#(?P<color>[a-fA-F0-9]{3}([a-fA-F0-9]{3})?);}]
    in a raw string; the leading [.] is not escaped, and [\1] is the group
    [rule_type]. The result is the groups [rule_type], [color_name], [color]. *)
Definition css_pattern : Re.parser (str * str * str) :=
  _ ← Re.dot;
  rule_type ← Re.alt (Re.lit "fill") (Re.lit "stroke");
  _ ← Re.lit "-";
  color_name ← Re.many1 alnum;
  _ ← Re.lit " {";
  _ ← Re.lit rule_type;
  _ ← Re.lit ":#";
  color ← (h ← Re.three hexdigit; t ← Re.opt (Re.three hexdigit); mret (h ++ t));
  _ ← Re.lit ";}";
  mret (rule_type, color_name, color).

(** The pattern that [update_svg_style] hands to [re.sub]. It is written as
    an f-string that is not raw: [\1] is the character [SOH] there, each
    [{3}] is the formatted number 3, and [{{] and [}}] are braces. The
    pattern that reaches [re] is therefore
    [.<rule_type>-<color_name> {<SOH>:#([a-fA-F0-9]3([a-fA-F0-9]3)?);}].
    [rule_type] and [color_name] come from a match of [css_pattern], so they
    hold no character that is special in a pattern. *)
Definition sub_pattern (rule_type color_name : str) : Re.parser str :=
  _ ← Re.dot;
  _ ← Re.lit (rule_type ++ "-" ++ color_name ++ " {" ++ SOH :: ":#");
  g ← (a ← Re.cls hexdigit; _ ← Re.lit "3";
       t ← Re.opt (b ← Re.cls hexdigit; _ ← Re.lit "3"; mret [b; "3"%char]);
       mret (a :: "3"%char :: t));
  _ ← Re.lit ";}";
  mret g.

(** [new_colors[color_name]] on the items of the dict. *)
Fixpoint dict_get (d : list (str * str)) (k : str) : option str :=
  match d with
  | [] => None
  | (k', v) :: r => if bool_decide (k' = k) then Some v else dict_get r k
  end.

(** The first loop of [update_svg_style], over the matches that
    [re.finditer] found in the text as it was before the loop. *)
Fixpoint update_rules (new_colors : list (str * str)) (css_rules : list (str * str * str))
    (style_content : str) (updated_colors : list str) : option (str * list str) :=
  match css_rules with
  | [] => Some (style_content, updated_colors)
  | (rule_type, color_name, _) :: rest =>
      match dict_get new_colors color_name with
      | Some new_color =>
          style_content ←
            Re.sub (sub_pattern rule_type color_name)
              ("." ++ rule_type ++ "-" ++ color_name ++ " {" ++ rule_type ++ ":" ++ new_color ++ ";}")
              style_content;
          update_rules new_colors rest style_content (color_name :: updated_colors)
      | None => update_rules new_colors rest style_content updated_colors
      end
  end.

(** The two rules appended for a colour that no rule named. *)
Definition new_rules (color_name color_value : str) : str :=
  (NL :: "        .fill-" ++ color_name ++ " {fill:" ++ color_value ++ ";}")
  ++ (NL :: "        .stroke-" ++ color_name ++ " {stroke:" ++ color_value ++ ";}").

(** The second loop of [update_svg_style]. *)
Fixpoint add_rules (items : list (str * str)) (updated_colors : list str)
    (style_content : str) : str :=
  match items with
  | [] => style_content
  | (color_name, color_value) :: rest =>
      if bool_decide (color_name ∈ updated_colors)
      then add_rules rest updated_colors style_content
      else add_rules rest updated_colors (style_content ++ new_rules color_name color_value)
  end.

(** [update_svg_style] on the text of the style element. [new_colors] is the
    theme table, as the items of the dict. *)
Definition update_style_content (style_content : str) (new_colors : list (str * str))
    : option str :=
  let css_rules := Re.finditer css_pattern style_content in
  '(style_content, updated_colors) ← update_rules new_colors css_rules style_content [];
  Some (add_rules new_colors updated_colors style_content).

(** ** The document tree *)

(** An element of the tree: tag (with the namespace in braces before the
    local name, as lxml has it), attributes, text, children. *)
#[warnings="-register-all"]
Inductive element :=
  | Element (tag : str) (attrib : gmap str str) (text : option str) (children : list element).

Definition tag (e : element) : str := match e with Element t _ _ _ => t end.
Definition attrib (e : element) : gmap str str := match e with Element _ a _ _ => a end.
Definition text (e : element) : option str := match e with Element _ _ x _ => x end.
Definition children (e : element) : list element := match e with Element _ _ _ c => c end.
Definition set_text (x : str) (e : element) : element :=
  match e with Element t a _ c => Element t a (Some x) c end.

(** [root.iter()]: the elements in document order, the root first. *)
Fixpoint iter (e : element) : list element :=
  match e with
  | Element _ _ _ c => e :: flat_map iter c
  end.

(** [get_namespace_details], first component: the match of [\{.*\}] at the
    start of the tag, or the empty string. *)
Definition namespace_uri (e : element) : str :=
  match Re.rmatch (a ← Re.lit "{"; b ← Re.many (fun c => negb (eqc c NL)); c ← Re.lit "}";
                   mret (a ++ b ++ c)) (tag e) with
  | Some (m, _) => m
  | None => ""
  end.

Definition style_tag (root : element) : str :=
  if bool_decide (namespace_uri root ≠ "") then namespace_uri root ++ "style" else "style".

(** [str(style_element.text)]. *)
Definition str_of_text (x : option str) : str :=
  match x with
  | Some s => s
  | None => "None"
  end.

(** [get_style_element]: the tree, with a style element put in front of the
    root's children when there was none, and the position of the style
    element among the children. *)
Definition get_style_element (root : element) : element * nat :=
  match list_find (fun c => tag c = style_tag root) (children root) with
  | Some (i, _) => (root, i)
  | None =>
      let style_element := Element (style_tag root) {[ "type" := "text/css" ]} (Some "") [] in
      (Element (tag root) (attrib root) (text root) (style_element :: children root), 0)
  end.

(** [update_svg_style]. *)
Definition update_svg_style (tree : element) (new_colors : list (str * str)) : option element :=
  let '(root, i) := get_style_element tree in
  match children root !! i with
  | Some style_element =>
      style_content ← update_style_content (str_of_text (text style_element)) new_colors;
      Some (Element (tag root) (attrib root) (text root)
              (<[i := set_text style_content style_element]> (children root)))
  | None => None
  end.

(** The text of the style element of a tree. *)
Definition style_text (tree : element) : option str :=
  '(_, c) ← list_find (fun c => tag c = style_tag tree) (children tree); text c.

(** ** The colour tables *)

(** A parsed configuration file, as [configparser] presents it: the sections
    in order, each with its items. Section names are distinct, and so are the
    keys of a section. *)
Abbreviation config := (list (str * list (str * str))).

Fixpoint section (cfg : config) (name : str) : option (list (str * str)) :=
  match cfg with
  | [] => None
  | (n, items) :: r => if bool_decide (n = name) then Some items else section r name
  end.

(** The dict comprehension of [load_theme_colors]. *)
Definition prefixed (items : list (str * str)) : list (str * str) :=
  map (fun kv => (fst kv, "#" ++ snd kv)) items.

(** [load_theme_colors(theme)] for a theme that is given. *)
Definition load_theme_colors (themes : config) (theme : str) : result (list (str * str)) :=
  match section themes theme with
  | None => Raise ValueError
  | Some items => Ok (prefixed items)
  end.

(** [load_theme_colors(None)]: every theme with its colours. *)
Definition load_all_theme_colors (themes : config) : config :=
  map (fun t => (fst t, prefixed (snd t))) themes.

(** [color_mapping.update(...)] for one theme. *)
Definition update_mapping (color_mapping : gmap str str) (colors : list (str * str))
    : gmap str str :=
  foldl (fun m kv => <[ "#" ++ snd kv := fst kv ]> m) color_mapping colors.

(** [load_color_mapping]; [mapping] is the parsed [color_mapping.ini] and
    [themes] the parsed [themes.ini]. *)
Definition load_color_mapping (mapping themes : config) : result (gmap str str) :=
  match section mapping "color.mapping" with
  | None => Raise KeyError
  | Some items =>
      let color_mapping := foldl (fun m kv => <[ fst kv := snd kv ]> m) ∅ items in
      let theme_colors := load_all_theme_colors themes in
      Ok (foldl (fun m t => update_mapping m (snd t)) color_mapping theme_colors)
  end.

(** ** The attribute normaliser and the colour-to-class rewriter *)

(** The class [Attribute]. *)
Record Attribute := { is_set : bool; value : option str }.

(** [Attribute()]. *)
Definition new_attribute : Attribute := {| is_set := false; value := None |}.

(** The test [attr.is_set and attr.value in color_mapping], with the name
    that [color_mapping[attr.value]] gives when it holds. A value [None] is
    no key of the mapping. *)
Definition matched (color_mapping : gmap str str) (attr : Attribute) : option str :=
  if is_set attr then value attr ≫= fun v => color_mapping !! v else None.

(** The loop of [modify_style_attribute] over the declarations. Unpacking
    [style.split(":")] into two names raises [ValueError] unless the split
    has exactly two parts. *)
Fixpoint modify_styles (color_mapping : gmap str str) (styles : list str)
    (updated_style : list str) (fill_attr stroke_attr : Attribute)
    : result (list str * Attribute * Attribute) :=
  match styles with
  | [] => Ok (updated_style, fill_attr, stroke_attr)
  | style :: rest =>
      match split ":" style with
      | [attr; val] =>
          let attr := strip attr in
          let val := strip val in
          if bool_decide (attr = "fill") && bool_decide (is_Some (color_mapping !! val)) then
            modify_styles color_mapping rest updated_style
              {| is_set := true;
                 value := if bool_decide (val ≠ "none") then Some val else value fill_attr |}
              stroke_attr
          else if bool_decide (attr = "stroke") && bool_decide (is_Some (color_mapping !! val)) then
            modify_styles color_mapping rest updated_style fill_attr
              {| is_set := true;
                 value := if bool_decide (val ≠ "none") then Some val else value stroke_attr |}
          else
            modify_styles color_mapping rest (updated_style ++ [style]) fill_attr stroke_attr
      | _ => Raise ValueError
      end
  end.

(** [modify_style_attribute]: the rebuilt style string with the two
    [Attribute] objects as the call leaves them. *)
Definition modify_style_attribute (color_mapping : gmap str str) (style_attr : str)
    (fill_attr stroke_attr : Attribute) : result (str * Attribute * Attribute) :=
  let style_attr := strip style_attr in
  if bool_decide (style_attr = "") then Ok ("", fill_attr, stroke_attr)
  else
    r ← modify_styles color_mapping (split ";" style_attr) [] fill_attr stroke_attr;
    Ok (join ";" r.1.1, r.1.2, r.2).

(** The type of [find_element_with_id]. *)
Abbreviation finder := (list (gmap str str) -> str -> result (option nat)).

Section Sets.

(** The order in which Python iterates over a set of strings depends on their
    hashes. [set_iter l] is the iteration order of the set into which the
    elements of [l] have been put one after the other. *)
Variable set_iter : list str -> list str.

(** The class tokens of an element: [set([c.strip() for c in classes.split(" ")])],
    or the empty set without a [class] attribute. *)
Definition class_tokens (a : gmap str str) : list str :=
  match a !! "class" with
  | None => []
  | Some classes => map strip (split " " classes)
  end.

(** [element.set("class", " ".join(classes).strip())] under [len(classes) > 0]. *)
Definition write_classes (classes : list str) (a : gmap str str) : gmap str str :=
  if 0 <? length classes then <[ "class" := strip (join " " (set_iter classes)) ]> a else a.

(** The two [Attribute] objects of an element once the style and the plain
    attributes have been read, with the attributes of the element after
    its style has been rewritten. *)
Definition resolve (color_mapping : gmap str str) (a : gmap str str)
    : result (gmap str str * Attribute * Attribute) :=
  let fill_attr := new_attribute in
  let stroke_attr := new_attribute in
  r ← match a !! "style" with
       | Some style =>
           r ← modify_style_attribute color_mapping style fill_attr stroke_attr;
           Ok (<[ "style" := r.1.1 ]> a, r.1.2, r.2)
       | None => Ok (a, fill_attr, stroke_attr)
       end;
  let '(a, fill_attr, stroke_attr) := r in
  let fill_attr :=
    match a !! "fill" with
    | Some v => if negb (is_set fill_attr) then {| is_set := true; value := Some v |} else fill_attr
    | None => fill_attr
    end in
  let stroke_attr :=
    match a !! "stroke" with
    | Some v => if negb (is_set stroke_attr) then {| is_set := true; value := Some v |} else stroke_attr
    | None => stroke_attr
    end in
  Ok (a, fill_attr, stroke_attr).

(** The body of the loop of [replace_color], on the attributes of one element. *)
Definition replace_color_element (color_mapping : gmap str str) (a : gmap str str)
    : result (gmap str str) :=
  r ← resolve color_mapping a;
  let '(a1, fill_attr, stroke_attr) := r in
  let classes := class_tokens a1 in
  let '(classes, a2) :=
    match matched color_mapping fill_attr with
    | Some name => (classes ++ ["fill-" ++ name], delete "fill" a1)
    | None => (classes, a1)
    end in
  let '(classes, a3) :=
    match matched color_mapping stroke_attr with
    | Some name => (classes ++ ["stroke-" ++ name], delete "stroke" a2)
    | None => (classes, a2)
    end in
  Ok (write_classes classes a3).

(** [replace_color], on the attributes of the elements in document order.
    An element is touched only by its own turn of the loop. *)
Fixpoint replace_color (color_mapping : gmap str str) (doc : list (gmap str str))
    : result (list (gmap str str)) :=
  match doc with
  | [] => Ok []
  | a :: rest =>
      a' ← replace_color_element color_mapping a;
      rest' ← replace_color color_mapping rest;
      Ok (a' :: rest')
  end.

(** ** The marker propagator *)

(** The pattern of [deal_with_markers]: [marker-], one of [start], [end] and
    [mid], [:url(#], the group [marker_id] (any characters but a newline, as
    many as possible) and a closing parenthesis. The result is [marker_id]. *)
Definition marker_pattern : Re.parser str :=
  _ ← Re.lit "marker-";
  _ ← Re.alt (Re.lit "start") (Re.alt (Re.lit "end") (Re.lit "mid"));
  _ ← Re.lit ":url(#";
  marker_id ← Re.many (fun c => negb (eqc c NL));
  _ ← Re.lit ")";
  mret marker_id.

(** The second test of a path with two tests, read off the text [m] that
    stands between the two single quotes of an id [x'm'z]: [m] is a closing
    bracket, an opening bracket, an at sign, the name [k] of an attribute,
    made of letters and digits, and an equals sign. *)
Definition second_test (m : str) : option str :=
  if startswith m "][@" then
    match rev (drop 3 m) with
    | c :: rk =>
        if eqc c "=" && (0 <? length rk) && forallb alnum rk then Some (rev rk) else None
    | [] => None
    end
  else None.

(** What [root.find] makes of a path that is not embedded. *)
Variable find_path : finder.

(** [find_element_with_id]: the position in document order of the element
    that [root.find] returns for the path in which the id is put between
    single quotes after [.//*[@id=] and before a closing bracket. The path
    selects among the elements below the root, in document order, and [find]
    returns the first one.
    - An id without a single quote is the value that the attribute [id] is
      compared with.
    - An id [x'][@k='z], without another single quote and with [k] made of
      letters and digits, ends the first test after [x] and adds a second
      one: the path is [.//*[@id='x'][@k='z']] and selects the elements whose
      [id] is [x] and whose attribute [k] is [z].
    - Any other id with a single quote gives a path that the path language
      of lxml reads in its own way or refuses; that language is not
      embedded, and [find_path] stands for what [find] does then. *)
Definition find_element_with_id (doc : list (gmap str str)) (element_id : str)
    : result (option nat) :=
  match split "'" element_id with
  | [_] =>
      Ok (S <$> (fst <$> list_find (fun a => a !! "id" = Some element_id) (tail doc)))
  | [x; m; z] =>
      match second_test m with
      | Some k =>
          Ok (S <$> (fst <$> list_find (fun a => a !! "id" = Some x /\ a !! k = Some z)
                               (tail doc)))
      | None => find_path doc element_id
      end
  | _ => find_path doc element_id
  end.

(** [element.get(key)] for the element at position [i]. *)
Definition element_get (doc : list (gmap str str)) (i : nat) (key : str) : option str :=
  (doc !! i) ≫= fun a => a !! key.

(** The classes of the referencing element that are handed on. *)
Definition color_classes (classes : str) : list str :=
  filter (fun c => startswith c "fill" || startswith c "stroke") (split " " classes).

(** [marker_classes.add(...)] under [force_fill]. *)
Definition forced_fill (force_fill : bool) (classes : list str) : result (list str) :=
  if force_fill && (0 <? length classes) then
    match split "-" (hd [] classes) with
    | _ :: color :: _ => Ok ["fill-" ++ color]
    | _ => Raise IndexError
    end
  else Ok [].

(** The body of the inner loop of [deal_with_markers]: one declaration
    [style] of the style attribute of the element at position [i]. *)
Definition propagate (force_fill : bool) (i : nat) (style : str) (doc : list (gmap str str))
    : result (list (gmap str str)) :=
  match Re.rmatch marker_pattern (strip style), element_get doc i "class" with
  | Some (marker_id, _), Some classes =>
      let classes := color_classes classes in
      marker_element ← find_element_with_id doc marker_id;
      match marker_element ≫= (fun j => (fun m => (j, m)) <$> doc !! j) with
      | None => Raise AttributeError
      | Some (j, m) =>
          forced ← forced_fill force_fill classes;
          let marker_classes := class_tokens m ++ classes ++ forced in
          Ok (<[ j := write_classes marker_classes m ]> doc)
      end
  | _, _ => Ok doc
  end.

Fixpoint propagate_all (force_fill : bool) (i : nat) (styles : list str)
    (doc : list (gmap str str)) : result (list (gmap str str)) :=
  match styles with
  | [] => Ok doc
  | style :: rest =>
      doc ← propagate force_fill i style doc;
      propagate_all force_fill i rest doc
  end.

(** The body of the outer loop, for the element at position [i]. *)
Definition markers_of_element (force_fill : bool) (i : nat) (doc : list (gmap str str))
    : result (list (gmap str str)) :=
  match element_get doc i "style" with
  | Some style => propagate_all force_fill i (split ";" style) doc
  | None => Ok doc
  end.

(** The outer loop over the [n] elements from position [i] on. *)
Fixpoint markers_from (force_fill : bool) (n i : nat) (doc : list (gmap str str))
    : result (list (gmap str str)) :=
  match n with
  | O => Ok doc
  | S n' =>
      doc ← markers_of_element force_fill i doc;
      markers_from force_fill n' (S i) doc
  end.

(** [deal_with_markers], on the attributes of the elements in document order. *)
Definition deal_with_markers (force_fill : bool) (doc : list (gmap str str))
    : result (list (gmap str str)) :=
  markers_from force_fill (length doc) 0 doc.

End Sets.

(** The attributes that the last two stages work on. *)
Definition attributes (tree : element) : list (gmap str str) := attrib <$> iter tree.

(** What is known of the iteration order of a set: every element once. *)
Definition set_order (set_iter : list str -> list str) : Prop :=
  forall l, NoDup (set_iter l) /\ forall x, x ∈ set_iter l <-> x ∈ l.

(** One such order: the order of insertion. *)
Definition insertion_order (l : list str) : list str := remove_dups l.

(** The paths that are not embedded, in the examples, none of which has such
    a path: a stand-in that refuses them. *)
Definition no_path : finder := fun _ _ => Raise SyntaxError.

(** * Notions used in the statements *)

(** ** The style-block manager *)

(** A parser is local with respect to newlines when no match of it reaches
    over a newline: what follows the first newline is handed back as it is. *)
Definition nl_local {A} (p : Re.parser A) : Prop :=
  forall a b, p (a ++ NL :: b) = map (fun xr => (xr.1, xr.2 ++ NL :: b)) (p a).

(** The three parts of a rule that [css_pattern] accepts. *)
Definition rule_types (rt : str) : Prop := rt = "fill" \/ rt = "stroke".
Definition color_name_ok (n : str) : Prop := n <> [] /\ forallb alnum n = true.
Definition hex_ok (h : str) : Prop :=
  forallb hexdigit h = true /\ (length h = 3 \/ length h = 6).

(** The text of one rule, as both loops of [update_svg_style] format it. *)
Definition rule_text (rt n v : str) : str :=
  "." ++ rt ++ "-" ++ n ++ " {" ++ rt ++ ":" ++ v ++ ";}".

(** A colour name that a rule of the text carries. *)
Definition named (s : str) (n : str) : Prop :=
  exists rt c, (rt, n, c) ∈ Re.finditer css_pattern s.

(** A theme table whose rules [css_pattern] recognises once they are written:
    names made of letters and digits, values of three or six hex digits after
    the number sign. *)
Definition theme_ok (T : list (str * str)) : Prop :=
  Forall (fun kv => color_name_ok kv.1 /\ exists h, kv.2 = "#" ++ h /\ hex_ok h) T.

(** The idempotence of the style-block manager for every tree and every
    theme table. *)
Definition style_idempotence_claim : Prop :=
  forall (tree t1 t2 : element) (T : list (str * str)),
    update_svg_style tree T = Some t1 -> update_svg_style t1 T = Some t2 ->
    style_text t2 = style_text t1.

(** ** The colour tables *)

Definition themes_example : config :=
  [("DEFAULT", []); ("dark", [("red", "ff0000")])].
Definition mapping_example : config :=
  [("DEFAULT", []); ("color.mapping", [("black", "black")])].

(** ** The rewriter *)

(** What the rewriter adds to the classes and takes from the attributes. *)
Definition fill_part (cm : gmap str str) (fa : Attribute) : list str :=
  match matched cm fa with Some n => ["fill-" ++ n] | None => [] end.
Definition stroke_part (cm : gmap str str) (sa : Attribute) : list str :=
  match matched cm sa with Some n => ["stroke-" ++ n] | None => [] end.
Definition drop_if (cm : gmap str str) (at_ : Attribute) (k : str) (a : gmap str str)
    : gmap str str :=
  match matched cm at_ with Some _ => delete k a | None => a end.

(** The plain attribute is read only when the style has not set the property. *)
Definition plain (f : Attribute) (o : option str) : Attribute :=
  match o with
  | Some v => if negb (is_set f) then {| is_set := true; value := Some v |} else f
  | None => f
  end.

(** A declaration of the style that gives property [p] a value: a colour of
    the mapping other than [none]. *)
Definition resolving (cm : gmap str str) (p seg : str) : Prop :=
  exists attr val, split ":" seg = [attr; val] /\ strip attr = p /\
                   is_Some (cm !! strip val) /\ strip val <> "none".

(** Declarations that unpack into a property and a value. *)
Definition parses (l : list str) : Prop := Forall (fun seg => length (split ":" seg) = 2) l.

(** An element with a style and a plain [fill], and a mapping, for examples. *)
Definition styled (style : str) : gmap str str :=
  <["style" := style]> (<["fill" := "#0000ff"]> ∅).
Definition colors_example : gmap str str :=
  <["#ff0000" := "red"]> (<["#00ff00" := "green"]> (<["none" := "none"]> ∅)).

(** The precedence of the style, for every declaration [fill:v1] of the
    style with [v1] a key of the mapping: the class of [v1] is produced. *)
Definition style_precedence_claim (si : list str -> list str) : Prop :=
  forall (cm a : gmap str str) (s v2 seg attr val name : str),
    a !! "style" = Some s -> a !! "fill" = Some v2 ->
    seg ∈ split ";" (strip s) -> split ":" seg = [attr; val] -> strip attr = "fill" ->
    cm !! strip val = Some name ->
    exists a', replace_color_element si cm a = Ok a' /\ "fill-" ++ name ∈ class_tokens a'.

(** A fatal error for every style that is not empty and has a declaration
    without a colon. *)
Definition malformed_style_claim : Prop :=
  forall (si : list str -> list str) (cm a : gmap str str) (s seg : str),
    a !! "style" = Some s -> s <> [] -> seg ∈ split ";" s -> ":"%char ∉ seg ->
    exists e, replace_color_element si cm a = Raise e.

(** ** The marker propagator *)

(** The tokens of a class string that are not empty. *)
Definition words (s : str) : list str := filter (fun t => t <> []) (strip <$> split " " s).

(** The class tokens of the element at position [k]. *)
Definition tokens_at (doc : list (gmap str str)) (k : nat) : list str :=
  match doc !! k with Some m => class_tokens m | None => [] end.

Definition spaceless (l : list str) : Prop := Forall (fun t => " "%char ∉ t) l.

(** What a step of the propagator leaves as it is: every attribute but
    [class], and the presence of [class]. *)
Definition frame (doc doc' : list (gmap str str)) : Prop :=
  (forall k key, key <> "class" -> element_get doc' k key = element_get doc k key) /\
  (forall k, is_Some (element_get doc k "class") -> is_Some (element_get doc' k "class")).

(** A marker reference of an element with a [class] attribute, to an id
    without a single quote that no element below the root carries. *)
Definition dangling (doc : list (gmap str str)) (i : nat) (seg : str) : Prop :=
  exists id rest, Re.rmatch marker_pattern (strip seg) = Some (id, rest) /\
    ("'"%char ∉ id) /\ is_Some (element_get doc i "class") /\
    forall k, 1 <= k -> element_get doc k "id" <> Some id.

(** The claim of a fatal error for every reference to an id that no element
    of the document carries. *)
Definition missing_marker_claim (si : list str -> list str) (fp : finder) : Prop :=
  forall (doc : list (gmap str str)) (ff : bool) (i : nat) (s seg id rest c : str),
    element_get doc i "style" = Some s -> seg ∈ split ";" s ->
    Re.rmatch marker_pattern (strip seg) = Some (id, rest) ->
    element_get doc i "class" = Some c -> color_classes c <> [] ->
    (forall k, element_get doc k "id" <> Some id) ->
    exists e, deal_with_markers si fp ff doc = Raise e.

(** The claim that the marker gets the union of its tokens and of the
    classes handed on, and nothing else, whether the fill is forced or not. *)
Definition marker_union_claim (si : list str -> list str) (fp : finder) : Prop :=
  forall (doc : list (gmap str str)) (m : gmap str str) (ff : bool) (i j : nat)
         (seg c id rest : str),
    element_get doc i "class" = Some c -> color_classes c <> [] ->
    Re.rmatch marker_pattern (strip seg) = Some (id, rest) ->
    find_element_with_id fp doc id = Ok (Some j) -> doc !! j = Some m ->
    exists doc', propagate si fp ff i seg doc = Ok doc' /\
      forall t, t ∈ tokens_at doc' j -> t ∈ class_tokens m \/ t ∈ strip <$> color_classes c.

(** The state of a run with respect to the document it started from: the
    same elements, every attribute but [class] as it was, and every class of
    an element that was to be handed on still among those to be handed on,
    the white space around it apart. *)
Definition follows (doc doc' : list (gmap str str)) : Prop :=
  length doc' = length doc /\ frame doc doc' /\
  forall k c t, element_get doc k "class" = Some c -> t ∈ color_classes c ->
    exists c' y, element_get doc' k "class" = Some c' /\ y ∈ color_classes c' /\
                 strip y = strip t.

(** The text after the first [sep]. *)
Fixpoint after_first (sep : ascii) (s : str) : str :=
  match s with
  | [] => []
  | c :: r => if eqc c sep then r else after_first sep r
  end.

(** Forcing the fill, with the colour name read as all the text after the
    first hyphen of the first class handed on. *)
Definition force_fill_claim (si : list str -> list str) (fp : finder) : Prop :=
  forall (doc : list (gmap str str)) (m : gmap str str) (i j : nat)
         (seg c id rest t0 : str) (more : list str),
    element_get doc i "class" = Some c -> color_classes c = t0 :: more ->
    Re.rmatch marker_pattern (strip seg) = Some (id, rest) ->
    find_element_with_id fp doc id = Ok (Some j) -> doc !! j = Some m ->
    exists doc', propagate si fp true i seg doc = Ok doc' /\
                 "fill-" ++ after_first "-" t0 ∈ tokens_at doc' j.

(** A document with one element that refers to the marker [m1]. *)
Definition marker_doc (classes : str) (marker : gmap str str) : list (gmap str str) :=
  [ ∅; <["class" := classes]> (<["style" := "marker-end:url(#m1)"]> ∅);
    <["id" := "m1"]> marker ].

(** A document with a reference to the id [x'][@y='z]: no element carries
    that id, and the path that is made of it selects the elements with the
    id [x] whose attribute [y] is [z]. *)
Definition quoted_doc : list (gmap str str) :=
  [ ∅; <["class" := "fill-red"]> (<["style" := "marker-end:url(#x'][@y='z)"]> ∅);
    <["id" := "x"]> (<["y" := "z"]> ∅) ].

(** ** Further notions *)


(** The colour names of the rules that [css_pattern] finds in a text. *)
Definition rule_names (s : str) : list str :=
  (fun g => g.1.2) <$> Re.finditer css_pattern s.

(** The rules for the colours of the theme that no rule of the text names,
    in the order of the theme. *)
Definition missing_rules (s : str) (T : list (str * str)) : str :=
  flat_map (fun kv => new_rules kv.1 kv.2) (filter (fun kv => kv.1 ∉ rule_names s) T).

(** A declaration that [modify_style_attribute] takes out of the style: a
    [fill] or a [stroke] whose value is a key of the mapping. *)
Definition taken (cm : gmap str str) (style : str) : bool :=
  match split ":" style with
  | [attr; val] =>
      (bool_decide (strip attr = "fill") || bool_decide (strip attr = "stroke"))
      && bool_decide (is_Some (cm !! strip val))
  | _ => false
  end.

(** The declarations that stay in the style. *)
Definition kept_styles (cm : gmap str str) (styles : list str) : list str :=
  filter (fun style => taken cm style = false) styles.

Ltac solve_notin := rewrite list_elem_of_In; vm_compute; intuition discriminate.

(** * Proofs *)

(** ** Strings *)

Lemma eqc_true a b : eqc a b = true <-> a = b.
Proof. unfold eqc. apply bool_decide_eq_true. Qed.
Lemma eqc_false a b : eqc a b = false <-> a <> b.
Proof. unfold eqc. apply bool_decide_eq_false. Qed.
Lemma eqc_refl a : eqc a a = true.
Proof. by apply eqc_true. Qed.

(** *** [split] *)
Lemma split_nonempty sep s : split sep s <> [].
Proof. induction s as [|c s IH]; simpl; [done|]. destruct (eqc c sep); [done|]. by destruct (split sep s). Qed.

Lemma split_notin sep s : sep ∉ s -> split sep s = [s].
Proof.
  induction s as [|c s IH]; intros H; simpl; [done|].
  apply not_elem_of_cons in H as [Hc Hs].
  rewrite (proj2 (eqc_false c sep)) by done. by rewrite IH.
Qed.

(** A prefix without the separator stays in the first part. *)
Lemma split_app_l sep w s :
  sep ∉ w -> split sep (w ++ s) = (w ++ hd [] (split sep s)) :: tl (split sep s).
Proof.
  induction w as [|c w IH]; intros H; simpl.
  - pose proof (split_nonempty sep s). by destruct (split sep s).
  - apply not_elem_of_cons in H as [Hc Hw].
    rewrite (proj2 (eqc_false c sep)) by done. by rewrite IH.
Qed.

(** A suffix without the separator stays in the last part. *)
Lemma split_app_r sep s w :
  sep ∉ w ->
  split sep (s ++ w) = removelast (split sep s) ++ [List.last (split sep s) [] ++ w].
Proof.
  intros Hw. induction s as [|c s IH]; simpl.
  - by rewrite split_notin.
  - destruct (eqc c sep).
    + rewrite IH. pose proof (split_nonempty sep s). by destruct (split sep s).
    + rewrite IH. pose proof (split_nonempty sep s).
      destruct (split sep s) as [|h [|h' t]] eqn:E; [done|done|]. reflexivity.
Qed.

Lemma split_chars sep s x c : x ∈ split sep s -> c ∈ x -> c ∈ s.
Proof.
  revert x. induction s as [|d s IH]; intros x; simpl.
  - intros ->%list_elem_of_singleton. done.
  - destruct (eqc d sep).
    + intros [->|H]%elem_of_cons Hc; [by apply elem_of_nil in Hc|]. right. by eapply IH.
    + pose proof (split_nonempty sep s). destruct (split sep s) as [|h t]; [done|].
      intros [->|H']%elem_of_cons Hc.
      * apply elem_of_cons in Hc as [->|Hc]; [left|right]. apply (IH h); [left|done].
      * right. apply (IH x); [by right|done].
Qed.

Lemma split_no_sep sep s x : x ∈ split sep s -> sep ∉ x.
Proof.
  revert x. induction s as [|d s IH]; intros x; simpl.
  - intros ->%list_elem_of_singleton. apply not_elem_of_nil.
  - destruct (eqc d sep) eqn:E.
    + intros [->|H]%elem_of_cons; [apply not_elem_of_nil|by apply IH].
    + pose proof (split_nonempty sep s). destruct (split sep s) as [|h t]; [done|].
      apply eqc_false in E.
      intros [->|H']%elem_of_cons.
      * apply not_elem_of_cons. split; [done|]. apply IH. left.
      * apply IH. by right.
Qed.

(** *** [strip] *)
Lemma lstrip_decomp s : exists w, s = w ++ lstrip s /\ forallb isspace w = true.
Proof.
  induction s as [|c s (w & Hw & Hs)]; simpl.
  - by exists [].
  - destruct (isspace c) eqn:E.
    + exists (c :: w). simpl. rewrite E, Hs. by rewrite <- Hw.
    + by exists [].
Qed.

Lemma rstrip_decomp s : exists w, s = rstrip s ++ w /\ forallb isspace w = true.
Proof.
  unfold rstrip. destruct (lstrip_decomp (rev s)) as (w & Hw & Hs).
  exists (rev w). split.
  - rewrite <- rev_app_distr, <- Hw. by rewrite rev_involutive.
  - rewrite forallb_forall in *. intros x Hx. apply Hs. by apply in_rev.
Qed.

Lemma strip_decomp s :
  exists w1 w2, s = w1 ++ strip s ++ w2 /\ forallb isspace w1 = true /\ forallb isspace w2 = true.
Proof.
  unfold strip. destruct (lstrip_decomp s) as (w1 & H1 & Hw1).
  destruct (rstrip_decomp (lstrip s)) as (w2 & H2 & Hw2).
  exists w1, w2. by rewrite <- H2.
Qed.

Lemma lstrip_id c s : isspace c = false -> lstrip (c :: s) = c :: s.
Proof. intros H. simpl. by rewrite H. Qed.

(** *** A declaration without a colon *)

Lemma spaces_notin w d : forallb isspace w = true -> isspace d = false -> d ∉ w.
Proof.
  intros Hw Hd Hin. apply list_elem_of_In in Hin.
  rewrite forallb_forall in Hw. specialize (Hw d Hin). congruence.
Qed.

Lemma in_removelast {A} (l : list A) x : x ∈ removelast l -> x ∈ l.
Proof.
  induction l as [|a [|b l] IH]; simpl; [done|by intros []%elem_of_nil|].
  intros [->|H]%elem_of_cons; [left|right; by apply IH].
Qed.

Lemma last_in {A} (l : list A) d : l <> [] -> List.last l d ∈ l.
Proof.
  induction l as [|a [|b l] IH]; [done|by left|]. intros _. right. by apply IH.
Qed.

Lemma split_strip_segment sep c s seg :
  isspace sep = false ->
  seg ∈ split sep s -> c ∉ seg -> exists seg', seg' ∈ split sep (strip s) /\ c ∉ seg'.
Proof.
  intros Hsep Hseg Hc.
  destruct (strip_decomp s) as (w1 & w2 & Hs & Hw1 & Hw2).
  rewrite Hs in Hseg.
  rewrite split_app_l in Hseg by (by apply spaces_notin).
  rewrite split_app_r in Hseg by (by apply spaces_notin).
  pose proof (split_nonempty sep (strip s)) as Hne.
  set (P := split sep (strip s)) in *.
  assert (exists seg2, seg2 ∈ removelast P ++ [List.last P [] ++ w2] /\ c ∉ seg2) as (seg2 & H2 & Hc2).
  { destruct (removelast P ++ [List.last P [] ++ w2]) as [|h t] eqn:E.
    { by destruct (removelast P). }
    simpl in Hseg. apply elem_of_cons in Hseg as [->|Hseg].
    - exists h. split; [left|]. intros ?. apply Hc. apply elem_of_app. by right.
    - exists seg. split; [by right|done]. }
  apply elem_of_app in H2 as [H2|H2].
  - exists seg2. split; [by apply in_removelast|done].
  - apply list_elem_of_singleton in H2 as ->.
    exists (List.last P []). split; [by apply last_in|].
    intros ?. apply Hc2. apply elem_of_app. by left.
Qed.

Lemma modify_styles_raises cm styles u f k seg :
  seg ∈ styles -> ":"%char ∉ seg -> modify_styles cm styles u f k = Raise ValueError.
Proof.
  intros Hin Hseg. revert u f k. induction styles as [|style rest IH]; intros u f k.
  - by apply elem_of_nil in Hin.
  - cbn [modify_styles]. apply elem_of_cons in Hin as [<-|Hin].
    + by rewrite split_notin.
    + destruct (split ":" style) as [|attr [|val [|]]]; try reflexivity.
      repeat case_match; by apply IH.
Qed.

Lemma modify_style_attribute_raises cm s f k seg :
  strip s <> [] -> seg ∈ split ";" s -> ":"%char ∉ seg ->
  modify_style_attribute cm s f k = Raise ValueError.
Proof.
  intros Hne Hin Hseg. unfold modify_style_attribute.
  rewrite bool_decide_eq_false_2 by done.
  destruct (split_strip_segment ";" ":" s seg eq_refl Hin Hseg) as (seg' & Hin' & Hseg').
  by rewrite (modify_styles_raises _ _ _ _ _ seg').
Qed.

(** ** Regular expressions and the style-block manager *)


Lemma elem_of_bind {A B} (p : Re.parser A) (f : A -> Re.parser B) s y :
  y ∈ (p ≫= f) s <-> exists a r, (a, r) ∈ p s /\ y ∈ f a r.
Proof.
  unfold mbind, Re.parser_bind, Re.bind.
  rewrite list_elem_of_In, in_flat_map. split.
  - intros [[a r] [H1 H2]]. exists a, r. rewrite !list_elem_of_In. auto.
  - intros (a & r & H1 & H2). exists (a, r). rewrite <- !list_elem_of_In. auto.
Qed.

Lemma bind_nil {A B} (p : Re.parser A) (f : A -> Re.parser B) s :
  p s = [] -> (p ≫= f) s = [].
Proof. unfold mbind, Re.parser_bind, Re.bind. intros ->. reflexivity. Qed.

Lemma bind_cons {A B} (p : Re.parser A) (f : A -> Re.parser B) s a r l :
  p s = (a, r) :: l -> (p ≫= f) s = f a r ++ flat_map (fun ar => f ar.1 ar.2) l.
Proof. unfold mbind, Re.parser_bind, Re.bind. intros ->. reflexivity. Qed.

Lemma lit_app w r : Re.lit w (w ++ r) = [(w, r)].
Proof.
  induction w as [|a w IH]; simpl; [reflexivity|].
  unfold eqc. rewrite bool_decide_eq_true_2 by reflexivity. rewrite IH. reflexivity.
Qed.

Lemma lit_inv w s x r : (x, r) ∈ Re.lit w s -> x = w /\ s = w ++ r.
Proof.
  revert s x r. induction w as [|a w IH]; intros s x r; simpl.
  - rewrite list_elem_of_singleton. intros [= -> ->]. auto.
  - destruct s as [|b s]; [by rewrite elem_of_nil|].
    destruct (eqc a b) eqn:E; [|by rewrite elem_of_nil].
    apply eqc_true in E as <-.
    rewrite list_elem_of_fmap. intros [[x' r'] [[= -> ->] H]].
    apply IH in H as [-> ->]. auto.
Qed.



(** *** No match reaches over a newline *)

Lemma nl_local_ret {A} (x : A) : nl_local (mret x).
Proof. intros a b. reflexivity. Qed.

Lemma nl_local_dot : nl_local Re.dot.
Proof. intros [|c a] b; simpl; [reflexivity|]. destruct (eqc c NL); reflexivity. Qed.

Lemma nl_local_cls f : f NL = false -> nl_local (Re.cls f).
Proof.
  intros Hf [|c a] b; simpl; [by rewrite Hf|]. destruct (f c); reflexivity.
Qed.

Lemma nl_local_lit w : NL ∉ w -> nl_local (Re.lit w).
Proof.
  induction w as [|x w IH]; intros Hw a b; simpl; [reflexivity|].
  apply not_elem_of_cons in Hw as [Hx Hw].
  destruct a as [|c a]; simpl.
  - unfold eqc. rewrite bool_decide_eq_false_2; [reflexivity|]. congruence.
  - destruct (eqc x c); [|reflexivity].
    rewrite (IH Hw a b), !map_map. reflexivity.
Qed.

Lemma nl_local_many1 f : f NL = false -> nl_local (Re.many1 f).
Proof.
  intros Hf a b. induction a as [|c a IH]; simpl; [by rewrite Hf|].
  destruct (f c); [|reflexivity].
  rewrite IH, map_app, !map_map. reflexivity.
Qed.

Lemma nl_local_alt {A} (p q : Re.parser A) : nl_local p -> nl_local q -> nl_local (Re.alt p q).
Proof. intros Hp Hq a b. unfold Re.alt. rewrite Hp, Hq, map_app. reflexivity. Qed.

Lemma nl_local_bind {A B} (Q : A -> Prop) (p : Re.parser A) (f : A -> Re.parser B) :
  nl_local p -> (forall s x r, (x, r) ∈ p s -> Q x) -> (forall x, Q x -> nl_local (f x)) ->
  nl_local (p ≫= f).
Proof.
  intros Hp HQ Hf a b. unfold mbind, Re.parser_bind, Re.bind. rewrite Hp.
  specialize (HQ a). induction (p a) as [|[x r] l IH]; simpl; [reflexivity|].
  rewrite map_app, IH.
  - rewrite (Hf x); [reflexivity|]. apply (HQ x r). left.
  - intros x' r' H. apply (HQ x' r'). by right.
Qed.

Lemma nl_local_bind' {A B} (p : Re.parser A) (f : A -> Re.parser B) :
  nl_local p -> (forall x, nl_local (f x)) -> nl_local (p ≫= f).
Proof. intros Hp Hf. apply (nl_local_bind (fun _ => True)); auto. Qed.

Lemma nl_local_three f : f NL = false -> nl_local (Re.three f).
Proof.
  intros Hf. unfold Re.three.
  repeat (apply nl_local_bind'; [by apply nl_local_cls|intros ?]). apply nl_local_ret.
Qed.

Lemma nl_local_css : nl_local css_pattern.
Proof.
  unfold css_pattern.
  apply nl_local_bind'; [apply nl_local_dot|intros _].
  apply (nl_local_bind (fun x => NL ∉ x)).
  { apply nl_local_alt; apply nl_local_lit; solve_notin. }
  { intros s x r [H|H]%elem_of_app; apply lit_inv in H as [-> _];
      solve_notin. }
  intros rule_type Hrt.
  apply nl_local_bind'; [apply nl_local_lit; solve_notin|intros _].
  apply nl_local_bind'; [by apply nl_local_many1|intros color_name].
  apply nl_local_bind'; [apply nl_local_lit; solve_notin|intros _].
  apply nl_local_bind'; [by apply nl_local_lit|intros _].
  apply nl_local_bind'; [apply nl_local_lit; solve_notin|intros _].
  apply nl_local_bind'.
  { apply nl_local_bind'; [by apply nl_local_three|intros h].
    apply nl_local_bind'; [|intros ?; apply nl_local_ret].
    apply nl_local_alt; [by apply nl_local_three|apply nl_local_ret]. }
  intros color.
  apply nl_local_bind'; [apply nl_local_lit; solve_notin|intros _].
  apply nl_local_ret.
Qed.

Lemma rmatch_nl_local {A} (p : Re.parser A) a b :
  nl_local p -> Re.rmatch p (a ++ NL :: b) = (fun xr => (xr.1, xr.2 ++ NL :: b)) <$> Re.rmatch p a.
Proof. intros Hp. unfold Re.rmatch. rewrite Hp. by destruct (p a). Qed.

Lemma finditer_from_app_nl {A} (p : Re.parser A) a b k :
  nl_local p -> k <= length a ->
  Re.finditer_from p k (a ++ NL :: b) = Re.finditer_from p k a ++ Re.finditer_from p 0 (NL :: b).
Proof.
  intros Hp. revert k. induction a as [|c a IH]; intros k Hk.
  - simpl in Hk. by replace k with 0 by lia.
  - change ((c :: a) ++ NL :: b) with (c :: (a ++ NL :: b)).
    cbn [Re.finditer_from]. destruct k as [|k].
    + change (c :: (a ++ NL :: b)) with ((c :: a) ++ NL :: b).
      rewrite rmatch_nl_local by done.
      destruct (Re.rmatch p (c :: a)) as [[x rest]|]; simpl.
      * f_equal. rewrite !length_app. simpl.
        replace (S (length a + S (length b)) - (length rest + S (length b)) - 1)
          with (length a - length rest - 0) by lia.
        replace (length a - length rest - 0) with (length a - length rest) by lia.
        replace (S (length a) - length rest - 1) with (length a - length rest) by lia.
        apply IH. lia.
      * apply IH. lia.
    + apply IH. simpl in Hk. lia.
Qed.

Lemma finditer_from_skip {A} (p : Re.parser A) x r :
  Re.finditer_from p (length x) (x ++ r) = Re.finditer_from p 0 r.
Proof. induction x as [|c x IH]; simpl; [reflexivity|]. destruct r; done. Qed.

(** *** The rules that the manager writes are rules that it recognises *)

Lemma rmatch_bind_first {A B} (p : Re.parser A) (f : A -> Re.parser B) s a r l y :
  p s = (a, r) :: l -> Re.rmatch (f a) r = Some y -> Re.rmatch (p ≫= f) s = Some y.
Proof.
  intros Hp Hf. unfold Re.rmatch in *. rewrite (bind_cons _ _ _ _ _ _ Hp).
  destruct (f a r); simplify_eq/=. reflexivity.
Qed.

Lemma rmatch_bind_nil {A B} (p : Re.parser A) (f : A -> Re.parser B) s :
  p s = [] -> Re.rmatch (p ≫= f) s = None.
Proof. intros Hp. unfold Re.rmatch. by rewrite bind_nil. Qed.

Lemma many1_run f n c r :
  n <> [] -> forallb f n = true -> f c = false ->
  exists tl, Re.many1 f (n ++ c :: r) = (n, c :: r) :: tl.
Proof.
  intros Hn Hf Hc. induction n as [|a n IH]; [done|].
  simpl in Hf. apply andb_true_iff in Hf as [Ha Hf]. simpl. rewrite Ha.
  destruct n as [|b n].
  - simpl. rewrite Hc. simpl. by eexists.
  - destruct IH as [tl ->]; [done|done|]. simpl. by eexists.
Qed.


Lemma hex_parser h rest :
  hex_ok h ->
  exists l, (h ← Re.three hexdigit; t ← Re.opt (Re.three hexdigit); mret (h ++ t))
    (h ++ ";}" ++ rest) = (h, ";}" ++ rest) :: l.
Proof.
  intros [Hh [Hl|Hl]].
  - destruct h as [|a [|b [|c [|]]]]; simplify_eq/=.
    apply andb_true_iff in Hh as [Ha Hh]. apply andb_true_iff in Hh as [Hb Hh].
    apply andb_true_iff in Hh as [Hc _].
    unfold mbind, mret, Re.parser_bind, Re.parser_ret, Re.bind, Re.ret, Re.three, Re.opt, Re.alt.
    unfold mbind, mret, Re.parser_bind, Re.parser_ret, Re.bind, Re.ret. simpl.
    rewrite Ha. simpl. rewrite Hb. simpl. rewrite Hc. simpl. by eexists.
  - destruct h as [|a [|b [|c [|d [|e [|f [|]]]]]]]; simplify_eq/=.
    repeat (apply andb_true_iff in Hh as [? Hh]).
    unfold mbind, mret, Re.parser_bind, Re.parser_ret, Re.bind, Re.ret, Re.three, Re.opt, Re.alt.
    unfold mbind, mret, Re.parser_bind, Re.parser_ret, Re.bind, Re.ret. simpl.
    repeat match goal with H : hexdigit _ = true |- _ => rewrite H; clear H; simpl end.
    by eexists.
Qed.


Lemma rule_text_app rt n h rest :
  rule_text rt n ("#" ++ h) ++ rest
  = "."%char :: rt ++ "-" ++ n ++ " {" ++ rt ++ ":#" ++ h ++ ";}" ++ rest.
Proof. unfold rule_text. repeat (progress (simpl; rewrite <- ?app_assoc)). reflexivity. Qed.

Lemma css_pattern_rule rt n h rest :
  rule_types rt -> color_name_ok n -> hex_ok h ->
  Re.rmatch css_pattern (rule_text rt n ("#" ++ h) ++ rest) = Some ((rt, n, h), rest).
Proof.
  intros Hrt [Hn Ha] Hh. rewrite rule_text_app. unfold css_pattern.
  eapply rmatch_bind_first; [reflexivity|].
  assert (exists l, Re.alt (Re.lit "fill") (Re.lit "stroke")
            (rt ++ "-" ++ n ++ " {" ++ rt ++ ":#" ++ h ++ ";}" ++ rest)
          = (rt, "-" ++ n ++ " {" ++ rt ++ ":#" ++ h ++ ";}" ++ rest) :: l) as [l0 Hl0].
  { unfold Re.alt. destruct Hrt as [-> | ->].
    - rewrite lit_app. by eexists.
    - change (Re.lit "fill" ("stroke" ++ ?x)) with (@nil (str * str)).
      rewrite lit_app. by eexists. }
  eapply rmatch_bind_first; [apply Hl0|].
  eapply rmatch_bind_first; [apply (lit_app "-")|].
  destruct (many1_run alnum n " " ("{" ++ rt ++ ":#" ++ h ++ ";}" ++ rest) Hn Ha eq_refl)
    as [tl Htl].
  eapply rmatch_bind_first; [apply Htl|].
  eapply rmatch_bind_first; [apply (lit_app " {")|].
  eapply rmatch_bind_first; [apply lit_app|].
  eapply rmatch_bind_first; [apply (lit_app ":#")|].
  destruct (hex_parser h rest Hh) as [l Hl].
  eapply rmatch_bind_first; [apply Hl|].
  eapply rmatch_bind_first; [apply (lit_app ";}")|].
  reflexivity.
Qed.

Lemma finditer_from_None {A} (p : Re.parser A) c s :
  Re.rmatch p (c :: s) = None -> Re.finditer_from p 0 (c :: s) = Re.finditer_from p 0 s.
Proof. intros H. cbn [Re.finditer_from]. by rewrite H. Qed.

Lemma finditer_from_Some {A} (p : Re.parser A) x r a :
  x <> [] -> Re.rmatch p (x ++ r) = Some (a, r) ->
  Re.finditer_from p 0 (x ++ r) = a :: Re.finditer_from p 0 r.
Proof.
  intros Hx H. destruct x as [|c x]; [done|].
  change ((c :: x) ++ r) with (c :: (x ++ r)) in *.
  cbn [Re.finditer_from]. rewrite H. f_equal.
  replace (length (c :: x ++ r) - length r - 1) with (length x)
    by (simpl; rewrite length_app; lia).
  apply finditer_from_skip.
Qed.

Lemma css_pattern_not_here d c x :
  c <> "f"%char -> c <> "s"%char -> Re.rmatch css_pattern (d :: c :: x) = None.
Proof.
  intros Hf Hs. unfold css_pattern, Re.rmatch.
  unfold mbind at 1. unfold Re.parser_bind, Re.bind at 1. simpl.
  destruct (eqc d NL); [reflexivity|]. simpl.
  rewrite bind_nil; [reflexivity|].
  unfold Re.alt. simpl. unfold eqc.
  rewrite !bool_decide_eq_false_2 by congruence. reflexivity.
Qed.

Lemma css_pattern_newline x : Re.rmatch css_pattern (NL :: x) = None.
Proof. unfold css_pattern. apply rmatch_bind_nil. reflexivity. Qed.

Lemma finditer_padded_rule rt n h r :
  rule_types rt -> color_name_ok n -> hex_ok h ->
  Re.finditer_from css_pattern 0 (NL :: "        " ++ rule_text rt n ("#" ++ h) ++ r)
  = (rt, n, h) :: Re.finditer_from css_pattern 0 r.
Proof.
  intros Hrt Hn Hh.
  rewrite finditer_from_None by apply css_pattern_newline.
  change ("        " ++ ?x) with (" "%char :: " "%char :: " "%char :: " "%char :: " "%char :: " "%char :: " "%char :: " "%char :: x).
  do 7 (rewrite finditer_from_None by (by apply css_pattern_not_here)).
  rewrite finditer_from_None.
  2:{ rewrite rule_text_app. by apply css_pattern_not_here. }
  apply finditer_from_Some; [by unfold rule_text|].
  by apply css_pattern_rule.
Qed.

Lemma new_rules_eq n v :
  new_rules n v = (NL :: "        " ++ rule_text "fill" n v)
               ++ (NL :: "        " ++ rule_text "stroke" n v).
Proof. reflexivity. Qed.

Lemma finditer_new_rules n h r :
  color_name_ok n -> hex_ok h ->
  Re.finditer_from css_pattern 0 (new_rules n ("#" ++ h) ++ r)
  = ("fill", n, h) :: ("stroke", n, h) :: Re.finditer_from css_pattern 0 r.
Proof.
  intros Hn Hh. rewrite new_rules_eq.
  replace (((NL :: "        " ++ rule_text "fill" n ("#" ++ h))
            ++ NL :: "        " ++ rule_text "stroke" n ("#" ++ h)) ++ r)
    with (NL :: "        " ++ rule_text "fill" n ("#" ++ h) ++
           (NL :: "        " ++ rule_text "stroke" n ("#" ++ h) ++ r)).
  2:{ unfold rule_text. repeat (progress (simpl; rewrite <- ?app_assoc)). reflexivity. }
  rewrite finditer_padded_rule by (done || by left).
  rewrite finditer_padded_rule by (done || by right).
  reflexivity.
Qed.

(** *** The substitution finds nothing in a text without U+0001 *)

Lemma forallb_notin (f : ascii -> bool) (n : str) c :
  forallb f n = true -> f c = false -> c ∉ n.
Proof.
  intros Hn Hc Hin. apply list_elem_of_In in Hin.
  rewrite forallb_forall in Hn. specialize (Hn c Hin). congruence.
Qed.

Lemma dot_inv c r s : (c, r) ∈ Re.dot s -> s = c :: r.
Proof.
  destruct s as [|d s]; simpl; [by rewrite elem_of_nil|].
  destruct (eqc d NL); [by rewrite elem_of_nil|].
  by intros [= -> ->]%list_elem_of_singleton.
Qed.

Lemma sub_pattern_no_SOH rt n s : SOH ∉ s -> sub_pattern rt n s = [].
Proof.
  intros Hs. apply elem_of_nil_inv. intros y H. unfold sub_pattern in H.
  apply elem_of_bind in H as (c & r & ->%dot_inv & H).
  apply elem_of_bind in H as (x & r' & [_ ->]%lit_inv & _).
  apply Hs. right. rewrite !elem_of_app. left. right. right. right. right. left.
Qed.

Lemma sub_from_id {A} (p : Re.parser A) repl s :
  (forall s', SOH ∉ s' -> p s' = []) -> SOH ∉ s -> Re.sub_from p repl 0 s = s.
Proof.
  intros Hp. induction s as [|c s IH]; intros Hs; [reflexivity|].
  cbn [Re.sub_from]. unfold Re.rmatch. rewrite (Hp _ Hs). simpl.
  f_equal. apply IH. by apply not_elem_of_cons in Hs as [_ ?].
Qed.

Lemma sub_plain rt n repl s :
  "\"%char ∉ repl -> SOH ∉ s -> Re.sub (sub_pattern rt n) repl s = Some s.
Proof.
  intros Hr Hs. unfold Re.sub. rewrite bool_decide_eq_false_2 by done.
  f_equal. apply sub_from_id; [|done]. intros. by apply sub_pattern_no_SOH.
Qed.

Lemma many1_inv f s x r : (x, r) ∈ Re.many1 f s -> x <> [] /\ forallb f x = true.
Proof.
  revert x r. induction s as [|c s IH]; intros x r; simpl; [by rewrite elem_of_nil|].
  destruct (f c) eqn:E; [|by rewrite elem_of_nil].
  rewrite elem_of_app, list_elem_of_fmap, list_elem_of_singleton.
  intros [[[x' r'] [[= -> ->] H]]|[= -> ->]]; simpl.
  - apply IH in H as [_ H]. by rewrite E, H.
  - by rewrite E.
Qed.

Lemma css_pattern_groups rt n c r s :
  ((rt, n, c), r) ∈ css_pattern s -> rule_types rt /\ color_name_ok n.
Proof.
  unfold css_pattern. intros H.
  apply elem_of_bind in H as (? & ? & _ & H).
  apply elem_of_bind in H as (rt' & ? & Hrt & H).
  apply elem_of_bind in H as (? & ? & _ & H).
  apply elem_of_bind in H as (n' & ? & Hn & H).
  apply elem_of_bind in H as (? & ? & _ & H).
  apply elem_of_bind in H as (? & ? & _ & H).
  apply elem_of_bind in H as (? & ? & _ & H).
  apply elem_of_bind in H as (? & ? & _ & H).
  apply elem_of_bind in H as (? & ? & _ & H).
  apply list_elem_of_singleton in H. injection H as -> -> -> ->.
  split.
  - apply elem_of_app in Hrt as [Hrt|Hrt]; apply lit_inv in Hrt as [-> _]; [by left|by right].
  - by apply many1_inv in Hn.
Qed.

Lemma finditer_from_elem {A} (p : Re.parser A) k s a :
  a ∈ Re.finditer_from p k s -> exists s' r, (a, r) ∈ p s'.
Proof.
  revert k. induction s as [|c s IH]; intros k; cbn [Re.finditer_from]; [by rewrite elem_of_nil|].
  destruct k as [|k]; [|apply IH].
  unfold Re.rmatch. destruct (p (c :: s)) as [|[x r] l] eqn:E; simpl; [apply IH|].
  intros [->|H]%elem_of_cons; [|by eapply IH].
  exists (c :: s), r. rewrite E. left.
Qed.



Lemma dict_get_elem T n v : dict_get T n = Some v -> (n, v) ∈ T.
Proof.
  induction T as [|[k w] T IH]; simpl; [done|].
  case_bool_decide as Hk; [intros [= ->]; subst; left|intros Hg; right; auto].
Qed.

Lemma dict_get_is_Some T n v : (n, v) ∈ T -> is_Some (dict_get T n).
Proof.
  induction T as [|[k w] T IH]; [by rewrite elem_of_nil|].
  intros [[= -> ->]|H]%elem_of_cons; simpl; case_bool_decide; eauto; done.
Qed.

Lemma rule_text_notin rt n v c :
  c ∉ rt -> c ∉ n -> c ∉ v -> c ∉ ".- {:;}" -> c ∉ rule_text rt n v.
Proof.
  intros Hrt Hn Hv Hc. unfold rule_text. rewrite !elem_of_app.
  intros H. apply Hc. rewrite list_elem_of_In. simpl.
  rewrite !list_elem_of_In in H. simpl in H.
  rewrite !list_elem_of_In in Hrt, Hn, Hv. tauto.
Qed.

Lemma color_name_no c n : color_name_ok n -> alnum c = false -> c ∉ n.
Proof. intros [_ H] Hc. by eapply forallb_notin. Qed.

Lemma rule_types_no c rt : rule_types rt -> alnum c = false -> c ∉ rt.
Proof. intros [-> | ->] Hc; by apply (forallb_notin alnum). Qed.

Lemma hex_value_no c h : hex_ok h -> hexdigit c = false -> c <> "#"%char -> c ∉ "#" ++ h.
Proof.
  intros [H _] Hc Hne. apply not_elem_of_cons. split; [done|]. by eapply forallb_notin.
Qed.

Lemma theme_ok_get T n v :
  theme_ok T -> dict_get T n = Some v -> color_name_ok n /\ exists h, v = "#" ++ h /\ hex_ok h.
Proof.
  intros HT H%dict_get_elem. unfold theme_ok in HT. rewrite Forall_forall in HT.
  by apply (HT (n, v)).
Qed.

Lemma update_rules_plain T rules S upd :
  theme_ok T -> SOH ∉ S ->
  (forall rt n c, (rt, n, c) ∈ rules -> rule_types rt /\ color_name_ok n) ->
  exists upd', update_rules T rules S upd = Some (S, upd') /\
    forall n, n ∈ upd' <->
      n ∈ upd \/ ((exists rt c, (rt, n, c) ∈ rules) /\ is_Some (dict_get T n)).
Proof.
  intros HT HS. revert upd. induction rules as [|[[rt n] c] rules IH]; intros upd Hr.
  - exists upd. split; [reflexivity|]. intros n. split; [auto|].
    intros [?|[(? & ? & []%elem_of_nil) _]]. done.
  - cbn [update_rules].
    destruct (Hr rt n c) as [Hrt Hn]; [left|].
    assert (Hr' : forall rt n c, (rt, n, c) ∈ rules -> rule_types rt /\ color_name_ok n).
    { intros ??? H. eapply Hr. right. exact H. }
    destruct (dict_get T n) as [v|] eqn:Hv.
    + destruct (theme_ok_get _ _ _ HT Hv) as [_ (h & -> & Hh)].
      rewrite sub_plain; [|apply (rule_text_notin rt n ("#" ++ h))|done].
      * simpl. destruct (IH (n :: upd) Hr') as (upd' & -> & Hupd').
        exists upd'. split; [reflexivity|]. intros m. rewrite Hupd', elem_of_cons.
        split.
        -- intros [[->|?]|[(rt' & c' & ?) ?]]; [right|by left|right].
           ++ split; [exists rt, c; left|by rewrite Hv].
           ++ split; [exists rt', c'; by right|done].
        -- intros [?|[(rt' & c' & [[= -> -> ->]|?]%elem_of_cons) ?]]; [by left; right|by left; left|right].
           split; [by exists rt', c'|done].
      * by apply rule_types_no.
      * by apply color_name_no.
      * by apply hex_value_no.
      * solve_notin.
    + destruct (IH upd Hr') as (upd' & -> & Hupd').
      exists upd'. split; [reflexivity|]. intros m. rewrite Hupd'.
      split.
      * intros [?|[(rt' & c' & ?) ?]]; [by left|right].
        split; [exists rt', c'; by right|done].
      * intros [?|[(rt' & c' & [[= -> -> ->]|?]%elem_of_cons) Hs]]; [by left| |right].
        -- rewrite Hv in Hs. by destruct Hs.
        -- split; [by exists rt', c'|done].
Qed.

(** *** The rules that are appended *)

Lemma add_rules_app T upd S : add_rules T upd S = S ++ add_rules T upd [].
Proof.
  revert S. induction T as [|[n v] T IH]; intros S; simpl; [by rewrite app_nil_r|].
  case_bool_decide; [apply IH|].
  rewrite IH, (IH (new_rules n v)), app_assoc. reflexivity.
Qed.

Lemma add_rules_all T upd S :
  (forall n v, (n, v) ∈ T -> n ∈ upd) -> add_rules T upd S = S.
Proof.
  revert S. induction T as [|[n v] T IH]; intros S H; simpl; [reflexivity|].
  rewrite bool_decide_eq_true_2 by (eapply H; left).
  apply IH. intros ???. eapply H. by right.
Qed.

Lemma add_rules_nl T upd :
  add_rules T upd [] = [] \/ exists x, add_rules T upd [] = NL :: x.
Proof.
  induction T as [|[n v] T IH]; simpl; [by left|].
  case_bool_decide; [done|]. right. rewrite add_rules_app. by eexists.
Qed.

Lemma finditer_app_rules S T upd :
  Re.finditer css_pattern (S ++ add_rules T upd [])
  = Re.finditer css_pattern S ++ Re.finditer css_pattern (add_rules T upd []).
Proof.
  destruct (add_rules_nl T upd) as [->|[x ->]].
  - by rewrite !app_nil_r.
  - unfold Re.finditer. apply finditer_from_app_nl; [apply nl_local_css|lia].
Qed.

Lemma named_add_rules T upd n v r :
  theme_ok T -> (n, v) ∈ T -> n ∉ upd ->
  exists rt c, (rt, n, c) ∈ Re.finditer_from css_pattern 0 (add_rules T upd [] ++ r).
Proof.
  intros HT. revert r. induction HT as [|[m w] T [Hm (h & Hw & Hh)] HT IH]; intros r Hin Hn.
  - by apply elem_of_nil in Hin.
  - cbn [add_rules fst snd app] in *. subst w. case_bool_decide as Hu.
    + apply elem_of_cons in Hin as [[= -> ->]|Hin]; [done|]. by apply IH.
    + change ("#"%char :: h) with ("#" ++ h) in *.
      rewrite add_rules_app, <- app_assoc, finditer_new_rules by done.
      apply elem_of_cons in Hin as [[= -> ->]|Hin].
      * exists "fill", h. left.
      * destruct (IH r Hin Hn) as (rt & c & H). exists rt, c. by do 2 right.
Qed.

Lemma finditer_css_groups s rt n c :
  (rt, n, c) ∈ Re.finditer css_pattern s -> rule_types rt /\ color_name_ok n.
Proof. intros (s' & r & H)%finditer_from_elem. by eapply css_pattern_groups. Qed.

Lemma update_style_content_plain S T :
  theme_ok T -> SOH ∉ S ->
  exists upd, update_style_content S T = Some (add_rules T upd S) /\
    forall n, n ∈ upd <-> named S n /\ is_Some (dict_get T n).
Proof.
  intros HT HS. unfold update_style_content.
  destruct (update_rules_plain T (Re.finditer css_pattern S) S [] HT HS) as (upd & -> & Hupd).
  { intros rt n c. apply finditer_css_groups. }
  exists upd. split; [reflexivity|]. intros n. rewrite Hupd, elem_of_nil. unfold named. tauto.
Qed.

Lemma new_rules_no_SOH n h : color_name_ok n -> hex_ok h -> SOH ∉ new_rules n ("#" ++ h).
Proof.
  intros Hn Hh. rewrite new_rules_eq.
  assert (forall rt, rule_types rt -> SOH ∉ NL :: "        " ++ rule_text rt n ("#" ++ h)) as H.
  { intros rt Hrt. apply not_elem_of_cons. split; [done|].
    apply not_elem_of_app. split; [solve_notin|].
    apply rule_text_notin; [by apply rule_types_no|by apply color_name_no|by apply hex_value_no|solve_notin]. }
  apply not_elem_of_app. split; apply H; [by left|by right].
Qed.

Lemma add_rules_no_SOH T upd S : theme_ok T -> SOH ∉ S -> SOH ∉ add_rules T upd S.
Proof.
  intros HT. revert S. induction HT as [|[n v] T [Hn (h & Hv & Hh)] HT IH]; intros S HS; [done|].
  cbn [add_rules fst snd] in *. subst v. case_bool_decide; [by apply IH|].
  apply IH. apply not_elem_of_app. split; [done|by apply new_rules_no_SOH].
Qed.

Lemma update_style_content_twice S T :
  theme_ok T -> SOH ∉ S ->
  exists S1, update_style_content S T = Some S1 /\ (SOH ∉ S1) /\
             update_style_content S1 T = Some S1.
Proof.
  intros HT HS.
  destruct (update_style_content_plain S T HT HS) as (upd & H1 & Hupd).
  exists (add_rules T upd S). split; [done|].
  assert (HS1 : SOH ∉ add_rules T upd S) by (by apply add_rules_no_SOH).
  split; [done|].
  destruct (update_style_content_plain _ T HT HS1) as (upd2 & -> & Hupd2).
  f_equal. apply add_rules_all. intros n v Hin. apply Hupd2.
  split; [|by eapply dict_get_is_Some].
  unfold named. rewrite add_rules_app, finditer_app_rules.
  destruct (decide (n ∈ upd)) as [Hu|Hu].
  - apply Hupd in Hu as [(rt & c & Hu) _]. exists rt, c. apply elem_of_app. by left.
  - destruct (named_add_rules T upd n v [] HT Hin Hu) as (rt & c & H).
    rewrite app_nil_r in H. exists rt, c. apply elem_of_app. by right.
Qed.

(** *** The style element of the tree *)

Lemma style_tag_tag t a x c a' x' c' :
  style_tag (Element t a x c) = style_tag (Element t a' x' c').
Proof. reflexivity. Qed.

Lemma list_find_insert_same {A} (P : A -> Prop) `{!forall x, Decision (P x)} (l : list A) i x y :
  list_find P l = Some (i, x) -> P y -> list_find P (<[i := y]> l) = Some (i, y).
Proof.
  intros (Hi & Hx & Hlt)%list_find_Some Hy. apply list_find_Some.
  split; [|split; [done|]].
  - apply list_lookup_insert_eq. by eapply lookup_lt_Some.
  - intros j z Hj Hji. rewrite list_lookup_insert_ne in Hj by lia. by eapply Hlt.
Qed.

Lemma tag_set_text x e : tag (set_text x e) = tag e.
Proof. by destruct e. Qed.

Lemma text_set_text x e : text (set_text x e) = Some x.
Proof. by destruct e. Qed.

Lemma set_text_set_text x y e : set_text x (set_text y e) = set_text x e.
Proof. by destruct e. Qed.

Lemma update_svg_style_twice tree T :
  theme_ok T -> (forall x, style_text tree = Some x -> SOH ∉ x) ->
  exists t1, update_svg_style tree T = Some t1 /\ update_svg_style t1 T = Some t1.
Proof.
  intros HT Hx. destruct tree as [t a x c].
  unfold update_svg_style, get_style_element, style_text in *. cbn [children tag attrib text] in *.
  destruct (list_find _ c) as [[i e]|] eqn:Hf.
  - cbn [children tag attrib text mbind option_bind] in *.
    pose proof Hf as (Hi & He & Hlt)%list_find_Some. rewrite Hi.
    assert (HS : SOH ∉ str_of_text (text e)).
    { destruct (text e) as [y|]; [by apply Hx|solve_notin]. }
    destruct (update_style_content_twice _ T HT HS) as (S1 & -> & _ & H2).
    eexists. split; [reflexivity|]. cbn [mbind option_bind children tag attrib text].
    rewrite (style_tag_tag t a x _ a x c).
    rewrite (list_find_insert_same _ c i e (set_text S1 e) Hf) by (by rewrite tag_set_text).
    cbn [children tag attrib text].
    rewrite list_lookup_insert_eq by (by eapply lookup_lt_Some).
    rewrite text_set_text. cbn [str_of_text]. rewrite H2. cbn [mbind option_bind].
    by rewrite list_insert_insert_eq, set_text_set_text.
  - cbn [children tag attrib text lookup list_lookup mbind option_bind str_of_text] in *.
    destruct (update_style_content_twice "" T HT) as (S1 & -> & _ & H2); [solve_notin|].
    eexists. split; [reflexivity|]. cbn [mbind option_bind children tag attrib text insert list_insert set_text].
    rewrite (style_tag_tag t a x _ a x c).
    cbn [list_find]. rewrite decide_True by reflexivity.
    cbn [children tag attrib text lookup list_lookup mbind option_bind str_of_text].
    rewrite H2. reflexivity.
Qed.

(** ** The rewriter *)


(** *** One turn of the loop of [replace_color] *)

Lemma resolve_inv cm a a1 fa sa :
  resolve cm a = Ok (a1, fa, sa) ->
  a1 !! "class" = a !! "class" /\ a1 !! "fill" = a !! "fill" /\ a1 !! "stroke" = a !! "stroke" /\
  ((a !! "style" = None /\ a1 = a) \/
   (exists s new f k, a !! "style" = Some s /\
      modify_style_attribute cm s new_attribute new_attribute = Ok (new, f, k) /\ a1 = <["style" := new]> a)).
Proof.
  unfold resolve. destruct (a !! "style") as [s|] eqn:Hs.
  - destruct (modify_style_attribute cm s new_attribute new_attribute) as [[[new f] k]|e] eqn:Hm; [|done].
    cbn [mbind result_bind rbind fst snd]. intros [= <- _ _].
    rewrite !lookup_insert_ne by done. repeat split. right. by exists s, new, f, k.
  - cbn [mbind result_bind rbind]. intros [= <- _ _]. repeat split. by left.
Qed.


Lemma replace_color_element_eq si cm a a1 fa sa :
  resolve cm a = Ok (a1, fa, sa) ->
  replace_color_element si cm a
  = Ok (write_classes si (class_tokens a1 ++ fill_part cm fa ++ stroke_part cm sa)
          (drop_if cm sa "stroke" (drop_if cm fa "fill" a1))).
Proof.
  intros H. unfold replace_color_element, fill_part, stroke_part, drop_if. rewrite H.
  cbn [mbind result_bind rbind].
  destruct (matched cm fa), (matched cm sa); cbn [app]; rewrite ?app_nil_r, <- ?app_assoc; reflexivity.
Qed.

Lemma class_tokens_eq (a b : gmap str str) : a !! "class" = b !! "class" -> class_tokens a = class_tokens b.
Proof. unfold class_tokens. by intros ->. Qed.

Lemma no_class_kept si cm a a1 fa sa :
  resolve cm a = Ok (a1, fa, sa) -> a !! "class" = None ->
  matched cm fa = None -> matched cm sa = None ->
  replace_color_element si cm a = Ok a1 /\ a1 !! "class" = None.
Proof.
  intros H Hc Hf Hs. rewrite (replace_color_element_eq _ _ _ _ _ _ H).
  apply resolve_inv in H as (Hc1 & _). rewrite Hc in Hc1.
  unfold fill_part, stroke_part, drop_if, class_tokens. by rewrite Hf, Hs, Hc1.
Qed.

Lemma lookup_write_classes_ne (si : list str -> list str) (cl : list str) (a : gmap str str) k :
  k <> "class" -> write_classes si cl a !! k = a !! k.
Proof. intros Hk. unfold write_classes. case_match; [|done]. by rewrite lookup_insert_ne. Qed.

Lemma lookup_drop_if_ne (cm : gmap str str) (at_ : Attribute) (k k' : str) (a : gmap str str) :
  k <> k' -> drop_if cm at_ k a !! k' = a !! k'.
Proof. intros Hk. unfold drop_if. case_match; [|done]. by rewrite lookup_delete_ne. Qed.

Lemma style_kept si cm a s new f k :
  a !! "style" = Some s -> modify_style_attribute cm s new_attribute new_attribute = Ok (new, f, k) ->
  exists a', replace_color_element si cm a = Ok a' /\ a' !! "style" = Some new.
Proof.
  intros Hs Hm.
  destruct (resolve cm a) as [[[a1 fa] sa]|e] eqn:Hr.
  - eexists. split; [by apply replace_color_element_eq|].
    rewrite lookup_write_classes_ne, !lookup_drop_if_ne by done.
    apply resolve_inv in Hr as (_ & _ & _ & [[? _]|(s' & new' & f' & k' & ? & ? & ->)]); simplify_eq.
    rewrite lookup_insert_eq. congruence.
  - unfold resolve in Hr. rewrite Hs in Hr. by rewrite Hm in Hr.
Qed.

(** The rewriter raises no exception but [ValueError]. *)
Lemma modify_styles_exn cm styles u f k e :
  modify_styles cm styles u f k = Raise e -> e = ValueError.
Proof.
  revert u f k. induction styles as [|style rest IH]; intros u f k; cbn [modify_styles]; [done|].
  destruct (split ":" style) as [|attr [|val [|]]]; try (by intros [= <-]).
  repeat case_match; apply IH.
Qed.

Lemma replace_color_element_exn si cm a e :
  replace_color_element si cm a = Raise e -> e = ValueError.
Proof.
  unfold replace_color_element.
  destruct (resolve cm a) as [[[a1 fa] sa]|e'] eqn:Hr.
  - cbn [mbind result_bind rbind]. by repeat case_match.
  - cbn [mbind result_bind rbind]. intros [= <-].
    unfold resolve in Hr. destruct (a !! "style") as [s|]; [|done].
    unfold modify_style_attribute in Hr. case_bool_decide; [done|].
    destruct (modify_styles _ _ _ _ _) as [?|e''] eqn:Hm; [done|].
    apply modify_styles_exn in Hm as ->. cbn in Hr. congruence.
Qed.

Lemma replace_color_element_raises si cm a s seg :
  a !! "style" = Some s -> strip s <> [] -> seg ∈ split ";" s -> ":"%char ∉ seg ->
  replace_color_element si cm a = Raise ValueError.
Proof.
  intros Hs Hne Hin Hseg. unfold replace_color_element, resolve. rewrite Hs.
  by rewrite (modify_style_attribute_raises cm s _ _ seg).
Qed.

Lemma replace_color_raises si cm doc a :
  a ∈ doc -> replace_color_element si cm a = Raise ValueError ->
  replace_color si cm doc = Raise ValueError.
Proof.
  intros Hin Ha. induction doc as [|b doc IH]; [by apply elem_of_nil in Hin|].
  cbn [replace_color]. apply elem_of_cons in Hin as [<-|Hin].
  - by rewrite Ha.
  - destruct (replace_color_element si cm b) as [b'|e] eqn:Hb.
    + cbn [mbind result_bind rbind]. by rewrite IH.
    + apply replace_color_element_exn in Hb as ->. reflexivity.
Qed.



(** *** The declarations that set a property *)

Lemma resolve_eq (cm a : gmap str str) s new f k :
  a !! "style" = Some s -> modify_style_attribute cm s new_attribute new_attribute = Ok (new, f, k) ->
  resolve cm a = Ok (<["style" := new]> a, plain f (a !! "fill"), plain k (a !! "stroke")).
Proof.
  intros Hs Hm. unfold resolve. rewrite Hs. rewrite Hm.
  cbn [mbind result_bind rbind fst snd]. rewrite !lookup_insert_ne by done. reflexivity.
Qed.

Lemma modify_styles_app (cm : gmap str str) l1 l2 u f k :
  modify_styles cm (l1 ++ l2) u f k
  = r ← modify_styles cm l1 u f k; modify_styles cm l2 r.1.1 r.1.2 r.2.
Proof.
  revert u f k. induction l1 as [|style l1 IH]; intros u f k; [reflexivity|].
  cbn [app modify_styles]. destruct (split ":" style) as [|attr [|val [|]]]; try reflexivity.
  repeat case_match; apply IH.
Qed.

Lemma modify_styles_total (cm : gmap str str) l u f k :
  Forall (fun seg => length (split ":" seg) = 2) l ->
  exists r, modify_styles cm l u f k = Ok r.
Proof.
  intros Hl. revert u f k. induction Hl as [|style l Hs Hl IH]; intros u f k.
  - by eexists.
  - cbn [modify_styles]. destruct (split ":" style) as [|attr [|val [|]]]; try done.
    repeat case_match; apply IH.
Qed.

Lemma fill_kept (cm : gmap str str) post u f k u' f' k' :
  modify_styles cm post u f k = Ok (u', f', k') -> is_set f = true ->
  (forall seg, seg ∈ post -> ~ resolving cm "fill" seg) ->
  is_set f' = true /\ value f' = value f.
Proof.
  revert u f k. induction post as [|style post IH]; intros u f k H Hf Hn.
  - by injection H as <- <- <-.
  - cbn [modify_styles] in H.
    assert (Hn' : forall seg, seg ∈ post -> ~ resolving cm "fill" seg).
    { intros seg ?. apply Hn. by right. }
    destruct (split ":" style) as [|attr [|val [|]]] eqn:Hsp; try done.
    destruct (bool_decide (strip attr = "fill") && bool_decide (is_Some (cm !! strip val))) eqn:E1.
    + apply andb_true_iff in E1 as [Ha%bool_decide_eq_true Hv%bool_decide_eq_true].
      apply IH in H as [-> ->]; [|done|done]. split; [done|]. cbn [value].
      destruct (decide (strip val = "none")) as [Hnone|Hnone].
      { rewrite bool_decide_eq_false_2; [done|]. by intros ?. }
      exfalso. apply (Hn style); [left|]. by exists attr, val.
    + destruct (bool_decide (strip attr = "stroke") && bool_decide (is_Some (cm !! strip val)));
        by apply IH in H.
Qed.

Lemma stroke_kept (cm : gmap str str) post u f k u' f' k' :
  modify_styles cm post u f k = Ok (u', f', k') -> is_set k = true ->
  (forall seg, seg ∈ post -> ~ resolving cm "stroke" seg) ->
  is_set k' = true /\ value k' = value k.
Proof.
  revert u f k. induction post as [|style post IH]; intros u f k H Hk Hn.
  - by injection H as <- <- <-.
  - cbn [modify_styles] in H.
    assert (Hn' : forall seg, seg ∈ post -> ~ resolving cm "stroke" seg).
    { intros seg ?. apply Hn. by right. }
    destruct (split ":" style) as [|attr [|val [|]]] eqn:Hsp; try done.
    destruct (bool_decide (strip attr = "fill") && bool_decide (is_Some (cm !! strip val))) eqn:E1.
    + by apply IH in H.
    + destruct (bool_decide (strip attr = "stroke") && bool_decide (is_Some (cm !! strip val))) eqn:E2.
      * apply andb_true_iff in E2 as [Ha%bool_decide_eq_true Hv%bool_decide_eq_true].
        apply IH in H as [-> ->]; [|done|done]. split; [done|]. cbn [value].
        destruct (decide (strip val = "none")) as [Hnone|Hnone].
        { rewrite bool_decide_eq_false_2; [done|]. by intros ?. }
        exfalso. apply (Hn style); [left|]. by exists attr, val.
      * by apply IH in H.
Qed.


Lemma style_resolves_fill (cm : gmap str str) s pre seg post attr val name :
  split ";" (strip s) = pre ++ seg :: post ->
  split ":" seg = [attr; val] -> strip attr = "fill" ->
  cm !! strip val = Some name -> strip val <> "none" ->
  (forall seg', seg' ∈ post -> ~ resolving cm "fill" seg') ->
  parses (pre ++ post) ->
  exists new f k, modify_style_attribute cm s new_attribute new_attribute = Ok (new, f, k) /\
    is_set f = true /\ value f = Some (strip val).
Proof.
  intros Hs Hseg Ha Hv Hnone Hpost Hp. unfold modify_style_attribute.
  case_bool_decide as He.
  { rewrite He in Hs. destruct pre as [|? [|]]; simplify_eq/=. }
  rewrite Hs, modify_styles_app.
  apply Forall_app in Hp as [Hpre Hpo].
  destruct (modify_styles_total cm pre [] new_attribute new_attribute Hpre) as [[[u1 f1] k1] ->].
  cbn [mbind result_bind rbind fst snd modify_styles]. rewrite Hseg, Ha, Hv.
  rewrite bool_decide_eq_true_2 by done. rewrite bool_decide_eq_true_2 by eauto.
  cbn [andb]. rewrite bool_decide_eq_true_2 by done.
  destruct (modify_styles_total cm post u1 {| is_set := true; value := Some (strip val) |} k1 Hpo)
    as [[[u2 f2] k2] H2].
  rewrite H2. cbn [mbind result_bind rbind fst snd].
  apply fill_kept in H2 as [? ?]; [|done|done]. by eexists _, _, _.
Qed.

Lemma style_resolves_stroke (cm : gmap str str) s pre seg post attr val name :
  split ";" (strip s) = pre ++ seg :: post ->
  split ":" seg = [attr; val] -> strip attr = "stroke" ->
  cm !! strip val = Some name -> strip val <> "none" ->
  (forall seg', seg' ∈ post -> ~ resolving cm "stroke" seg') ->
  parses (pre ++ post) ->
  exists new f k, modify_style_attribute cm s new_attribute new_attribute = Ok (new, f, k) /\
    is_set k = true /\ value k = Some (strip val).
Proof.
  intros Hs Hseg Ha Hv Hnone Hpost Hp. unfold modify_style_attribute.
  case_bool_decide as He.
  { rewrite He in Hs. destruct pre as [|? [|]]; simplify_eq/=. }
  rewrite Hs, modify_styles_app.
  apply Forall_app in Hp as [Hpre Hpo].
  destruct (modify_styles_total cm pre [] new_attribute new_attribute Hpre) as [[[u1 f1] k1] ->].
  cbn [mbind result_bind rbind fst snd modify_styles]. rewrite Hseg, Ha, Hv.
  rewrite (bool_decide_eq_false_2 ("stroke" = "fill")) by done. cbn [andb].
  rewrite bool_decide_eq_true_2 by done. rewrite bool_decide_eq_true_2 by eauto.
  cbn [andb]. rewrite bool_decide_eq_true_2 by done.
  destruct (modify_styles_total cm post u1 f1 {| is_set := true; value := Some (strip val) |} Hpo)
    as [[[u2 f2] k2] H2].
  rewrite H2. cbn [mbind result_bind rbind fst snd].
  apply stroke_kept in H2 as [? ?]; [|done|done]. by eexists _, _, _.
Qed.


Lemma plain_set f o : is_set f = true -> plain f o = f.
Proof. intros H. unfold plain. destruct o; [|done]. by rewrite H. Qed.

Lemma delete_insert_under (m : gmap str str) (p q x y : str) :
  p <> q -> delete p (<[q := x]> (<[p := y]> m)) = delete p (<[q := x]> m).
Proof.
  intros Hpq. apply map_eq. intros k.
  destruct (decide (p = k)) as [<-|Hk].
  - by rewrite !lookup_delete_eq.
  - rewrite !lookup_delete_ne by done.
    destruct (decide (q = k)) as [<-|Hq].
    + by rewrite !lookup_insert_eq.
    + by rewrite !lookup_insert_ne.
Qed.

Lemma write_classes_nonempty (si : list str -> list str) (l : list str) (a : gmap str str) :
  l <> [] -> write_classes si l a = <["class" := strip (join " " (si l))]> a.
Proof. intros H. unfold write_classes. by destruct l. Qed.

Lemma precedence_fill (si : list str -> list str) (cm a : gmap str str)
    (s v2 : str) pre seg post attr val name :
  a !! "style" = Some s -> a !! "fill" = Some v2 ->
  split ";" (strip s) = pre ++ seg :: post ->
  split ":" seg = [attr; val] -> strip attr = "fill" ->
  cm !! strip val = Some name -> strip val <> "none" ->
  (forall seg', seg' ∈ post -> ~ resolving cm "fill" seg') ->
  parses (pre ++ post) ->
  exists a' classes, replace_color_element si cm a = Ok a' /\
    a' !! "class" = Some (strip (join " " (si classes))) /\
    "fill-" ++ name ∈ classes /\
    (exists other, classes = class_tokens a ++ ["fill-" ++ name] ++ other /\
       (other = [] \/ exists n, other = ["stroke-" ++ n])) /\
    a' !! "fill" = None /\
    forall v2', replace_color_element si cm (<["fill" := v2']> a) = Ok a'.
Proof.
  intros Hs Hf Hsp Hseg Ha Hv Hnone Hpost Hp.
  destruct (style_resolves_fill cm s pre seg post attr val name) as (new & f & k & Hm & Hset & Hval);
    try done.
  assert (Hmf : matched cm f = Some name).
  { unfold matched. by rewrite Hset, Hval. }
  set (sa := plain k (a !! "stroke")).
  set (classes := class_tokens a ++ ["fill-" ++ name] ++ stroke_part cm sa).
  assert (Hne : classes <> []) by (unfold classes; by destruct (class_tokens a)).
  assert (Hgen : forall b : gmap str str, b !! "style" = Some s -> b !! "class" = a !! "class" ->
            b !! "stroke" = a !! "stroke" ->
            replace_color_element si cm b
            = Ok (<["class" := strip (join " " (si classes))]>
                    (drop_if cm sa "stroke" (delete "fill" (<["style" := new]> b))))).
  { intros b Hbs Hbc Hbk.
    rewrite (replace_color_element_eq si cm b _ _ _ (resolve_eq cm b s new f k Hbs Hm)).
    rewrite (plain_set f) by done. rewrite Hbk. fold sa.
    unfold fill_part, drop_if at 2. rewrite Hmf.
    rewrite (class_tokens_eq (<["style" := new]> b) a) by (by rewrite lookup_insert_ne).
    fold classes. by rewrite write_classes_nonempty. }
  eexists _, classes. split; [by apply Hgen|]. split; [by rewrite lookup_insert_eq|].
  split; [unfold classes; rewrite !elem_of_app, list_elem_of_singleton; auto|].
  split.
  { exists (stroke_part cm sa). split; [done|]. unfold stroke_part.
    destruct (matched cm sa); [right; by eexists|by left]. }
  split.
  { rewrite lookup_insert_ne, lookup_drop_if_ne by done. apply lookup_delete_eq. }
  intros v2'. rewrite Hgen; [|by rewrite lookup_insert_ne..].
  by rewrite delete_insert_under.
Qed.

Lemma precedence_stroke (si : list str -> list str) (cm a : gmap str str)
    (s v2 : str) pre seg post attr val name :
  a !! "style" = Some s -> a !! "stroke" = Some v2 ->
  split ";" (strip s) = pre ++ seg :: post ->
  split ":" seg = [attr; val] -> strip attr = "stroke" ->
  cm !! strip val = Some name -> strip val <> "none" ->
  (forall seg', seg' ∈ post -> ~ resolving cm "stroke" seg') ->
  parses (pre ++ post) ->
  exists a' classes, replace_color_element si cm a = Ok a' /\
    a' !! "class" = Some (strip (join " " (si classes))) /\
    "stroke-" ++ name ∈ classes /\
    (exists other, classes = class_tokens a ++ other ++ ["stroke-" ++ name] /\
       (other = [] \/ exists n, other = ["fill-" ++ n])) /\
    a' !! "stroke" = None /\
    forall v2', replace_color_element si cm (<["stroke" := v2']> a) = Ok a'.
Proof.
  intros Hs Hf Hsp Hseg Ha Hv Hnone Hpost Hp.
  destruct (style_resolves_stroke cm s pre seg post attr val name) as (new & f & k & Hm & Hset & Hval);
    try done.
  assert (Hmk : matched cm k = Some name).
  { unfold matched. by rewrite Hset, Hval. }
  set (fa := plain f (a !! "fill")).
  set (classes := class_tokens a ++ fill_part cm fa ++ ["stroke-" ++ name]).
  assert (Hne : classes <> []).
  { unfold classes. destruct (class_tokens a); [|done]. by destruct (fill_part cm fa). }
  assert (Hgen : forall b : gmap str str, b !! "style" = Some s -> b !! "class" = a !! "class" ->
            b !! "fill" = a !! "fill" ->
            replace_color_element si cm b
            = Ok (<["class" := strip (join " " (si classes))]>
                    (delete "stroke" (drop_if cm fa "fill" (<["style" := new]> b))))).
  { intros b Hbs Hbc Hbk.
    rewrite (replace_color_element_eq si cm b _ _ _ (resolve_eq cm b s new f k Hbs Hm)).
    rewrite (plain_set k) by done. rewrite Hbk. fold fa.
    unfold stroke_part, drop_if at 1. rewrite Hmk.
    rewrite (class_tokens_eq (<["style" := new]> b) a) by (by rewrite lookup_insert_ne).
    fold classes. by rewrite write_classes_nonempty. }
  eexists _, classes. split; [by apply Hgen|]. split; [by rewrite lookup_insert_eq|].
  split; [unfold classes; rewrite !elem_of_app, list_elem_of_singleton; auto|].
  split.
  { exists (fill_part cm fa). split; [done|]. unfold fill_part.
    destruct (matched cm fa); [right; by eexists|by left]. }
  split.
  { rewrite lookup_insert_ne by done. apply lookup_delete_eq. }
  intros v2'. rewrite Hgen; [|by rewrite lookup_insert_ne..].
  f_equal. f_equal. unfold drop_if. destruct (matched cm fa).
  - apply map_eq. intros q. destruct (decide ("stroke" = q)) as [<-|Hq].
    + by rewrite !lookup_delete_eq.
    + rewrite !(lookup_delete_ne _ "stroke") by done.
      destruct (decide ("fill" = q)) as [<-|Hq'].
      * by rewrite !lookup_delete_eq.
      * rewrite !(lookup_delete_ne _ "fill") by done.
        destruct (decide ("style" = q)) as [<-|Hq''].
        -- by rewrite !lookup_insert_eq.
        -- rewrite !(lookup_insert_ne _ "style") by done. by rewrite lookup_insert_ne.
  - by rewrite delete_insert_under.
Qed.

(** ** The marker propagator *)


(** *** The tokens read back from a class attribute *)

Lemma lstrip_app_space h w :
  forallb isspace h = true -> lstrip (h ++ w) = lstrip w.
Proof. induction h as [|c h IH]; simpl; [done|]. intros [-> ?]%andb_true_iff. auto. Qed.

Lemma lstrip_app_nonspace h w :
  forallb isspace h = false -> lstrip (h ++ w) = lstrip h ++ w.
Proof.
  induction h as [|c h IH]; simpl; [done|].
  destruct (isspace c); simpl; [apply IH|done].
Qed.

Lemma lstrip_all_space h : forallb isspace h = true -> lstrip h = [].
Proof. induction h as [|c h IH]; simpl; [done|]. intros [-> ?]%andb_true_iff. auto. Qed.

Lemma rstrip_snoc_space y c : isspace c = true -> rstrip (y ++ [c]) = rstrip y.
Proof. intros H. unfold rstrip. rewrite rev_app_distr. simpl. by rewrite H. Qed.

Lemma strip_cons_space c h : isspace c = true -> strip (c :: h) = strip h.
Proof. intros H. unfold strip. simpl. by rewrite H. Qed.

Lemma strip_snoc_space h c : isspace c = true -> strip (h ++ [c]) = strip h.
Proof.
  intros H. unfold strip. destruct (forallb isspace h) eqn:E.
  - rewrite lstrip_app_space by done. simpl. rewrite H.
    by rewrite lstrip_all_space.
  - rewrite lstrip_app_nonspace by done. by apply rstrip_snoc_space.
Qed.

Lemma strip_nil : strip [] = [].
Proof. reflexivity. Qed.

Lemma words_cons_space c s : isspace c = true -> words (c :: s) = words s.
Proof.
  intros H. unfold words. simpl. destruct (eqc c " ") eqn:E.
  - simpl. rewrite strip_nil. by rewrite filter_cons_False by (by intros ?).
  - pose proof (split_nonempty " " s). destruct (split " " s) as [|h t]; [done|].
    simpl. by rewrite strip_cons_space.
Qed.

Lemma words_lstrip s : words (lstrip s) = words s.
Proof.
  induction s as [|c s IH]; [done|]. simpl. destruct (isspace c) eqn:E; [|done].
  by rewrite words_cons_space.
Qed.

Lemma split_snoc_sep sep s : split sep (s ++ [sep]) = split sep s ++ [[]].
Proof.
  induction s as [|c s IH]; simpl.
  - by rewrite eqc_refl.
  - rewrite IH. destruct (eqc c sep); [done|].
    pose proof (split_nonempty sep s). by destruct (split sep s).
Qed.

Lemma removelast_last {A} (l : list A) d : l <> [] -> l = removelast l ++ [List.last l d].
Proof.
  induction l as [|a [|b l] IH]; [done|done|]. intros _.
  change (a :: b :: l = a :: (removelast (b :: l) ++ [List.last (b :: l) d])).
  f_equal. by apply IH.
Qed.

Lemma words_snoc_space s c : isspace c = true -> words (s ++ [c]) = words s.
Proof.
  intros H. unfold words. destruct (decide (c = " "%char)) as [->|Hc].
  - rewrite split_snoc_sep, fmap_app, filter_app. simpl. rewrite strip_nil.
    rewrite filter_cons_False by (by intros ?). by rewrite filter_nil, app_nil_r.
  - rewrite split_app_r.
    2:{ apply not_elem_of_cons. split; [done|apply not_elem_of_nil]. }
    rewrite (removelast_last (split " " s) []) at 3 by apply split_nonempty.
    rewrite !fmap_app. simpl. by rewrite strip_snoc_space.
Qed.

Lemma words_app_space s w : forallb isspace w = true -> words (s ++ w) = words s.
Proof.
  revert s. induction w as [|c w IH]; intros s Hw; [by rewrite app_nil_r|].
  simpl in Hw. apply andb_true_iff in Hw as [Hc Hw].
  change (s ++ c :: w) with (s ++ [c] ++ w). rewrite app_assoc, IH by done.
  by apply words_snoc_space.
Qed.

Lemma words_strip s : words (strip s) = words s.
Proof.
  unfold strip. destruct (rstrip_decomp (lstrip s)) as (w & Hw & Hs).
  rewrite <- (words_lstrip s). rewrite Hw at 2. by rewrite words_app_space.
Qed.

Lemma split_join (L : list str) :
  L <> [] -> Forall (fun t => " "%char ∉ t) L -> split " " (join " " L) = L.
Proof.
  intros Hne HL. induction HL as [|x L Hx HL IH]; [done|].
  destruct L as [|y L].
  - simpl. by apply split_notin.
  - change (join " " (x :: y :: L)) with (x ++ " " ++ join " " (y :: L)).
    rewrite split_app_l by done.
    change (" " ++ join " " (y :: L)) with (" "%char :: join " " (y :: L)).
    cbn [split]. rewrite eqc_refl. cbn [hd tl]. rewrite IH by done. by rewrite app_nil_r.
Qed.

Lemma elem_of_words t s : t ∈ words s <-> t <> [] /\ t ∈ strip <$> split " " s.
Proof. unfold words. rewrite list_elem_of_filter. tauto. Qed.

(** The tokens read back from a class attribute that was written from [L]. *)
Lemma tokens_written (L : list str) t :
  L <> [] -> Forall (fun t => " "%char ∉ t) L -> t <> [] ->
  t ∈ strip <$> split " " (strip (join " " L)) <-> t ∈ strip <$> L.
Proof.
  intros Hne HL Ht.
  assert (t ∈ words (strip (join " " L)) <-> t ∈ words (join " " L)) as H
    by (by rewrite words_strip).
  rewrite !elem_of_words in H. rewrite split_join in H by done. tauto.
Qed.

Lemma lstrip_length s : length (lstrip s) <= length s.
Proof. induction s as [|c s IH]; simpl; [done|]. destruct (isspace c); simpl; lia. Qed.

Lemma lstrip_lstrip s : lstrip (lstrip s) = lstrip s.
Proof. induction s as [|c s IH]; simpl; [done|]. destruct (isspace c) eqn:E; [done|]. simpl. by rewrite E. Qed.

Lemma rstrip_rstrip s : rstrip (rstrip s) = rstrip s.
Proof. unfold rstrip. by rewrite rev_involutive, lstrip_lstrip. Qed.

Lemma lstrip_rstrip y : lstrip y = y -> lstrip (rstrip y) = rstrip y.
Proof.
  intros Hy. destruct (rstrip_decomp y) as (w & Hw & _).
  destruct (rstrip y) as [|c r]; [done|].
  simpl. destruct (isspace c) eqn:E; [|done].
  exfalso. rewrite Hw in Hy. simpl in Hy. rewrite E in Hy.
  pose proof (lstrip_length (r ++ w)) as Hl. rewrite Hy in Hl. simpl in Hl. lia.
Qed.

Lemma strip_strip s : strip (strip s) = strip s.
Proof.
  unfold strip. rewrite (lstrip_rstrip (lstrip s)) by apply lstrip_lstrip.
  apply rstrip_rstrip.
Qed.

Lemma strip_chars s c : c ∈ strip s -> c ∈ s.
Proof.
  intros H. destruct (strip_decomp s) as (w1 & w2 & Hs & _). rewrite Hs.
  rewrite !elem_of_app. auto.
Qed.



Lemma class_tokens_spaceless (m : gmap str str) : spaceless (class_tokens m).
Proof.
  unfold class_tokens, spaceless. destruct (m !! "class") as [c|]; [|done].
  apply Forall_forall. intros t (x & -> & Hx)%list_elem_of_fmap.
  intros H%strip_chars. by apply (split_no_sep " " c x).
Qed.

Lemma class_tokens_stripped (m : gmap str str) t : t ∈ class_tokens m -> strip t = t.
Proof.
  unfold class_tokens. destruct (m !! "class") as [c|]; [|by intros ?%elem_of_nil].
  intros (x & -> & Hx)%list_elem_of_fmap. apply strip_strip.
Qed.

Lemma color_classes_spaceless c : spaceless (color_classes c).
Proof.
  unfold color_classes, spaceless. apply Forall_forall.
  intros t [_ Ht]%list_elem_of_filter. by apply (split_no_sep " " c t).
Qed.

Lemma forced_fill_spaceless ff l forced :
  spaceless l -> forced_fill ff l = Ok forced -> spaceless forced.
Proof.
  unfold forced_fill, spaceless. intros Hl.
  destruct (ff && (0 <? length l)); [|by intros [= <-]].
  destruct l as [|t0 l]; simpl.
  { by intros [=]. }
  destruct (split "-" t0) as [|x [|color more]] eqn:E; [done|done|].
  intros [= <-]. apply Forall_cons. split; [|done].
  apply Forall_cons in Hl as [Ht0 _].
  intros H. do 5 (apply elem_of_cons in H as [H|H]; [discriminate|]).
  apply Ht0. apply (split_chars "-" t0 color); [|done]. rewrite E. right. left.
Qed.

Lemma set_order_nonempty (si : list str -> list str) l : set_order si -> l <> [] -> si l <> [].
Proof.
  intros Hsi Hl E. destruct l as [|x l]; [done|].
  destruct (Hsi (x :: l)) as [_ H]. specialize (H x). rewrite E in H.
  apply (not_elem_of_nil x), H. left.
Qed.

Lemma set_order_spaceless (si : list str -> list str) l : set_order si -> spaceless l -> spaceless (si l).
Proof.
  intros Hsi Hl. unfold spaceless in *. rewrite Forall_forall in *. intros t Ht.
  apply Hl. by apply (Hsi l).
Qed.

Lemma class_tokens_written (si : list str -> list str) (cl : list str) (m : gmap str str) t :
  set_order si -> spaceless cl -> cl <> [] -> t <> [] ->
  t ∈ class_tokens (write_classes si cl m) <-> t ∈ strip <$> cl.
Proof.
  intros Hsi Hcl Hne Ht. unfold write_classes, class_tokens.
  destruct cl as [|x cl]; [done|]. cbn [length Nat.ltb Nat.leb].
  rewrite lookup_insert_eq.
  rewrite tokens_written; [|by apply set_order_nonempty|by apply set_order_spaceless|done].
  rewrite !list_elem_of_fmap. split; intros (y & -> & Hy); exists y; (split; [done|]); by apply (Hsi (x :: cl)).
Qed.

Lemma class_tokens_kept (si : list str -> list str) (m : gmap str str) (extra : list str) t :
  set_order si -> spaceless extra -> t <> [] ->
  t ∈ class_tokens m -> t ∈ class_tokens (write_classes si (class_tokens m ++ extra) m).
Proof.
  intros Hsi He Ht Hin.
  apply class_tokens_written; [done| | |done|].
  - apply Forall_app. split; [apply class_tokens_spaceless|done].
  - intros [E _]%app_eq_nil. rewrite E in Hin. by apply elem_of_nil in Hin.
  - apply list_elem_of_fmap. exists t. split; [by rewrite (class_tokens_stripped m)|].
    apply elem_of_app. by left.
Qed.

(** *** One step of the propagator *)

Lemma propagate_eq (si : list str -> list str) (fp : finder) (doc : list (gmap str str)) (m : gmap str str)
    ff i seg c id rest j forced :
  element_get doc i "class" = Some c ->
  Re.rmatch marker_pattern (strip seg) = Some (id, rest) ->
  find_element_with_id fp doc id = Ok (Some j) -> doc !! j = Some m ->
  forced_fill ff (color_classes c) = Ok forced ->
  propagate si fp ff i seg doc
  = Ok (<[j := write_classes si (class_tokens m ++ color_classes c ++ forced) m]> doc).
Proof.
  intros Hc Hm Hf Hj Hff. unfold propagate. rewrite Hm, Hc, Hf.
  cbn [mbind result_bind rbind option_bind]. rewrite Hj. cbn [fmap option_fmap option_map].
  by rewrite Hff.
Qed.

Lemma propagate_inv (si : list str -> list str) (fp : finder) (doc doc' : list (gmap str str)) ff i seg :
  propagate si fp ff i seg doc = Ok doc' ->
  doc' = doc \/
  exists c j m forced, element_get doc i "class" = Some c /\ doc !! j = Some m /\
    forced_fill ff (color_classes c) = Ok forced /\
    doc' = <[j := write_classes si (class_tokens m ++ color_classes c ++ forced) m]> doc.
Proof.
  unfold propagate.
  destruct (Re.rmatch marker_pattern (strip seg)) as [[id rest]|]; [|intros [= <-]; by left].
  destruct (element_get doc i "class") as [c|]; [|intros [= <-]; by left].
  destruct (find_element_with_id fp doc id) as [[j|]|e]; cbn [mbind result_bind rbind option_bind]; [|done|done].
  destruct (doc !! j) as [m|] eqn:Hj; cbn [fmap option_fmap option_map]; [|done].
  destruct (forced_fill ff (color_classes c)) as [forced|e] eqn:Hff; cbn [rbind]; [|done].
  intros [= <-]. right. by exists c, j, m, forced.
Qed.

Lemma tokens_at_insert_ne (doc : list (gmap str str)) (m : gmap str str) j k :
  j <> k -> tokens_at (<[j := m]> doc) k = tokens_at doc k.
Proof. intros H. unfold tokens_at. by rewrite list_lookup_insert_ne. Qed.

Lemma tokens_at_insert_eq (doc : list (gmap str str)) (m m' : gmap str str) j :
  doc !! j = Some m -> tokens_at (<[j := m']> doc) j = class_tokens m'.
Proof.
  intros H. unfold tokens_at. rewrite list_lookup_insert_eq; [done|]. by eapply lookup_lt_Some.
Qed.

(** No step removes a token. *)
Lemma propagate_keeps (si : list str -> list str) (fp : finder) (doc doc' : list (gmap str str)) ff i seg k t :
  set_order si -> propagate si fp ff i seg doc = Ok doc' ->
  t <> [] -> t ∈ tokens_at doc k -> t ∈ tokens_at doc' k.
Proof.
  intros Hsi [->|(c & j & m & forced & Hc & Hj & Hff & ->)]%propagate_inv Ht Hin; [done|].
  destruct (decide (j = k)) as [<-|Hjk]; [|by rewrite tokens_at_insert_ne].
  rewrite (tokens_at_insert_eq doc m) by done.
  unfold tokens_at in Hin. rewrite Hj in Hin.
  apply class_tokens_kept; try done.
  apply Forall_app. split; [apply color_classes_spaceless|].
  eapply forced_fill_spaceless; [|done]. apply color_classes_spaceless.
Qed.

Lemma propagate_all_keeps (si : list str -> list str) (fp : finder) (doc doc' : list (gmap str str)) ff i styles k t :
  set_order si -> propagate_all si fp ff i styles doc = Ok doc' ->
  t <> [] -> t ∈ tokens_at doc k -> t ∈ tokens_at doc' k.
Proof.
  intros Hsi. revert doc. induction styles as [|seg styles IH]; intros doc H Ht Hin.
  - by injection H as <-.
  - cbn [propagate_all] in H.
    destruct (propagate si fp ff i seg doc) as [doc1|e] eqn:E; [|done].
    cbn [mbind result_bind rbind] in H. eapply IH; [done|done|]. by eapply propagate_keeps.
Qed.

Lemma markers_of_element_keeps (si : list str -> list str) (fp : finder) (doc doc' : list (gmap str str)) ff i k t :
  set_order si -> markers_of_element si fp ff i doc = Ok doc' ->
  t <> [] -> t ∈ tokens_at doc k -> t ∈ tokens_at doc' k.
Proof.
  intros Hsi. unfold markers_of_element. destruct (element_get doc i "style").
  - by apply propagate_all_keeps.
  - by intros [= <-].
Qed.

Lemma markers_from_keeps (si : list str -> list str) (fp : finder) (doc doc' : list (gmap str str)) ff n i k t :
  set_order si -> markers_from si fp ff n i doc = Ok doc' ->
  t <> [] -> t ∈ tokens_at doc k -> t ∈ tokens_at doc' k.
Proof.
  intros Hsi. revert i doc. induction n as [|n IH]; intros i doc H Ht Hin.
  - by injection H as <-.
  - cbn [markers_from] in H.
    destruct (markers_of_element si fp ff i doc) as [doc1|e] eqn:E; [|done].
    cbn [mbind result_bind rbind] in H. eapply IH; [done|done|]. by eapply markers_of_element_keeps.
Qed.


(** *** What a step leaves as it is *)

Lemma frame_refl (doc : list (gmap str str)) : frame doc doc.
Proof. by split. Qed.

Lemma frame_trans (d1 d2 d3 : list (gmap str str)) : frame d1 d2 -> frame d2 d3 -> frame d1 d3.
Proof.
  intros [H1 H1'] [H2 H2']. split.
  - intros k key Hk. by rewrite H2, H1.
  - intros k Hk. by apply H2', H1'.
Qed.

Lemma frame_write (si : list str -> list str) (doc : list (gmap str str)) (m : gmap str str) j cl :
  doc !! j = Some m -> frame doc (<[j := write_classes si cl m]> doc).
Proof.
  intros Hj. pose proof (lookup_lt_Some _ _ _ Hj) as Hlt. split.
  - intros k key Hk. unfold element_get. destruct (decide (j = k)) as [<-|Hjk].
    + rewrite list_lookup_insert_eq, Hj by done. simpl.
      unfold write_classes. case_match; [|done]. by rewrite lookup_insert_ne.
    + by rewrite list_lookup_insert_ne.
  - intros k. unfold element_get. destruct (decide (j = k)) as [<-|Hjk].
    + rewrite list_lookup_insert_eq, Hj by done. simpl.
      unfold write_classes. case_match; [|done]. by rewrite lookup_insert_eq.
    + by rewrite list_lookup_insert_ne.
Qed.

Lemma propagate_frame (si : list str -> list str) (fp : finder) (doc doc' : list (gmap str str)) ff i seg :
  propagate si fp ff i seg doc = Ok doc' -> frame doc doc'.
Proof.
  intros [->|(c & j & m & forced & Hc & Hj & Hff & ->)]%propagate_inv.
  - apply frame_refl.
  - by apply frame_write.
Qed.

Lemma propagate_all_frame (si : list str -> list str) (fp : finder) (doc doc' : list (gmap str str)) ff i styles :
  propagate_all si fp ff i styles doc = Ok doc' -> frame doc doc'.
Proof.
  revert doc. induction styles as [|seg styles IH]; intros doc H.
  - injection H as <-. apply frame_refl.
  - cbn [propagate_all] in H.
    destruct (propagate si fp ff i seg doc) as [doc1|e] eqn:E; [|done].
    cbn [mbind result_bind rbind] in H.
    eapply frame_trans; [by eapply propagate_frame|by apply IH].
Qed.

Lemma markers_of_element_frame (si : list str -> list str) (fp : finder) (doc doc' : list (gmap str str)) ff i :
  markers_of_element si fp ff i doc = Ok doc' -> frame doc doc'.
Proof.
  unfold markers_of_element. destruct (element_get doc i "style").
  - apply propagate_all_frame.
  - intros [= <-]. apply frame_refl.
Qed.


Lemma dangling_frame (doc doc' : list (gmap str str)) i seg :
  frame doc doc' -> dangling doc i seg -> dangling doc' i seg.
Proof.
  intros [H1 H2] (id & rest & Hm & Hq & Hc & Hid). exists id, rest.
  split; [done|]. split; [done|]. split; [by apply H2|].
  intros k Hk. rewrite H1 by done. by apply Hid.
Qed.

(** An id without a single quote: the first element below the root that
    carries it. *)
Lemma find_plain (fp : finder) (doc : list (gmap str str)) id :
  "'"%char ∉ id ->
  find_element_with_id fp doc id
  = Ok (S <$> (fst <$> list_find (fun a => a !! "id" = Some id) (tail doc))).
Proof. intros Hq. unfold find_element_with_id. by rewrite split_notin. Qed.

Lemma find_missing (fp : finder) (doc : list (gmap str str)) id :
  (forall k, 1 <= k -> element_get doc k "id" <> Some id) ->
  "'"%char ∉ id -> find_element_with_id fp doc id = Ok None.
Proof.
  intros Hid Hq. rewrite find_plain by done.
  destruct (list_find _ (tail doc)) as [[k a]|] eqn:E; [|done].
  apply list_find_Some in E as (Hk & Ha & _). exfalso.
  apply (Hid (S k)); [lia|]. unfold element_get.
  destruct doc as [|r doc]; [done|]. simpl in *. by rewrite Hk.
Qed.

Lemma propagate_dangling (si : list str -> list str) (fp : finder)
    (doc : list (gmap str str)) ff i seg :
  dangling doc i seg -> propagate si fp ff i seg doc = Raise AttributeError.
Proof.
  intros (id & rest & Hm & Hq & [c Hc] & Hid). unfold propagate. rewrite Hm, Hc.
  by rewrite find_missing.
Qed.

Lemma propagate_all_dangling (si : list str -> list str) (fp : finder)
    (doc : list (gmap str str)) ff i styles seg :
  seg ∈ styles -> dangling doc i seg -> exists e, propagate_all si fp ff i styles doc = Raise e.
Proof.
  revert doc. induction styles as [|s styles IH]; intros doc Hin Hd.
  - by apply elem_of_nil in Hin.
  - cbn [propagate_all]. destruct (propagate si fp ff i s doc) as [doc1|e] eqn:E; [|by eexists].
    cbn [mbind result_bind rbind]. apply elem_of_cons in Hin as [->|Hin].
    + rewrite (propagate_dangling si fp doc ff i s Hd) in E. done.
    + apply IH; [done|]. eapply dangling_frame; [|done]. by eapply propagate_frame.
Qed.

Lemma markers_from_dangling (si : list str -> list str) (fp : finder)
    (doc : list (gmap str str)) ff n i0 i s seg :
  i0 <= i < i0 + n -> element_get doc i "style" = Some s -> seg ∈ split ";" s ->
  dangling doc i seg -> exists e, markers_from si fp ff n i0 doc = Raise e.
Proof.
  revert i0 doc. induction n as [|n IH]; intros i0 doc Hi Hs Hin Hd; [lia|].
  cbn [markers_from]. destruct (decide (i0 = i)) as [->|Hne].
  - unfold markers_of_element. rewrite Hs.
    destruct (propagate_all_dangling si fp doc ff i _ seg Hin Hd) as [e ->]. by eexists.
  - destruct (markers_of_element si fp ff i0 doc) as [doc1|e] eqn:E; [|by eexists].
    cbn [mbind result_bind rbind]. apply markers_of_element_frame in E.
    apply (IH _ doc1); [lia| |done|by eapply dangling_frame].
    destruct E as [E _]. by rewrite E.
Qed.

(** *** Elements without a class attribute *)
Lemma propagate_no_class (si : list str -> list str) (fp : finder) (doc : list (gmap str str)) ff i seg :
  element_get doc i "class" = None -> propagate si fp ff i seg doc = Ok doc.
Proof. intros H. unfold propagate. rewrite H. by destruct (Re.rmatch _ _) as [[]|]. Qed.

Lemma propagate_no_match (si : list str -> list str) (fp : finder) (doc : list (gmap str str)) ff i seg :
  Re.rmatch marker_pattern (strip seg) = None -> propagate si fp ff i seg doc = Ok doc.
Proof. intros H. unfold propagate. by rewrite H. Qed.

Lemma propagate_all_skips (si : list str -> list str) (fp : finder) (doc : list (gmap str str)) ff i styles :
  (forall seg, seg ∈ styles -> is_Some (Re.rmatch marker_pattern (strip seg)) ->
               element_get doc i "class" = None) ->
  propagate_all si fp ff i styles doc = Ok doc.
Proof.
  induction styles as [|seg styles IH]; intros H; [done|].
  cbn [propagate_all].
  assert (propagate si fp ff i seg doc = Ok doc) as ->.
  { destruct (Re.rmatch marker_pattern (strip seg)) eqn:E.
    - apply propagate_no_class. apply (H seg); [left|]. by rewrite E.
    - by apply propagate_no_match. }
  cbn [mbind result_bind rbind]. apply IH. intros s Hs. apply H. by right.
Qed.

Lemma markers_of_element_skips (si : list str -> list str) (fp : finder) (doc : list (gmap str str)) ff i :
  (forall s seg, element_get doc i "style" = Some s -> seg ∈ split ";" s ->
     is_Some (Re.rmatch marker_pattern (strip seg)) -> element_get doc i "class" = None) ->
  markers_of_element si fp ff i doc = Ok doc.
Proof.
  intros H. unfold markers_of_element. destruct (element_get doc i "style") as [s|] eqn:E; [|done].
  apply propagate_all_skips. intros seg. by apply H.
Qed.


(** ** The iteration order of sets *)

Lemma insertion_order_set_order : set_order insertion_order.
Proof.
  intros l. unfold insertion_order. split; [apply NoDup_remove_dups|].
  intros x. apply elem_of_remove_dups.
Qed.

(** * The claims *)

(** ** C1: the colour mapping and the values of the themes *)

Lemma update_mapping_keeps (m : gmap str str) (colors : list (str * str)) (x : str) :
  is_Some (m !! x) -> is_Some (update_mapping m colors !! x).
Proof.
  unfold update_mapping. revert m. induction colors as [|[k v] colors IH]; intros m H; [done|].
  simpl. apply IH. rewrite lookup_insert_is_Some. destruct (decide ("#" ++ v = x)); auto.
Qed.

Lemma update_mapping_key (m : gmap str str) (colors : list (str * str)) (k v : str) :
  (k, v) ∈ colors -> is_Some (update_mapping m colors !! ("#" ++ v)).
Proof.
  revert m. induction colors as [|[k' v'] colors IH]; intros m Hin; [by apply elem_of_nil in Hin|].
  apply elem_of_cons in Hin as [[= <- <-]|Hin].
  - apply (update_mapping_keeps _ colors). simpl. rewrite lookup_insert_eq. eauto.
  - by apply IH.
Qed.

Lemma update_all_keeps (themes : config) (m : gmap str str) (x : str) :
  is_Some (m !! x) -> is_Some (foldl (fun m t => update_mapping m t.2) m themes !! x).
Proof.
  revert m. induction themes as [|[t its] themes IH]; intros m H; [done|].
  simpl. apply IH. by apply update_mapping_keeps.
Qed.

Lemma update_all_key (themes : config) (m : gmap str str) (theme k v : str)
    (items : list (str * str)) :
  (theme, items) ∈ themes -> (k, v) ∈ items ->
  is_Some (foldl (fun m t => update_mapping m t.2) m themes !! ("#" ++ v)).
Proof.
  revert m. induction themes as [|[t its] themes IH]; intros m Ht Hk; [by apply elem_of_nil in Ht|].
  apply elem_of_cons in Ht as [[= <- <-]|Ht]; simpl.
  - apply update_all_keeps. by apply (update_mapping_key m items k).
  - by apply IH.
Qed.

(** Whatever the two files hold, the key that [load_color_mapping] derives
    from a colour of a theme is the value of the theme table with one more
    number sign in front. *)
Lemma load_color_mapping_keys (mapping themes : config) (cm : gmap str str)
    (theme key val : str) (items : list (str * str)) :
  load_color_mapping mapping themes = Ok cm ->
  (theme, items) ∈ themes -> (key, val) ∈ items ->
  (key, "#" ++ val) ∈ prefixed items /\ is_Some (cm !! ("#" ++ "#" ++ val)).
Proof.
  unfold load_color_mapping. destruct (section mapping "color.mapping") as [base|]; [|done].
  intros [= <-] Ht Hk.
  assert (Hin : (key, "#" ++ val) ∈ prefixed items).
  { unfold prefixed. apply list_elem_of_fmap. by exists (key, val). }
  split; [done|].
  apply (update_all_key _ _ theme key ("#" ++ val) (prefixed items)); [|done].
  unfold load_all_theme_colors. apply list_elem_of_fmap. by exists (theme, items).
Qed.

(** C1. With the theme [dark] giving [red] the digits [ff0000], the
    style-block manager writes the value [#ff0000] into its rules, and the
    table of [load_color_mapping] has no key [#ff0000]: the key derived from
    the theme carries the number sign twice. *)
Theorem theme_value_not_in_mapping :
  load_theme_colors themes_example "dark" = Ok [("red", "#ff0000")] /\
  update_style_content "" [("red", "#ff0000")] = Some (new_rules "red" "#ff0000") /\
  exists cm, load_color_mapping mapping_example themes_example = Ok cm /\
             cm !! "#ff0000" = None /\ cm !! "##ff0000" = Some "red".
Proof.
  split; [reflexivity|]. split; [by vm_compute|].
  eexists. split; [reflexivity|]. split; by vm_compute.
Qed.

(** ** C2: rules that are already in the style text *)

(** Whatever the text and the theme, as long as there is no U+0001 in the
    text: what the manager returns starts with the text it was given. *)
Lemma update_style_content_keeps_text (S : str) (T : list (str * str)) :
  theme_ok T -> SOH ∉ S -> exists X, update_style_content S T = Some (S ++ X).
Proof.
  intros HT HS. destruct (update_style_content_plain S T HT HS) as (upd & H & _).
  exists (add_rules T upd []). by rewrite H, add_rules_app.
Qed.

(** C2. The rule [.fill-red {fill:#000000;}] is recognised, its name is in
    the theme table with the value [#ff0000], and the text that comes out is
    the text that went in: the value is not rewritten, and no rule is added. *)
Theorem existing_rule_not_rewritten :
  Re.finditer css_pattern ".fill-red {fill:#000000;}" = [("fill", "red", "000000")] /\
  dict_get [("red", "#ff0000")] "red" = Some "#ff0000" /\
  update_style_content ".fill-red {fill:#000000;}" [("red", "#ff0000")]
  = Some ".fill-red {fill:#000000;}".
Proof. repeat split; by vm_compute. Qed.

(** ** C3: running the style-block manager twice *)

(** Counterexample to C3 as it is stated. A theme whose colour name has an
    underscore: the rules written for it do not match [css_pattern], and the
    second run writes them again. *)
Lemma style_idempotence_counterexample : ~ style_idempotence_claim.
Proof.
  intros H.
  pose (tree := Element "svg" ∅ None []).
  pose (T := [("dark_red", "#ff0000")] : list (str * str)).
  destruct (update_svg_style tree T) as [t1|] eqn:E1; [|by vm_compute in E1].
  destruct (update_svg_style t1 T) as [t2|] eqn:E2.
  - specialize (H tree t1 t2 T E1 E2).
    vm_compute in E1. injection E1 as <-. vm_compute in E2. injection E2 as <-.
    by vm_compute in H.
  - vm_compute in E1. injection E1 as <-. by vm_compute in E2.
Qed.

(** C3, amended. For a theme table whose names are letters and digits and
    whose values are three or six hex digits after the number sign, and a
    style text without the character U+0001, the first run gives a tree
    with a style text, and the second run gives that same tree. *)
Theorem update_svg_style_idempotent (tree : element) (T : list (str * str)) :
  theme_ok T -> (forall x, style_text tree = Some x -> SOH ∉ x) ->
  exists t1 s1, update_svg_style tree T = Some t1 /\ style_text t1 = Some s1 /\
                update_svg_style t1 T = Some t1.
Proof.
  intros HT Hx. destruct (update_svg_style_twice tree T HT Hx) as (t1 & H1 & H2).
  exists t1. destruct (style_text t1) as [s1|] eqn:Hs; [by exists s1|]. exfalso.
  destruct t1 as [t a x c]. unfold update_svg_style in H2.
  unfold get_style_element, style_text in *. cbn [children tag] in *.
  destruct (list_find _ c) as [[i e]|] eqn:Hf.
  - cbn [children tag attrib text mbind option_bind] in *.
    apply list_find_Some in Hf as (Hi & He & _). rewrite Hi in H2.
    destruct (update_style_content _ T) as [s2|]; [|done].
    cbn [mbind option_bind] in H2. injection H2 as H2.
    assert (c !! i = Some (set_text s2 e)) as Hi'.
    { rewrite <- H2 at 1. apply list_lookup_insert_eq. by eapply lookup_lt_Some. }
    rewrite Hi in Hi'. injection Hi' as He'. rewrite He', text_set_text in Hs. done.
  - cbn [children tag attrib text lookup list_lookup mbind option_bind] in H2.
    destruct (update_style_content _ T); [|done].
    cbn [mbind option_bind insert list_insert] in H2. injection H2 as H2.
    assert (length c = S (length c)) by (rewrite <- H2 at 1; done). lia.
Qed.

Lemma update_svg_style_idempotent_witness :
  exists t1 s1,
    update_svg_style (Element "svg" ∅ None []) [("red", "#ff0000")] = Some t1 /\
    style_text t1 = Some s1 /\ update_svg_style t1 [("red", "#ff0000")] = Some t1.
Proof.
  apply (update_svg_style_idempotent (Element "svg" ∅ None []) [("red", "#ff0000")]).
  - apply Forall_cons. split; [|by apply Forall_nil].
    split; [split; [discriminate|reflexivity]|].
    exists "ff0000". split; [reflexivity|]. split; [reflexivity|]. right. reflexivity.
  - intros x Hx. vm_compute in Hx. discriminate.
Defined.

(** ** C4: the style attribute comes before the plain attribute *)

(** With [none] a key of the mapping, [style="fill:none"] gives no class at
    all, and the plain attribute stays. *)
Example style_none_yields_no_class :
  replace_color_element insertion_order colors_example (styled "fill:none")
  = Ok (<["style" := ""]> (<["fill" := "#0000ff"]> ∅)).
Proof. by vm_compute. Qed.

(** Counterexample to C4 as it is stated. A style with two [fill]
    declarations, both colours of the mapping: the class comes from the
    second one, whatever the order of the set. *)
Lemma style_precedence_counterexample :
  ~ exists si, set_order si /\ style_precedence_claim si.
Proof.
  intros (si & Hsi & H).
  destruct (H colors_example (styled "fill:#ff0000;fill:#00ff00")
              "fill:#ff0000;fill:#00ff00" "#0000ff" "fill:#ff0000" "fill" "#ff0000" "red")
    as (a' & Ha' & Hin); try by vm_compute.
  { apply list_elem_of_In. vm_compute. auto. }
  assert (modify_style_attribute colors_example "fill:#ff0000;fill:#00ff00"
            new_attribute new_attribute
          = Ok ("", {| is_set := true; value := Some "#00ff00" |}, new_attribute)) as Hm
    by (by vm_compute).
  rewrite (replace_color_element_eq si _ _ _ _ _
             (resolve_eq colors_example (styled "fill:#ff0000;fill:#00ff00") _ _ _ _
                eq_refl Hm)) in Ha'.
  injection Ha' as <-.
  replace (class_tokens (<["style" := ""]> (styled "fill:#ff0000;fill:#00ff00"))
           ++ fill_part colors_example
                (plain {| is_set := true; value := Some "#00ff00" |}
                   (styled "fill:#ff0000;fill:#00ff00" !! "fill"))
           ++ stroke_part colors_example
                (plain new_attribute (styled "fill:#ff0000;fill:#00ff00" !! "stroke")))
    with ["fill-green"] in Hin by (by vm_compute).
  assert (Hsp : spaceless ["fill-green"]).
  { apply Forall_cons. split; [solve_notin|by apply Forall_nil]. }
  apply (class_tokens_written si ["fill-green"] _ _ Hsi Hsp) in Hin; [|done|done].
  revert Hin. rewrite list_elem_of_In. vm_compute. intuition discriminate.
Qed.

(** C4, amended. [p] is [fill] or [stroke]. The style parses, [seg] is its
    last declaration of [p] whose value is a colour of the mapping other
    than [none], and the element has a plain attribute [p]. Then the set
    that is written holds the classes the element had, the class of the
    style value and at most one further class, which is a class of the other
    property; the plain attribute is removed, and its value has no influence
    on the result. *)
Theorem style_takes_precedence (si : list str -> list str) (cm a : gmap str str)
    (p s v2 seg attr val name : str) (pre post : list str) :
  p = "fill" \/ p = "stroke" ->
  a !! "style" = Some s -> a !! p = Some v2 ->
  split ";" (strip s) = pre ++ seg :: post ->
  split ":" seg = [attr; val] -> strip attr = p ->
  cm !! strip val = Some name -> strip val <> "none" ->
  (forall seg', seg' ∈ post -> ~ resolving cm p seg') ->
  parses (pre ++ post) ->
  exists a' classes other, replace_color_element si cm a = Ok a' /\
    a' !! "class" = Some (strip (join " " (si classes))) /\
    (p = "fill" /\ classes = class_tokens a ++ ["fill-" ++ name] ++ other /\
       (other = [] \/ exists n, other = ["stroke-" ++ n])
     \/ p = "stroke" /\ classes = class_tokens a ++ other ++ ["stroke-" ++ name] /\
       (other = [] \/ exists n, other = ["fill-" ++ n])) /\
    p ++ "-" ++ name ∈ classes /\
    (forall t, t ∈ classes ->
       t ∈ class_tokens a \/ t = p ++ "-" ++ name \/
       (p = "fill" /\ exists n, t = "stroke-" ++ n) \/
       (p = "stroke" /\ exists n, t = "fill-" ++ n)) /\
    a' !! p = None /\
    forall v2', replace_color_element si cm (<[p := v2']> a) = Ok a'.
Proof.
  intros [-> | ->] Hs Hp Hsp Hseg Ha Hv Hnone Hpost Hpar.
  - destruct (precedence_fill si cm a s v2 pre seg post attr val name)
      as (a' & classes & H1 & H2 & H3 & (other & H4 & H4') & H5 & H6); try done.
    exists a', classes, other. split; [done|]. split; [done|].
    split; [by left|]. split; [done|]. split; [|by split].
    intros t Ht. rewrite H4, !elem_of_app, list_elem_of_singleton in Ht.
    destruct Ht as [?|[?|Ht]]; [by left|by right; left|].
    destruct H4' as [->|[n ->]]; [by apply elem_of_nil in Ht|].
    apply list_elem_of_singleton in Ht. right. right. left. split; [done|]. by exists n.
  - destruct (precedence_stroke si cm a s v2 pre seg post attr val name)
      as (a' & classes & H1 & H2 & H3 & (other & H4 & H4') & H5 & H6); try done.
    exists a', classes, other. split; [done|]. split; [done|].
    split; [by right|]. split; [done|]. split; [|by split].
    intros t Ht. rewrite H4, !elem_of_app, list_elem_of_singleton in Ht.
    destruct Ht as [?|[Ht|?]]; [by left| |by right; left].
    destruct H4' as [->|[n ->]]; [by apply elem_of_nil in Ht|].
    apply list_elem_of_singleton in Ht. right. right. right. split; [done|]. by exists n.
Qed.

Lemma style_takes_precedence_witness :
  exists a' classes other,
    replace_color_element insertion_order colors_example (styled "fill:#ff0000") = Ok a' /\
    a' !! "class" = Some (strip (join " " (insertion_order classes))) /\
    ("fill" = "fill" /\
       classes = class_tokens (styled "fill:#ff0000") ++ ["fill-" ++ "red"] ++ other /\
       (other = [] \/ exists n, other = ["stroke-" ++ n])
     \/ "fill" = "stroke" /\
       classes = class_tokens (styled "fill:#ff0000") ++ other ++ ["stroke-" ++ "red"] /\
       (other = [] \/ exists n, other = ["fill-" ++ n])) /\
    "fill" ++ "-" ++ "red" ∈ classes /\
    (forall t, t ∈ classes ->
       t ∈ class_tokens (styled "fill:#ff0000") \/ t = "fill" ++ "-" ++ "red" \/
       ("fill" = "fill" /\ exists n, t = "stroke-" ++ n) \/
       ("fill" = "stroke" /\ exists n, t = "fill-" ++ n)) /\
    a' !! "fill" = None /\
    forall v2', replace_color_element insertion_order colors_example
                  (<["fill" := v2']> (styled "fill:#ff0000")) = Ok a'.
Proof.
  apply (style_takes_precedence insertion_order colors_example (styled "fill:#ff0000")
           "fill" "fill:#ff0000" "#0000ff" "fill:#ff0000" "fill" "#ff0000" "red" [] []).
  - left. reflexivity.
  - vm_compute. reflexivity.
  - vm_compute. reflexivity.
  - vm_compute. reflexivity.
  - vm_compute. reflexivity.
  - vm_compute. reflexivity.
  - vm_compute. reflexivity.
  - vm_compute. discriminate.
  - intros seg' Hin. inversion Hin.
  - apply Forall_nil_2.
Defined.

(** ** C8: a declaration without a colon *)

(** Counterexample to C8 as it is stated. A style of one blank is not empty
    and has a declaration without a colon; the normaliser takes it for an
    empty style and writes the empty string. *)
Lemma malformed_style_counterexample : ~ malformed_style_claim.
Proof.
  intros H.
  destruct (H insertion_order ∅ (<["style" := " "]> ∅) " " " ") as [e He];
    try by vm_compute.
  - apply list_elem_of_In. vm_compute. auto.
  - rewrite list_elem_of_In. vm_compute. intuition discriminate.
Qed.

(** C8, amended. A style that is not empty once the white space around it
    is taken off, and one of whose declarations has no colon, makes the
    normaliser raise [ValueError]; so does the rewriter on the element, and
    on every document that holds the element. *)
Theorem malformed_style_is_fatal (si : list str -> list str) (cm a : gmap str str)
    (doc : list (gmap str str)) (s seg : str) :
  a !! "style" = Some s -> strip s <> [] -> seg ∈ split ";" s -> ":"%char ∉ seg ->
  a ∈ doc ->
  modify_style_attribute cm s new_attribute new_attribute = Raise ValueError /\
  replace_color_element si cm a = Raise ValueError /\
  replace_color si cm doc = Raise ValueError.
Proof.
  intros Hs Hne Hin Hseg Hdoc.
  split; [by apply (modify_style_attribute_raises cm s _ _ seg)|].
  assert (replace_color_element si cm a = Raise ValueError) as Ha
    by (by apply (replace_color_element_raises si cm a s seg)).
  split; [done|]. by apply (replace_color_raises si cm doc a).
Qed.

Lemma malformed_style_is_fatal_witness :
  modify_style_attribute colors_example "fill:#ff0000;stroke" new_attribute new_attribute
    = Raise ValueError /\
  replace_color_element insertion_order colors_example (styled "fill:#ff0000;stroke")
    = Raise ValueError /\
  replace_color insertion_order colors_example [∅; styled "fill:#ff0000;stroke"]
    = Raise ValueError.
Proof.
  apply (malformed_style_is_fatal insertion_order colors_example
           (styled "fill:#ff0000;stroke") [∅; styled "fill:#ff0000;stroke"]
           "fill:#ff0000;stroke" "stroke").
  - vm_compute. reflexivity.
  - vm_compute. discriminate.
  - apply list_elem_of_In. vm_compute. auto.
  - rewrite list_elem_of_In. vm_compute. intuition discriminate.
  - apply list_elem_of_In. right. left. reflexivity.
Defined.

(** ** C9: no empty class attribute, but an empty style attribute *)

Lemma replace_color_lookup (si : list str -> list str) (cm : gmap str str)
    (doc doc' : list (gmap str str)) (a : gmap str str) (k : nat) :
  replace_color si cm doc = Ok doc' -> doc !! k = Some a ->
  exists a', doc' !! k = Some a' /\ replace_color_element si cm a = Ok a'.
Proof.
  revert doc' k. induction doc as [|b doc IH]; intros doc' k H Hk; [done|].
  cbn [replace_color] in H.
  destruct (replace_color_element si cm b) as [b'|] eqn:Hb; [|done].
  destruct (replace_color si cm doc) as [rest'|] eqn:Hrest; [|done].
  cbn [mbind result_bind rbind] in H. injection H as <-.
  destruct k as [|k]; simpl in *.
  - injection Hk as <-. by exists b'.
  - by apply IH.
Qed.

(** C9. An element without a [class] attribute whose resolved fill and
    stroke match no key of the mapping comes out without a [class]
    attribute; an element whose style is rebuilt to the empty string comes
    out with the attribute [style] set to the empty string. Both hold for the
    element's turn of the loop and in the document after the run. *)
Theorem no_empty_class_but_empty_style (si : list str -> list str) (cm a a1 b : gmap str str)
    (fa sa fb sb : Attribute) (s : str) :
  resolve cm a = Ok (a1, fa, sa) -> a !! "class" = None ->
  matched cm fa = None -> matched cm sa = None ->
  b !! "style" = Some s ->
  modify_style_attribute cm s new_attribute new_attribute = Ok ([], fb, sb) ->
  (exists a', replace_color_element si cm a = Ok a' /\ a' !! "class" = None) /\
  (exists b', replace_color_element si cm b = Ok b' /\ b' !! "style" = Some []) /\
  (forall (doc doc' : list (gmap str str)) (k l : nat),
     replace_color si cm doc = Ok doc' -> doc !! k = Some a -> doc !! l = Some b ->
     (exists a', doc' !! k = Some a' /\ a' !! "class" = None) /\
     (exists b', doc' !! l = Some b' /\ b' !! "style" = Some [])).
Proof.
  intros Hr Hc Hf Hk Hs Hm.
  destruct (no_class_kept si cm a a1 fa sa Hr Hc Hf Hk) as [Ha Ha1].
  destruct (style_kept si cm b s [] fb sb Hs Hm) as (b' & Hb & Hb').
  split; [by exists a1|]. split; [by exists b'|].
  intros doc doc' k l Hdoc Hka Hlb.
  destruct (replace_color_lookup si cm doc doc' a k Hdoc Hka) as (a2 & ? & Ha2).
  destruct (replace_color_lookup si cm doc doc' b l Hdoc Hlb) as (b2 & ? & Hb2).
  rewrite Ha in Ha2. injection Ha2 as <-. rewrite Hb in Hb2. injection Hb2 as <-.
  split; [by exists a1|by exists b'].
Qed.

Lemma no_empty_class_but_empty_style_witness :
  (exists a', replace_color_element insertion_order colors_example
                (<["fill" := "#123456"]> ∅) = Ok a' /\ a' !! "class" = None) /\
  (exists b', replace_color_element insertion_order colors_example (styled "fill:#ff0000")
              = Ok b' /\ b' !! "style" = Some []) /\
  (forall (doc doc' : list (gmap str str)) (k l : nat),
     replace_color insertion_order colors_example doc = Ok doc' ->
     doc !! k = Some (<["fill" := "#123456"]> ∅) ->
     doc !! l = Some (styled "fill:#ff0000") ->
     (exists a', doc' !! k = Some a' /\ a' !! "class" = None) /\
     (exists b', doc' !! l = Some b' /\ b' !! "style" = Some [])).
Proof.
  apply (no_empty_class_but_empty_style insertion_order colors_example
           (<["fill" := "#123456"]> ∅) (<["fill" := "#123456"]> ∅) (styled "fill:#ff0000")
           {| is_set := true; value := Some "#123456" |} new_attribute
           {| is_set := true; value := Some "#ff0000" |} new_attribute "fill:#ff0000").
  - vm_compute. reflexivity.
  - vm_compute. reflexivity.
  - vm_compute. reflexivity.
  - vm_compute. reflexivity.
  - vm_compute. reflexivity.
  - vm_compute. reflexivity.
Defined.
(** ** C5: the classes handed on to a marker *)

Lemma elem_of_strip_class_tokens (m : gmap str str) (t : str) :
  t ∈ strip <$> class_tokens m <-> t ∈ class_tokens m.
Proof.
  rewrite list_elem_of_fmap. split.
  - intros (y & -> & Hy). by rewrite (class_tokens_stripped m y).
  - intros Ht. exists t. by rewrite (class_tokens_stripped m t).
Qed.

(** *** The tokens that are read back *)

Lemma split_app_sep (sep : ascii) (a b : str) :
  split sep (a ++ sep :: b) = split sep a ++ split sep b.
Proof.
  induction a as [|c a IH].
  - simpl. by rewrite eqc_refl.
  - cbn [app split]. destruct (eqc c sep); [by rewrite IH|].
    rewrite IH. pose proof (split_nonempty sep a) as Hne.
    by destruct (split sep a).
Qed.

Lemma split_join_flat (sep : ascii) (L : list str) :
  L <> [] -> split sep (join [sep] L) = flat_map (split sep) L.
Proof.
  intros Hne. induction L as [|x L IH]; [done|].
  destruct L as [|y L].
  - simpl. by rewrite app_nil_r.
  - change (join [sep] (x :: y :: L)) with (x ++ sep :: join [sep] (y :: L)).
    change (flat_map (split sep) (x :: y :: L))
      with (split sep x ++ flat_map (split sep) (y :: L)).
    rewrite <- IH by done. apply (split_app_sep sep x).
Qed.

(** A token without a blank that is in the set written is a token of the
    attribute that is read back, whatever the other tokens are. *)
Lemma token_written (si : list str -> list str) (cl : list str) (m : gmap str str) (t : str) :
  set_order si -> t ∈ cl -> " "%char ∉ t -> strip t <> [] ->
  strip t ∈ class_tokens (write_classes si cl m).
Proof.
  intros Hsi Hin Hsp Hne. unfold write_classes, class_tokens.
  destruct cl as [|x cl]; [by apply elem_of_nil in Hin|]. cbn [length Nat.ltb Nat.leb].
  rewrite lookup_insert_eq.
  assert (strip t ∈ words (strip (join " " (si (x :: cl))))) as Hw.
  { rewrite words_strip. apply elem_of_words. split; [done|].
    apply list_elem_of_fmap. exists t. split; [done|].
    rewrite (split_join_flat " ") by (by apply set_order_nonempty).
    apply list_elem_of_In, in_flat_map. exists t. split.
    - apply list_elem_of_In. by apply (Hsi (x :: cl)).
    - rewrite split_notin by done. by left. }
  by apply elem_of_words in Hw as [_ Hw].
Qed.

Lemma rstrip_length (s : str) : length (rstrip s) <= length s.
Proof.
  destruct (rstrip_decomp s) as (w & Hw & _). rewrite Hw at 2. rewrite length_app. lia.
Qed.

Lemma strip_id_lstrip (u : str) : strip u = u -> lstrip u = u.
Proof.
  intros H. destruct (lstrip_decomp u) as (w & Hw & _).
  assert (length (lstrip u) = length u) as Hl.
  { pose proof (rstrip_length (lstrip u)) as H1. pose proof (lstrip_length u) as H2.
    unfold strip in H. rewrite H in H1. lia. }
  rewrite Hw in Hl at 2. rewrite length_app in Hl.
  destruct w; [done|simpl in Hl; lia].
Qed.

Lemma strip_id_rstrip (u : str) : strip u = u -> rstrip u = u.
Proof. intros H. pose proof (strip_id_lstrip u H) as Hl. unfold strip in H. by rewrite Hl in H. Qed.

(** A segment that the strip leaves as it is stays a segment when white
    space is taken from the front of the text, or from its end. *)
Lemma split_drop_front (w x u : str) :
  forallb isspace w = true -> u ∈ split " " (w ++ x) -> lstrip u = u -> u <> [] ->
  u ∈ split " " x.
Proof.
  intros Hw. induction w as [|c w IH]; intros Hin Hu Hne; [done|].
  cbn [forallb] in Hw. apply andb_true_iff in Hw as [Hc Hw].
  cbn [app split] in Hin. destruct (eqc c " ").
  - apply elem_of_cons in Hin as [->|Hin]; [done|]. by apply IH.
  - pose proof (split_nonempty " " (w ++ x)) as Hs.
    destruct (split " " (w ++ x)) as [|h t]; [done|].
    apply elem_of_cons in Hin as [->|Hin].
    + exfalso. simpl in Hu. rewrite Hc in Hu.
      pose proof (lstrip_length h) as Hl. rewrite Hu in Hl. simpl in Hl. lia.
    + apply IH; [done|by right|done|done].
Qed.

Lemma split_drop_back (x w u : str) :
  forallb isspace w = true -> u ∈ split " " (x ++ w) -> rstrip u = u -> u <> [] ->
  u ∈ split " " x.
Proof.
  revert x. induction w as [|c w IH] using rev_ind; intros x Hw Hin Hu Hne.
  - by rewrite app_nil_r in Hin.
  - rewrite forallb_app in Hw. apply andb_true_iff in Hw as [Hw Hc].
    simpl in Hc. rewrite andb_true_r in Hc. rewrite app_assoc in Hin.
    destruct (decide (c = " "%char)) as [->|Hsp].
    + rewrite split_snoc_sep in Hin. apply elem_of_app in Hin as [Hin|Hin]; [by apply IH|].
      by apply list_elem_of_singleton in Hin.
    + rewrite (split_app_r " " (x ++ w) [c]) in Hin.
      2:{ intros ?%list_elem_of_singleton. done. }
      apply elem_of_app in Hin as [Hin|Hin].
      * apply IH; [done|by apply in_removelast|done|done].
      * exfalso. apply list_elem_of_singleton in Hin. rewrite Hin in Hu.
        rewrite rstrip_snoc_space in Hu by done.
        pose proof (rstrip_length (List.last (split " " (x ++ w)) [])) as Hl.
        rewrite Hu, length_app in Hl. simpl in Hl. lia.
Qed.

Lemma segment_written (L : list str) (u : str) :
  L <> [] -> u ∈ L -> " "%char ∉ u -> strip u = u -> u <> [] ->
  u ∈ split " " (strip (join " " L)).
Proof.
  intros HL Hin Hsp Hst Hne.
  destruct (strip_decomp (join " " L)) as (w1 & w2 & Hd & Hw1 & Hw2).
  assert (u ∈ split " " (join " " L)) as Hu.
  { rewrite (split_join_flat " ") by done. apply list_elem_of_In, in_flat_map.
    exists u. split; [by apply list_elem_of_In|]. rewrite split_notin by done. by left. }
  rewrite Hd in Hu. apply split_drop_front in Hu; [|done|by apply strip_id_lstrip|done].
  apply split_drop_back in Hu; [done|done|by apply strip_id_rstrip|done].
Qed.

(** *** The classes that are handed on *)

Lemma startswith_spec (s p : str) : startswith s p = true <-> exists r, s = p ++ r.
Proof.
  revert s. induction p as [|a p IH]; intros s.
  - split; [intros _; by exists s|by destruct s].
  - destruct s as [|b s]; cbn [startswith].
    + split; [done|]. by intros [r ?].
    + rewrite andb_true_iff, eqc_true, IH. split.
      * intros [-> [r ->]]. by exists r.
      * intros [r [= -> ->]]. split; [done|]. by exists r.
Qed.

Lemma color_classes_spec (c t : str) :
  t ∈ color_classes c <->
  t ∈ split " " c /\ ((exists r, t = "fill" ++ r) \/ (exists r, t = "stroke" ++ r)).
Proof.
  unfold color_classes. rewrite list_elem_of_filter.
  rewrite <- !startswith_spec. split.
  - intros [H ?]. split; [done|]. apply Is_true_true in H. by apply orb_true_iff in H.
  - intros [? H]. split; [|done]. apply Is_true_true. by apply orb_true_iff.
Qed.

(** The strip keeps a prefix that holds no white space. *)
Lemma strip_prefix (p r : str) :
  p <> [] -> forallb (fun c => negb (isspace c)) p = true ->
  exists r', strip (p ++ r) = p ++ r'.
Proof.
  intros Hne Hp. destruct p as [|c p]; [done|].
  cbn [forallb] in Hp. apply andb_true_iff in Hp as [Hc Hp].
  apply negb_true_iff in Hc. unfold strip. cbn [app]. rewrite lstrip_id by done.
  destruct (rstrip_decomp (c :: p ++ r)) as (w & Hw & Hsp).
  change (c :: p ++ r) with ((c :: p) ++ r) in Hw at 1.
  apply app_eq_app in Hw as (l & [[Hx Hl]|[Hx Hl]]).
  - assert (l = []) as ->.
    { destruct l as [|d l]; [done|]. exfalso.
      assert (d ∈ c :: p) as Hd by (rewrite Hx; apply elem_of_app; right; left).
      assert (isspace d = true) as Hds.
      { rewrite Hl in Hsp. simpl in Hsp. by apply andb_true_iff in Hsp as [? _]. }
      apply elem_of_cons in Hd as [->|Hd]; [congruence|].
      rewrite forallb_forall in Hp. apply list_elem_of_In, Hp in Hd. by rewrite Hds in Hd. }
    rewrite app_nil_r in Hx. exists []. by rewrite app_nil_r.
  - exists l. done.
Qed.

Lemma color_class_stripped (c y : str) :
  y ∈ color_classes c ->
  strip y <> [] /\ (startswith (strip y) "fill" || startswith (strip y) "stroke") = true.
Proof.
  intros [_ [[r ->]|[r ->]]]%color_classes_spec.
  - destruct (strip_prefix "fill" r) as (r' & ->); [done|done|]. split; [done|].
    apply orb_true_iff. left. apply startswith_spec. by exists r'.
  - destruct (strip_prefix "stroke" r) as (r' & ->); [done|done|]. split; [done|].
    apply orb_true_iff. right. apply startswith_spec. by exists r'.
Qed.

(** *** A run with respect to the document it started from *)

Lemma list_find_ext {A} (P Q : A -> Prop) `{!forall x, Decision (P x)}
    `{!forall x, Decision (Q x)} (l l' : list A) :
  Forall2 (fun a b => P a <-> Q b) l l' ->
  fst <$> list_find P l = fst <$> list_find Q l'.
Proof.
  induction 1 as [|a b l l' Hab Hrest IH]; [done|].
  cbn [list_find]. destruct (decide (P a)) as [Ha|Ha]; destruct (decide (Q b)) as [Hb|Hb];
    [done|tauto|tauto|].
  destruct (list_find P l) as [[i x]|], (list_find Q l') as [[j y]|]; simpl in *; congruence.
Qed.

Lemma find_frame (fp : finder) (doc doc' : list (gmap str str)) (id : str) :
  length doc' = length doc -> frame doc doc' -> "'"%char ∉ id ->
  find_element_with_id fp doc' id = find_element_with_id fp doc id.
Proof.
  intros Hl [Hfr _] Hq. rewrite !find_plain by done. do 2 f_equal.
  destruct doc as [|r doc], doc' as [|r' doc']; try done. cbn [tail].
  apply list_find_ext. apply Forall2_same_length_lookup. split.
  - simpl in Hl. lia.
  - intros k a b Ha Hb.
    pose proof (Hfr (S k) "id") as H. unfold element_get in H. simpl in H.
    rewrite Ha, Hb in H. simpl in H. rewrite H by done. done.
Qed.

Lemma follows_refl (doc : list (gmap str str)) : follows doc doc.
Proof.
  split; [done|]. split; [apply frame_refl|]. intros k c t Hc Ht. by exists c, t.
Qed.

Lemma propagate_length (si : list str -> list str) (fp : finder)
    (doc doc' : list (gmap str str)) ff i seg :
  propagate si fp ff i seg doc = Ok doc' -> length doc' = length doc.
Proof.
  intros [->|(c & j & m & forced & _ & _ & _ & ->)]%propagate_inv; [done|].
  apply length_insert.
Qed.

Lemma propagate_follows (si : list str -> list str) (fp : finder)
    (doc0 doc doc' : list (gmap str str)) ff i seg :
  set_order si -> follows doc0 doc -> propagate si fp ff i seg doc = Ok doc' ->
  follows doc0 doc'.
Proof.
  intros Hsi (Hl & Hfr & Hk) H.
  split; [by rewrite (propagate_length _ _ _ _ _ _ _ H)|].
  split; [eapply frame_trans; [done|by eapply propagate_frame]|].
  apply propagate_inv in H as [->|(ci & j & m & forced & _ & Hj & _ & ->)]; [done|].
  intros k c t Hc Ht. destruct (Hk k c t Hc Ht) as (c' & y & Hc' & Hy & Hyt).
  destruct (decide (j = k)) as [<-|Hjk].
  2:{ exists c', y. unfold element_get. by rewrite list_lookup_insert_ne. }
  pose proof (lookup_lt_Some _ _ _ Hj) as Hlt.
  unfold element_get in Hc'. rewrite Hj in Hc'. simpl in Hc'.
  set (L := class_tokens m ++ color_classes ci ++ forced).
  assert (strip y ∈ class_tokens m) as Hin.
  { unfold class_tokens. rewrite Hc'. apply list_elem_of_fmap. exists y. split; [done|].
    by apply color_classes_spec in Hy as [? _]. }
  assert (L <> []) as HL.
  { unfold L. intros [E _]%app_eq_nil. rewrite E in Hin. by apply elem_of_nil in Hin. }
  destruct (color_class_stripped c' y Hy) as [Hne Hst].
  exists (strip (join " " (si L))), (strip y). split; [|split].
  - unfold element_get. rewrite list_lookup_insert_eq by done. simpl.
    rewrite write_classes_nonempty by done. by rewrite lookup_insert_eq.
  - unfold color_classes. apply list_elem_of_filter. split; [by apply Is_true_true|].
    apply segment_written; [by apply set_order_nonempty| | |apply strip_strip|done].
    + apply (Hsi L). apply elem_of_app. by left.
    + pose proof (class_tokens_spaceless m) as Hsp. unfold spaceless in Hsp.
      rewrite Forall_forall in Hsp. by apply Hsp.
  - by rewrite strip_strip.
Qed.

Lemma propagate_all_follows (si : list str -> list str) (fp : finder)
    (doc0 doc doc' : list (gmap str str)) ff i styles :
  set_order si -> follows doc0 doc -> propagate_all si fp ff i styles doc = Ok doc' ->
  follows doc0 doc'.
Proof.
  intros Hsi. revert doc. induction styles as [|seg styles IH]; intros doc Hf H.
  - by injection H as <-.
  - cbn [propagate_all] in H.
    destruct (propagate si fp ff i seg doc) as [doc1|e] eqn:E; [|done].
    cbn [mbind result_bind rbind] in H. apply (IH doc1); [|done].
    by apply (propagate_follows si fp doc0 doc doc1 ff i seg).
Qed.

Lemma markers_of_element_follows (si : list str -> list str) (fp : finder)
    (doc0 doc doc' : list (gmap str str)) ff i :
  set_order si -> follows doc0 doc -> markers_of_element si fp ff i doc = Ok doc' ->
  follows doc0 doc'.
Proof.
  intros Hsi Hf. unfold markers_of_element. destruct (element_get doc i "style").
  - by apply propagate_all_follows.
  - by intros [= <-].
Qed.

(** The step for a reference to a marker that is found hands on every class
    of the element that starts with [fill] or [stroke]. *)
Lemma propagate_hands_on (si : list str -> list str) (fp : finder)
    (doc doc' : list (gmap str str)) ff i seg id rest j c y :
  set_order si -> propagate si fp ff i seg doc = Ok doc' ->
  Re.rmatch marker_pattern (strip seg) = Some (id, rest) ->
  find_element_with_id fp doc id = Ok (Some j) ->
  element_get doc i "class" = Some c -> y ∈ color_classes c ->
  strip y ∈ tokens_at doc' j.
Proof.
  intros Hsi H Hm Hf Hc Hy. unfold propagate in H. rewrite Hm, Hc, Hf in H.
  cbn [mbind result_bind rbind option_bind] in H.
  destruct (doc !! j) as [m|] eqn:Hj; cbn [fmap option_fmap option_map] in H; [|done].
  destruct (forced_fill ff (color_classes c)) as [forced|e]; cbn [rbind] in H; [|done].
  injection H as <-. rewrite (tokens_at_insert_eq doc m) by done.
  destruct (color_class_stripped c y Hy) as [Hne _].
  apply token_written; [done| | |done].
  - apply elem_of_app. right. apply elem_of_app. by left.
  - pose proof (color_classes_spaceless c) as Hsp. unfold spaceless in Hsp.
    rewrite Forall_forall in Hsp. by apply Hsp.
Qed.

Lemma propagate_all_hands_on (si : list str -> list str) (fp : finder)
    (doc0 doc doc' : list (gmap str str)) ff i styles seg id rest j c t :
  set_order si -> follows doc0 doc -> propagate_all si fp ff i styles doc = Ok doc' ->
  seg ∈ styles -> Re.rmatch marker_pattern (strip seg) = Some (id, rest) ->
  "'"%char ∉ id -> find_element_with_id fp doc0 id = Ok (Some j) ->
  element_get doc0 i "class" = Some c -> t ∈ color_classes c ->
  strip t ∈ tokens_at doc' j.
Proof.
  intros Hsi. revert doc. induction styles as [|s0 styles IH];
    intros doc Hfo H Hin Hm Hq Hf Hc Ht; [by apply elem_of_nil in Hin|].
  cbn [propagate_all] in H.
  destruct (propagate si fp ff i s0 doc) as [doc1|e] eqn:E; [|done].
  cbn [mbind result_bind rbind] in H.
  destruct (decide (seg = s0)) as [<-|Hne].
  - destruct Hfo as (Hl & Hfr & Hk). destruct (Hk i c t Hc Ht) as (c' & y & Hc' & Hy & Hyt).
    rewrite <- Hyt.
    apply (propagate_all_keeps si fp doc1 doc' ff i styles j (strip y) Hsi H).
    + by destruct (color_class_stripped c' y Hy).
    + apply (propagate_hands_on si fp doc doc1 ff i seg id rest j c' y); try done.
      by rewrite (find_frame fp doc0 doc id).
  - apply elem_of_cons in Hin as [?|Hin]; [done|].
    apply (IH doc1); try done. by apply (propagate_follows si fp doc0 doc doc1 ff i s0).
Qed.

Lemma markers_from_hands_on (si : list str -> list str) (fp : finder)
    (doc0 doc doc' : list (gmap str str)) ff n i0 i s seg id rest j c t :
  set_order si -> follows doc0 doc -> markers_from si fp ff n i0 doc = Ok doc' ->
  i0 <= i < i0 + n -> element_get doc0 i "style" = Some s -> seg ∈ split ";" s ->
  Re.rmatch marker_pattern (strip seg) = Some (id, rest) ->
  "'"%char ∉ id -> find_element_with_id fp doc0 id = Ok (Some j) ->
  element_get doc0 i "class" = Some c -> t ∈ color_classes c ->
  strip t ∈ tokens_at doc' j.
Proof.
  intros Hsi. revert i0 doc. induction n as [|n IH];
    intros i0 doc Hfo H Hi Hs Hin Hm Hq Hf Hc Ht; [lia|].
  cbn [markers_from] in H.
  destruct (markers_of_element si fp ff i0 doc) as [doc1|e] eqn:E; [|done].
  cbn [mbind result_bind rbind] in H.
  destruct (decide (i0 = i)) as [->|Hne].
  - assert (strip t ∈ tokens_at doc1 j) as H1.
    { unfold markers_of_element in E.
      assert (element_get doc i "style" = Some s) as Hs'.
      { destruct Hfo as (_ & [Hfr _] & _). by rewrite Hfr. }
      rewrite Hs' in E.
      by apply (propagate_all_hands_on si fp doc0 doc doc1 ff i (split ";" s) seg id rest j c t). }
    apply (markers_from_keeps si fp doc1 doc' ff n (S i) j _ Hsi H); [|done].
    apply color_classes_spec in Ht as [_ [[r ->]|[r ->]]].
    + destruct (strip_prefix "fill" r) as (r' & ->); done.
    + destruct (strip_prefix "stroke" r) as (r' & ->); done.
  - apply (IH (S i0) doc1); try done; [|lia].
    by apply (markers_of_element_follows si fp doc0 doc doc1 ff i0).
Qed.

(** Counterexample to C5 as it is stated. With [force_fill] the marker of an
    element with the class [stroke-blue] gets the class [fill-blue] as well,
    which is neither a token of the marker nor a class of the element. *)
Lemma marker_union_counterexample :
  ~ exists si fp, set_order si /\ marker_union_claim si fp.
Proof.
  intros (si & fp & Hsi & H).
  destruct (H (marker_doc "stroke-blue" ∅) (<["id" := "m1"]> ∅) true 1 2
              "marker-end:url(#m1)" "stroke-blue" "m1" "")
    as (doc' & Hp & Hin); try by vm_compute.
  rewrite (propagate_eq si fp _ (<["id" := "m1"]> ∅) true 1 _ "stroke-blue" "m1" "" 2
             ["fill-blue"]) in Hp by (by vm_compute).
  injection Hp as <-.
  destruct (Hin "fill-blue") as [Hf|Hf].
  - unfold tokens_at. cbn [lookup list_lookup list_insert insert marker_doc].
    replace (class_tokens (<["id" := "m1"]> ∅) ++ color_classes "stroke-blue" ++ ["fill-blue"])
      with ["stroke-blue"; "fill-blue"] by (by vm_compute).
    apply (class_tokens_written si ["stroke-blue"; "fill-blue"] _ _ Hsi); [|done|done|].
    + repeat (apply Forall_cons; split; [solve_notin|]). by apply Forall_nil.
    + apply list_elem_of_In. vm_compute. auto.
  - revert Hf. rewrite list_elem_of_In. vm_compute. intuition discriminate.
  - revert Hf. rewrite list_elem_of_In. vm_compute. intuition discriminate.
Qed.

(** C5, amended. An element with a [class] attribute refers to a marker that
    is found. The classes that are handed on are the parts of the class
    attribute between blanks that start with [fill] or with [stroke]. The
    step writes on the marker the set of the marker's own tokens, of those
    classes and of the class that [force_fill] adds; without [force_fill]
    nothing is added. The tokens read back from the attribute are, the empty
    token apart, exactly these. No step and no run takes a token away from
    an element; and when a run comes to its end, the marker of a reference
    with an id without a single quote holds every class of the referring
    element that was to be handed on. *)
Theorem marker_classes_union (si : list str -> list str) (fp : finder)
    (doc : list (gmap str str)) (m : gmap str str) (ff : bool) (i j : nat)
    (seg c id rest : str) (forced : list str) :
  set_order si ->
  element_get doc i "class" = Some c -> color_classes c <> [] ->
  Re.rmatch marker_pattern (strip seg) = Some (id, rest) ->
  find_element_with_id fp doc id = Ok (Some j) -> doc !! j = Some m ->
  forced_fill ff (color_classes c) = Ok forced ->
  (forall t, t ∈ color_classes c <->
     t ∈ split " " c /\ ((exists r, t = "fill" ++ r) \/ (exists r, t = "stroke" ++ r))) /\
  (ff = false -> forced = []) /\
  exists doc', propagate si fp ff i seg doc = Ok doc' /\
    doc' = <[j := <["class" := strip (join " " (si
               (class_tokens m ++ color_classes c ++ forced)))]> m]> doc /\
    (forall t, t ∈ si (class_tokens m ++ color_classes c ++ forced) <->
               t ∈ class_tokens m \/ t ∈ color_classes c \/ t ∈ forced) /\
    (forall t, t <> [] ->
       t ∈ tokens_at doc' j <->
       t ∈ class_tokens m \/ t ∈ strip <$> color_classes c \/ t ∈ strip <$> forced) /\
    (forall (ff2 : bool) (i2 : nat) (seg2 : str) (doc1 doc2 : list (gmap str str))
            (k : nat) (t : str),
       propagate si fp ff2 i2 seg2 doc1 = Ok doc2 -> t <> [] ->
       t ∈ tokens_at doc1 k -> t ∈ tokens_at doc2 k) /\
    (forall (ff2 : bool) (doc2 : list (gmap str str)) (k : nat) (t : str),
       deal_with_markers si fp ff2 doc = Ok doc2 -> t <> [] ->
       t ∈ tokens_at doc k -> t ∈ tokens_at doc2 k) /\
    (forall (ff2 : bool) (doc2 : list (gmap str str)) (s t : str),
       deal_with_markers si fp ff2 doc = Ok doc2 ->
       element_get doc i "style" = Some s -> seg ∈ split ";" s -> "'"%char ∉ id ->
       t ∈ color_classes c -> strip t ∈ tokens_at doc2 j).
Proof.
  intros Hsi Hc Hne Hm Hf Hj Hff.
  split; [apply color_classes_spec|].
  split; [intros ->; by injection Hff as <-|].
  set (L := class_tokens m ++ color_classes c ++ forced).
  assert (Hcl : L <> []).
  { unfold L. intros [_ [? _]%app_eq_nil]%app_eq_nil. done. }
  assert (Hsp : spaceless L).
  { apply Forall_app. split; [apply class_tokens_spaceless|].
    apply Forall_app. split; [apply color_classes_spaceless|].
    apply (forced_fill_spaceless ff (color_classes c)); [apply color_classes_spaceless|done]. }
  eexists. split.
  { rewrite (propagate_eq si fp doc m ff i seg c id rest j forced) by done.
    fold L. by rewrite write_classes_nonempty. }
  split; [done|]. split.
  { intros t. rewrite <- !elem_of_app. apply (Hsi L). }
  split.
  { intros t Ht. rewrite (tokens_at_insert_eq doc m) by done.
    rewrite <- (write_classes_nonempty si _ m) by done.
    rewrite class_tokens_written by done.
    unfold L. by rewrite !fmap_app, !elem_of_app, elem_of_strip_class_tokens. }
  split; [|split].
  - intros ff2 i2 seg2 doc1 doc2 k t. by apply propagate_keeps.
  - intros ff2 doc2 k t. unfold deal_with_markers. by apply markers_from_keeps.
  - intros ff2 doc2 s t Hrun Hs Hin Hq Ht. unfold deal_with_markers in Hrun.
    apply (markers_from_hands_on si fp doc doc doc2 ff2 (length doc) 0 i s seg id rest j c t);
      try done; [apply follows_refl|].
    split; [lia|]. simpl. unfold element_get in Hc.
    destruct (doc !! i) eqn:E; [|done]. by eapply lookup_lt_Some.
Qed.

Lemma marker_classes_union_witness :
  (forall t, t ∈ color_classes "fill-red" <->
     t ∈ split " " "fill-red" /\
     ((exists r, t = "fill" ++ r) \/ (exists r, t = "stroke" ++ r))) /\
  (false = false -> ([] : list str) = []) /\
  exists doc',
    propagate insertion_order no_path false 1 "marker-end:url(#m1)"
      (marker_doc "fill-red" (<["class" := "stroke-blue"]> ∅)) = Ok doc' /\
    doc' = <[2 := <["class" := strip (join " " (insertion_order
                     (class_tokens (<["id" := "m1"]> (<["class" := "stroke-blue"]> ∅))
                      ++ color_classes "fill-red" ++ [])))]>
                   (<["id" := "m1"]> (<["class" := "stroke-blue"]> ∅))]>
             (marker_doc "fill-red" (<["class" := "stroke-blue"]> ∅)) /\
    (forall t, t ∈ insertion_order
                     (class_tokens (<["id" := "m1"]> (<["class" := "stroke-blue"]> ∅))
                      ++ color_classes "fill-red" ++ []) <->
               t ∈ class_tokens (<["id" := "m1"]> (<["class" := "stroke-blue"]> ∅))
               \/ t ∈ color_classes "fill-red" \/ t ∈ []) /\
    (forall t, t <> [] ->
       t ∈ tokens_at doc' 2 <->
       t ∈ class_tokens (<["id" := "m1"]> (<["class" := "stroke-blue"]> ∅))
       \/ t ∈ strip <$> color_classes "fill-red" \/ t ∈ strip <$> []) /\
    (forall (ff2 : bool) (i2 : nat) (seg2 : str) (doc1 doc2 : list (gmap str str))
            (k : nat) (t : str),
       propagate insertion_order no_path ff2 i2 seg2 doc1 = Ok doc2 -> t <> [] ->
       t ∈ tokens_at doc1 k -> t ∈ tokens_at doc2 k) /\
    (forall (ff2 : bool) (doc2 : list (gmap str str)) (k : nat) (t : str),
       deal_with_markers insertion_order no_path ff2
         (marker_doc "fill-red" (<["class" := "stroke-blue"]> ∅)) = Ok doc2 -> t <> [] ->
       t ∈ tokens_at (marker_doc "fill-red" (<["class" := "stroke-blue"]> ∅)) k ->
       t ∈ tokens_at doc2 k) /\
    (forall (ff2 : bool) (doc2 : list (gmap str str)) (s t : str),
       deal_with_markers insertion_order no_path ff2
         (marker_doc "fill-red" (<["class" := "stroke-blue"]> ∅)) = Ok doc2 ->
       element_get (marker_doc "fill-red" (<["class" := "stroke-blue"]> ∅)) 1 "style" = Some s ->
       "marker-end:url(#m1)" ∈ split ";" s -> "'"%char ∉ "m1" ->
       t ∈ color_classes "fill-red" -> strip t ∈ tokens_at doc2 2).
Proof.
  apply (marker_classes_union insertion_order no_path
           (marker_doc "fill-red" (<["class" := "stroke-blue"]> ∅))
           (<["id" := "m1"]> (<["class" := "stroke-blue"]> ∅))
           false 1 2 "marker-end:url(#m1)" "fill-red" "m1" "" []).
  - exact insertion_order_set_order.
  - vm_compute. reflexivity.
  - vm_compute. discriminate.
  - vm_compute. reflexivity.
  - vm_compute. reflexivity.
  - vm_compute. reflexivity.
  - vm_compute. reflexivity.
Defined.

(** ** C6: forcing the fill *)

Lemma join_cons (sep x : str) (l : list str) :
  l <> [] -> join sep (x :: l) = x ++ sep ++ join sep l.
Proof. by destruct l. Qed.

Lemma join_split (sep : ascii) (s : str) : join [sep] (split sep s) = s.
Proof.
  induction s as [|c s IH]; [done|]. simpl.
  pose proof (split_nonempty sep s) as Hne.
  destruct (eqc c sep) eqn:E.
  - apply eqc_true in E as ->. rewrite join_cons by done. by rewrite IH.
  - destruct (split sep s) as [|h [|h' t]]; [done| |].
    + simpl in *. by rewrite IH.
    + change (join [sep] ((c :: h) :: h' :: t)) with (c :: join [sep] (h :: h' :: t)).
      by rewrite IH.
Qed.

Lemma strip_nonempty (c : ascii) (r : str) : isspace c = false -> strip (c :: r) <> [].
Proof.
  intros Hc E. unfold strip in E. rewrite lstrip_id in E by done.
  destruct (rstrip_decomp (c :: r)) as (w & Hw & Hs). rewrite E in Hw. simpl in Hw.
  subst w. simpl in Hs. by rewrite Hc in Hs.
Qed.

(** Counterexample to C6 as it is stated. The first class handed on is
    [stroke-light-blue]: the class added is [fill-light], whatever the order
    of the set, and not [fill-light-blue]. *)
Lemma force_fill_counterexample : ~ exists si fp, set_order si /\ force_fill_claim si fp.
Proof.
  intros (si & fp & Hsi & H).
  destruct (H (marker_doc "stroke-light-blue" ∅) (<["id" := "m1"]> ∅) 1 2
              "marker-end:url(#m1)" "stroke-light-blue" "m1" "" "stroke-light-blue" [])
    as (doc' & Hp & Hin); try by vm_compute.
  rewrite (propagate_eq si fp _ (<["id" := "m1"]> ∅) true 1 _ "stroke-light-blue" "m1" "" 2
             ["fill-light"]) in Hp by (by vm_compute).
  injection Hp as <-. unfold tokens_at in Hin. cbn [lookup list_lookup] in Hin.
  replace (class_tokens (<["id" := "m1"]> ∅) ++ ["stroke-light-blue"; "fill-light"])
    with ["stroke-light-blue"; "fill-light"] in Hin by (by vm_compute).
  assert (Hsp : spaceless ["stroke-light-blue"; "fill-light"]).
  { repeat (apply Forall_cons; split; [solve_notin|]). by apply Forall_nil. }
  apply (class_tokens_written si _ _ _ Hsi Hsp) in Hin; [|done|by vm_compute].
  revert Hin. rewrite list_elem_of_In. vm_compute. intuition discriminate.
Qed.

(** C6, amended. With [force_fill], when the first class handed on has a
    hyphen, the step adds to the marker's set the class [fill-] followed by
    the text between the first hyphen and the second one; this is all the
    text after the first hyphen when the class has one hyphen only. *)
Theorem forced_fill_class (si : list str -> list str) (fp : finder) (doc : list (gmap str str))
    (m : gmap str str) (i j : nat) (seg c id rest t0 x color : str) (more tail : list str) :
  set_order si ->
  element_get doc i "class" = Some c -> color_classes c = t0 :: more ->
  split "-" t0 = x :: color :: tail ->
  Re.rmatch marker_pattern (strip seg) = Some (id, rest) ->
  find_element_with_id fp doc id = Ok (Some j) -> doc !! j = Some m ->
  exists doc', propagate si fp true i seg doc = Ok doc' /\
    doc' = <[j := <["class" := strip (join " " (si
               (class_tokens m ++ color_classes c ++ ["fill-" ++ color])))]> m]> doc /\
    "fill-" ++ color ∈ si (class_tokens m ++ color_classes c ++ ["fill-" ++ color]) /\
    strip ("fill-" ++ color) ∈ tokens_at doc' j /\
    (tail = [] -> t0 = x ++ "-" ++ color).
Proof.
  intros Hsi Hc Hcc Hsp Hm Hf Hj.
  assert (Hff : forced_fill true (color_classes c) = Ok ["fill-" ++ color]).
  { unfold forced_fill. rewrite Hcc. simpl. by rewrite Hsp. }
  assert (Hcl : class_tokens m ++ color_classes c ++ ["fill-" ++ color] <> []).
  { rewrite Hcc. by destruct (class_tokens m). }
  assert (Hsl : spaceless (class_tokens m ++ color_classes c ++ ["fill-" ++ color])).
  { apply Forall_app. split; [apply class_tokens_spaceless|].
    apply Forall_app. split; [apply color_classes_spaceless|].
    apply (forced_fill_spaceless true (color_classes c)); [apply color_classes_spaceless|done]. }
  eexists. split.
  { rewrite (propagate_eq si fp doc m true i seg c id rest j ["fill-" ++ color]) by done.
    by rewrite write_classes_nonempty. }
  split; [done|]. split.
  { apply (Hsi (class_tokens m ++ color_classes c ++ ["fill-" ++ color])).
    rewrite !elem_of_app, list_elem_of_singleton. auto. }
  split.
  { rewrite (tokens_at_insert_eq doc m) by done.
    rewrite <- (write_classes_nonempty si _ m) by done.
    apply class_tokens_written; [done|done|done|by apply strip_nonempty|].
    apply list_elem_of_fmap. exists ("fill-" ++ color). split; [done|].
    rewrite !elem_of_app, list_elem_of_singleton. auto. }
  intros ->. rewrite <- (join_split "-" t0), Hsp. reflexivity.
Qed.

Lemma forced_fill_class_witness :
  exists doc',
    propagate insertion_order no_path true 1 "marker-end:url(#m1)" (marker_doc "stroke-blue" ∅)
      = Ok doc' /\
    doc' = <[2 := <["class" := strip (join " " (insertion_order
               (class_tokens (<["id" := "m1"]> ∅) ++ color_classes "stroke-blue"
                ++ ["fill-" ++ "blue"])))]> (<["id" := "m1"]> ∅)]>
             (marker_doc "stroke-blue" ∅) /\
    "fill-" ++ "blue" ∈ insertion_order
        (class_tokens (<["id" := "m1"]> ∅) ++ color_classes "stroke-blue"
         ++ ["fill-" ++ "blue"]) /\
    strip ("fill-" ++ "blue") ∈ tokens_at doc' 2 /\
    (([] : list str) = [] -> "stroke-blue" = "stroke" ++ "-" ++ "blue").
Proof.
  apply (forced_fill_class insertion_order no_path (marker_doc "stroke-blue" ∅) (<["id" := "m1"]> ∅)
           1 2 "marker-end:url(#m1)" "stroke-blue" "m1" "" "stroke-blue" "stroke" "blue" [] []).
  - exact insertion_order_set_order.
  - vm_compute. reflexivity.
  - vm_compute. reflexivity.
  - vm_compute. reflexivity.
  - vm_compute. reflexivity.
  - vm_compute. reflexivity.
  - vm_compute. reflexivity.
Defined.

(** ** C7: a reference to a marker that does not exist *)

(** Counterexample to C7 as it is stated. The reference names the id
    [x'][@y='z], which no element carries. Between the single quotes of the
    path the id ends the test of [id] after [x] and adds a test of [y]: the
    element with the id [x] whose [y] is [z] is found, gets the class, and
    the run comes to its end without an error. *)
Lemma missing_marker_counterexample : ~ exists si fp, missing_marker_claim si fp.
Proof.
  intros (si & fp & H).
  assert (exists e, deal_with_markers si fp false quoted_doc = Raise e) as [e He].
  { apply (H quoted_doc false 1 "marker-end:url(#x'][@y='z)" "marker-end:url(#x'][@y='z)"
             "x'][@y='z" "" "fill-red"); try by vm_compute.
    - apply list_elem_of_In. vm_compute. auto.
    - intros [|[|[|k]]]; by vm_compute. }
  assert (exists doc', deal_with_markers si fp false quoted_doc = Ok doc') as [doc' Hok].
  { unfold deal_with_markers. cbn [length quoted_doc markers_from]. fold quoted_doc.
    assert (markers_of_element si fp false 0 quoted_doc = Ok quoted_doc) as ->.
    { apply markers_of_element_skips. intros s seg Hs. by vm_compute in Hs. }
    cbn [mbind result_bind rbind].
    assert (exists doc1, markers_of_element si fp false 1 quoted_doc = Ok doc1) as [doc1 H1].
    { unfold markers_of_element.
      replace (element_get quoted_doc 1 "style") with (Some "marker-end:url(#x'][@y='z)")
        by (by vm_compute).
      replace (split ";" "marker-end:url(#x'][@y='z)") with ["marker-end:url(#x'][@y='z)"]
        by (by vm_compute).
      cbn [propagate_all].
      rewrite (propagate_eq si fp quoted_doc (<["id" := "x"]> (<["y" := "z"]> ∅)) false 1
                 "marker-end:url(#x'][@y='z)" "fill-red" "x'][@y='z" "" 2 [])
        by (by vm_compute).
      by eexists. }
    rewrite H1. cbn [mbind result_bind rbind].
    assert (markers_of_element si fp false 2 doc1 = Ok doc1) as ->.
    { apply markers_of_element_skips. intros s seg Hs.
      apply markers_of_element_frame in H1 as [Hfr _]. rewrite Hfr in Hs by done.
      by vm_compute in Hs. }
    by eexists. }
  congruence.
Qed.

(** C7, amended. An element with a [class] attribute has in its style a
    marker reference to an id without a single quote that no element below
    the root carries. The step for that reference raises [AttributeError],
    from the use of the missing target, and the run of [deal_with_markers]
    raises an exception. *)
Theorem missing_marker_is_fatal (si : list str -> list str) (fp : finder)
    (doc : list (gmap str str)) (ff : bool) (i : nat) (s seg id rest : str) :
  element_get doc i "style" = Some s -> seg ∈ split ";" s ->
  Re.rmatch marker_pattern (strip seg) = Some (id, rest) -> "'"%char ∉ id ->
  is_Some (element_get doc i "class") ->
  (forall k, 1 <= k -> element_get doc k "id" <> Some id) ->
  propagate si fp ff i seg doc = Raise AttributeError /\
  (exists e, deal_with_markers si fp ff doc = Raise e).
Proof.
  intros Hs Hin Hm Hq Hc Hid.
  assert (Hd : dangling doc i seg) by (by exists id, rest).
  split.
  - by apply propagate_dangling.
  - unfold deal_with_markers. apply (markers_from_dangling si fp doc ff _ 0 i s seg); try done.
    split; [lia|]. simpl. unfold element_get in Hs.
    destruct (doc !! i) eqn:E; [|done]. by eapply lookup_lt_Some.
Qed.

Lemma missing_marker_is_fatal_witness :
  propagate insertion_order no_path false 1 "marker-end:url(#m2)"
    [∅; <["class" := "fill-red"]> (<["style" := "marker-end:url(#m2)"]> ∅); <["id" := "m1"]> ∅]
  = Raise AttributeError /\
  (exists e, deal_with_markers insertion_order no_path false
     [∅; <["class" := "fill-red"]> (<["style" := "marker-end:url(#m2)"]> ∅); <["id" := "m1"]> ∅]
   = Raise e).
Proof.
  apply (missing_marker_is_fatal insertion_order no_path
           [∅; <["class" := "fill-red"]> (<["style" := "marker-end:url(#m2)"]> ∅);
            <["id" := "m1"]> ∅]
           false 1 "marker-end:url(#m2)" "marker-end:url(#m2)" "m2" "").
  - vm_compute. reflexivity.
  - apply list_elem_of_In. vm_compute. auto.
  - vm_compute. reflexivity.
  - solve_notin.
  - vm_compute. eauto.
  - intros [|[|[|k]]] Hk; vm_compute; discriminate.
Defined.

(** ** C10: a marker reference on an element without classes *)



(** * Further properties of the style-block manager *)

Lemma named_rule_names (s n : str) : named s n <-> n ∈ rule_names s.
Proof.
  unfold named, rule_names. rewrite list_elem_of_fmap. split.
  - intros (rt & c & H). by exists (rt, n, c).
  - intros ([[rt n'] c] & -> & H). by exists rt, c.
Qed.

Lemma add_rules_filter (T : list (str * str)) (upd : list str) (P : str * str -> Prop)
    `{!forall kv, Decision (P kv)} :
  (forall kv, kv ∈ T -> kv.1 ∈ upd <-> ~ P kv) ->
  add_rules T upd [] = flat_map (fun kv => new_rules kv.1 kv.2) (filter P T).
Proof.
  induction T as [|[n v] T IH]; intros Hall; [done|].
  cbn [add_rules]. rewrite add_rules_app.
  assert (IH' : add_rules T upd [] = flat_map (fun kv => new_rules kv.1 kv.2) (filter P T)).
  { apply IH. intros kv Hkv. apply Hall. by right. }
  destruct (decide (P (n, v))) as [HP|HP].
  - rewrite filter_cons_True by done. rewrite bool_decide_eq_false_2.
    + rewrite add_rules_app, IH'. simpl. reflexivity.
    + intros Hin. apply (Hall (n, v)) in Hin; [done|left].
  - rewrite filter_cons_False by done. rewrite bool_decide_eq_true_2.
    + rewrite <- add_rules_app. exact IH'.
    + apply (Hall (n, v)); [left|done].
Qed.

Lemma update_style_content_missing (S : str) (T : list (str * str)) :
  theme_ok T -> SOH ∉ S ->
  update_style_content S T = Some (S ++ missing_rules S T).
Proof.
  intros HT HS. destruct (update_style_content_plain S T HT HS) as (upd & -> & Hupd).
  f_equal. rewrite add_rules_app. f_equal. unfold missing_rules.
  apply add_rules_filter. intros [n v] Hin. cbn [fst].
  rewrite Hupd, named_rule_names. split.
  - intros [? _] ?. done.
  - intros Hn. split; [|by eapply dict_get_is_Some].
    by destruct (decide (n ∈ rule_names S)).
Qed.

(** X1. The text that [update_svg_style] produces from a style text without
    U+0001 and a theme of recognisable names and values: the text it was
    given, then the two rules of each colour of the theme that no rule of
    the text names, in the order of the theme. A colour that one rule names
    gets none, also when its other rule is missing. *)
Theorem update_style_content_appends (S : str) (T : list (str * str)) :
  theme_ok T -> SOH ∉ S ->
  update_style_content S T = Some (S ++ missing_rules S T).
Proof. apply update_style_content_missing. Qed.

Lemma update_style_content_appends_witness :
  update_style_content ".fill-red {fill:#000000;}" [("red", "#ff0000"); ("blue", "#0000ff")]
  = Some (".fill-red {fill:#000000;}"
          ++ missing_rules ".fill-red {fill:#000000;}" [("red", "#ff0000"); ("blue", "#0000ff")]).
Proof.
  apply (update_style_content_appends ".fill-red {fill:#000000;}"
           [("red", "#ff0000"); ("blue", "#0000ff")]).
  - apply Forall_cons. split.
    { split; [split; [discriminate|reflexivity]|].
      exists "ff0000". split; [reflexivity|]. split; [reflexivity|]. right. reflexivity. }
    apply Forall_cons. split; [|by apply Forall_nil].
    split; [split; [discriminate|reflexivity]|].
    exists "0000ff". split; [reflexivity|]. split; [reflexivity|]. right. reflexivity.
  - rewrite list_elem_of_In. vm_compute. intuition discriminate.
Defined.

(** X2. After the run every colour of the theme is named by a rule of the
    style text. *)
Theorem every_theme_color_has_a_rule (S S1 n v : str) (T : list (str * str)) :
  theme_ok T -> SOH ∉ S -> update_style_content S T = Some S1 ->
  (n, v) ∈ T -> n ∈ rule_names S1.
Proof.
  intros HT HS H1 Hin.
  destruct (update_style_content_plain S T HT HS) as (upd & H & Hupd).
  rewrite H in H1. injection H1 as <-.
  apply named_rule_names. unfold named. rewrite add_rules_app, finditer_app_rules.
  destruct (decide (n ∈ upd)) as [Hu|Hu].
  - apply Hupd in Hu as [(rt & c & Hu) _]. exists rt, c. apply elem_of_app. by left.
  - destruct (named_add_rules T upd n v [] HT Hin Hu) as (rt & c & Hr).
    rewrite app_nil_r in Hr. exists rt, c. apply elem_of_app. by right.
Qed.

Lemma every_theme_color_has_a_rule_witness :
  "blue" ∈ rule_names (".fill-red {fill:#000000;}"
          ++ missing_rules ".fill-red {fill:#000000;}" [("red", "#ff0000"); ("blue", "#0000ff")]).
Proof.
  apply (every_theme_color_has_a_rule ".fill-red {fill:#000000;}" _ "blue" "#0000ff"
           [("red", "#ff0000"); ("blue", "#0000ff")]).
  - apply Forall_cons. split.
    { split; [split; [discriminate|reflexivity]|].
      exists "ff0000". split; [reflexivity|]. split; [reflexivity|]. right. reflexivity. }
    apply Forall_cons. split; [|by apply Forall_nil].
    split; [split; [discriminate|reflexivity]|].
    exists "0000ff". split; [reflexivity|]. split; [reflexivity|]. right. reflexivity.
  - rewrite list_elem_of_In. vm_compute. intuition discriminate.
  - vm_compute. reflexivity.
  - apply list_elem_of_In. right. left. reflexivity.
Defined.

(** A text in which [css_pattern] finds no rule gets the rules of the whole
    theme, whatever the theme. *)
Lemma update_style_content_no_rule (S : str) (T : list (str * str)) :
  Re.finditer css_pattern S = [] ->
  update_style_content S T = Some (S ++ flat_map (fun kv => new_rules kv.1 kv.2) T).
Proof.
  intros H. unfold update_style_content. rewrite H. cbn [update_rules mbind option_bind].
  f_equal. rewrite add_rules_app. f_equal.
  rewrite (add_rules_filter T [] (fun _ => True)).
  - f_equal. induction T as [|kv T IH]; [done|]. by rewrite filter_cons_True, IH.
  - intros kv _. rewrite elem_of_nil. tauto.
Qed.

(** X3. A tree without a style element: [update_svg_style] puts one in
    front of the children of the root, with the tag of the root's namespace,
    the attribute [type] set to [text/css] and, as its text, the two rules of
    every colour of the theme. Nothing else of the tree changes, and no
    condition on the theme is needed. *)
Theorem style_element_created (tree : element) (T : list (str * str)) :
  list_find (fun c => tag c = style_tag tree) (children tree) = None ->
  update_svg_style tree T
  = Some (Element (tag tree) (attrib tree) (text tree)
            (Element (style_tag tree) {[ "type" := "text/css" ]}
               (Some (flat_map (fun kv => new_rules kv.1 kv.2) T)) []
             :: children tree)).
Proof.
  intros Hf. unfold update_svg_style, get_style_element. rewrite Hf.
  cbn [children lookup list_lookup text str_of_text].
  rewrite (update_style_content_no_rule [] T) by reflexivity.
  reflexivity.
Qed.

Lemma style_element_created_witness :
  update_svg_style (Element "{http://www.w3.org/2000/svg}svg" ∅ None [Element "rect" ∅ None []])
    [("dark_red", "#ff0000")]
  = Some (Element "{http://www.w3.org/2000/svg}svg" ∅ None
            (Element (style_tag (Element "{http://www.w3.org/2000/svg}svg" ∅ None
                                   [Element "rect" ∅ None []]))
               {[ "type" := "text/css" ]}
               (Some (flat_map (fun kv => new_rules kv.1 kv.2) [("dark_red", "#ff0000")])) []
             :: [Element "rect" ∅ None []])).
Proof.
  apply (style_element_created
           (Element "{http://www.w3.org/2000/svg}svg" ∅ None [Element "rect" ∅ None []])
           [("dark_red", "#ff0000")]).
  vm_compute. reflexivity.
Defined.



(** X5. A style element without text, as an empty [style] tag gives it: the
    text is read through [str], so the new text starts with [None], followed
    by the rules of every colour of the theme. *)
Theorem style_without_text_reads_None (tree e : element) (i : nat) (T : list (str * str)) :
  list_find (fun c => tag c = style_tag tree) (children tree) = Some (i, e) ->
  text e = None ->
  update_svg_style tree T
  = Some (Element (tag tree) (attrib tree) (text tree)
            (<[i := set_text ("None" ++ flat_map (fun kv => new_rules kv.1 kv.2) T) e]>
               (children tree))).
Proof.
  intros Hf Ht. unfold update_svg_style, get_style_element. rewrite Hf.
  apply list_find_Some in Hf as (Hi & _). rewrite Hi, Ht. cbn [str_of_text].
  by rewrite (update_style_content_no_rule "None" T) by (by vm_compute).
Qed.

Lemma style_without_text_reads_None_witness :
  update_svg_style (Element "svg" ∅ None [Element "style" ∅ None []]) [("red", "#ff0000")]
  = Some (Element "svg" ∅ None
            (<[0 := set_text ("None" ++ flat_map (fun kv => new_rules kv.1 kv.2)
                                          [("red", "#ff0000")])
                     (Element "style" ∅ None [])]>
               [Element "style" ∅ None []])).
Proof.
  apply (style_without_text_reads_None (Element "svg" ∅ None [Element "style" ∅ None []])
           (Element "style" ∅ None []) 0 [("red", "#ff0000")]).
  - vm_compute. reflexivity.
  - reflexivity.
Defined.

(** * Further properties of the colour tables *)




Lemma foldl_insert_notin {A} (f g : A -> str) (l : list A) (m : gmap str str) (x : str) :
  (forall a, a ∈ l -> f a <> x) ->
  foldl (fun m a => <[f a := g a]> m) m l !! x = m !! x.
Proof.
  revert m. induction l as [|a l IH]; intros m H; [done|].
  simpl. rewrite IH.
  - apply lookup_insert_ne. apply H. left.
  - intros b Hb. apply H. by right.
Qed.

Lemma foldl_insert_last {A} (f g : A -> str) (l1 l2 : list A) (a : A) (m : gmap str str) :
  (forall b, b ∈ l2 -> f b <> f a) ->
  foldl (fun m a => <[f a := g a]> m) m (l1 ++ a :: l2) !! f a = Some (g a).
Proof.
  intros H. rewrite foldl_app. simpl. rewrite foldl_insert_notin by done.
  apply lookup_insert_eq.
Qed.

Lemma update_mapping_all (themes : config) (m : gmap str str) :
  foldl (fun m t => update_mapping m t.2) m themes
  = foldl (fun m kv => <["#" ++ kv.2 := kv.1]> m) m (flat_map snd themes).
Proof.
  revert m. induction themes as [|[t its] themes IH]; intros m; [done|].
  simpl. rewrite foldl_app. apply IH.
Qed.

Lemma flat_map_load_all (themes : config) :
  flat_map snd (load_all_theme_colors themes) = prefixed (flat_map snd themes).
Proof.
  unfold load_all_theme_colors, prefixed. induction themes as [|[t its] themes IH]; [done|].
  simpl in *. by rewrite IH, map_app.
Qed.

Lemma load_color_mapping_fold (mapping themes : config) (cm : gmap str str) :
  load_color_mapping mapping themes = Ok cm ->
  exists items, section mapping "color.mapping" = Some items /\
    cm = foldl (fun m kv => <["#" ++ kv.2 := kv.1]> m)
           (foldl (fun m kv => <[kv.1 := kv.2]> m) ∅ items)
           (prefixed (flat_map snd themes)).
Proof.
  unfold load_color_mapping. destruct (section mapping "color.mapping") as [items|]; [|done].
  intros [= <-]. exists items. split; [done|].
  by rewrite update_mapping_all, flat_map_load_all.
Qed.

(** X7. An entry of the section [color.mapping] whose key is not a colour of
    a theme with two number signs in front is in the table as the file has
    it. *)
Theorem load_color_mapping_base (mapping themes : config) (items : list (str * str))
    (k v : str) :
  section mapping "color.mapping" = Some items -> NoDup items.*1 -> (k, v) ∈ items ->
  (forall key val, (key, val) ∈ flat_map snd themes -> k <> "#" ++ "#" ++ val) ->
  exists cm, load_color_mapping mapping themes = Ok cm /\ cm !! k = Some v.
Proof.
  intros Hs Hnd Hin Hother.
  destruct (load_color_mapping mapping themes) as [cm|e] eqn:Hcm.
  2:{ unfold load_color_mapping in Hcm. by rewrite Hs in Hcm. }
  exists cm. split; [done|].
  apply load_color_mapping_fold in Hcm as (items' & Hs' & ->).
  rewrite Hs in Hs'. injection Hs' as <-.
  rewrite foldl_insert_notin.
  - apply list_elem_of_split in Hin as (l1 & l2 & ->).
    apply (foldl_insert_last fst snd l1 l2 (k, v)).
    intros [k' v'] Hb Heq. simpl in Heq. subst k'.
    rewrite fmap_app, fmap_cons in Hnd. apply NoDup_app in Hnd as (_ & _ & Hnd).
    apply NoDup_cons in Hnd as [Hnd _]. apply Hnd.
    apply list_elem_of_fmap. by exists (k, v').
  - intros [key val] Hp Heq. unfold prefixed in Hp.
    apply list_elem_of_fmap in Hp as ([key' val'] & [= -> ->] & Hp). simpl in Heq.
    by apply (Hother key' val').
Qed.

Lemma load_color_mapping_base_witness :
  exists cm, load_color_mapping mapping_example themes_example = Ok cm /\
             cm !! "black" = Some "black".
Proof.
  apply (load_color_mapping_base mapping_example themes_example [("black", "black")]
           "black" "black").
  - reflexivity.
  - apply NoDup_cons. split; [apply not_elem_of_nil|apply NoDup_nil_2].
  - left.
  - intros key val Hin Heq. discriminate Heq.
Defined.



(** * Further properties of the rewriter *)

Lemma modify_styles_kept (cm : gmap str str) (l u u' : list str) (f k f' k' : Attribute) :
  modify_styles cm l u f k = Ok (u', f', k') -> u' = u ++ kept_styles cm l.
Proof.
  revert u f k. induction l as [|seg l IH]; intros u f k H.
  - injection H as <- _ _. by rewrite app_nil_r.
  - cbn [modify_styles] in H. unfold kept_styles. 
    destruct (split ":" seg) as [|attr [|val [|? ?]]] eqn:E; try done.
    destruct (bool_decide (strip attr = "fill") && bool_decide (is_Some (cm !! strip val))) eqn:E1;
      [|destruct (bool_decide (strip attr = "stroke") && bool_decide (is_Some (cm !! strip val))) eqn:E2].
    + rewrite filter_cons_False.
      * by apply IH in H.
      * unfold taken. rewrite E. apply andb_true_iff in E1 as [-> ->]. done.
    + rewrite filter_cons_False.
      * by apply IH in H.
      * unfold taken. rewrite E. apply andb_true_iff in E2 as [-> ->]. by rewrite orb_true_r.
    + rewrite filter_cons_True.
      * apply IH in H. by rewrite <- app_assoc in H.
      * unfold taken. rewrite E. rewrite andb_orb_distrib_l, E1, E2. done.
Qed.

Lemma modify_styles_raises_iff (cm : gmap str str) (l u : list str) (f k : Attribute) :
  modify_styles cm l u f k = Raise ValueError <->
  exists seg, seg ∈ l /\ length (split ":" seg) <> 2.
Proof.
  split.
  - intros H. destruct (decide (Forall (fun seg => length (split ":" seg) = 2) l)) as [Hall|Hall].
    + destruct (modify_styles_total cm l u f k Hall) as [r Hr]. congruence.
    + apply not_Forall_Exists in Hall; [|intros x; apply _].
      apply Exists_exists in Hall as (seg & Hin & Hseg). by exists seg.
  - intros (seg & Hin & Hseg). revert u f k.
    induction l as [|x l IH]; intros u f k; [by apply elem_of_nil in Hin|].
    cbn [modify_styles]. apply elem_of_cons in Hin as [<-|Hin].
    + by destruct (split ":" seg) as [|attr [|val [|? ?]]].
    + destruct (split ":" x) as [|attr [|val [|? ?]]]; try done.
      repeat case_match; by apply IH.
Qed.

Lemma modify_style_attribute_raises_iff (cm : gmap str str) (s : str) (f k : Attribute) :
  modify_style_attribute cm s f k = Raise ValueError <->
  strip s <> [] /\ exists seg, seg ∈ split ";" (strip s) /\ length (split ":" seg) <> 2.
Proof.
  unfold modify_style_attribute. case_bool_decide as Hs.
  - split; [done|]. by intros [? _].
  - destruct (modify_styles cm (split ";" (strip s)) [] f k) as [r|e] eqn:Hm;
      cbn [mbind result_bind rbind].
    + split; [done|]. intros [_ Hex].
      apply (modify_styles_raises_iff cm _ [] f k) in Hex. congruence.
    + pose proof (modify_styles_exn _ _ _ _ _ _ Hm) as ->.
      split; [|done]. intros _. split; [done|]. by apply (modify_styles_raises_iff cm _ [] f k).
Qed.

(** X9. [modify_style_attribute] raises exactly when the style, with the
    white space around it stripped, is not empty and one of its parts
    between semicolons does not split on the colon into exactly two parts;
    the error is [ValueError]. Neither the mapping nor the two [Attribute]
    objects play a part in it. *)
Theorem modify_style_attribute_error_iff (cm : gmap str str) (s : str) (f k : Attribute) :
  (modify_style_attribute cm s f k = Raise ValueError <->
   strip s <> [] /\ exists seg, seg ∈ split ";" (strip s) /\ length (split ":" seg) <> 2) /\
  (forall e, modify_style_attribute cm s f k = Raise e -> e = ValueError).
Proof.
  split; [apply modify_style_attribute_raises_iff|].
  unfold modify_style_attribute. case_bool_decide as Hs; [done|].
  destruct (modify_styles cm (split ";" (strip s)) [] f k) as [r|e'] eqn:Hm; [done|].
  intros e [= <-]. by apply (modify_styles_exn _ _ _ _ _ _ Hm).
Qed.

Lemma resolve_no_style (cm a : gmap str str) :
  a !! "style" = None ->
  resolve cm a = Ok (a, plain new_attribute (a !! "fill"), plain new_attribute (a !! "stroke")).
Proof.
  intros H. unfold resolve. rewrite H. cbn [mbind result_bind rbind].
  by destruct (a !! "fill"), (a !! "stroke").
Qed.

Lemma replace_color_element_raises_iff (si : list str -> list str) (cm a : gmap str str) :
  replace_color_element si cm a = Raise ValueError <->
  exists s, a !! "style" = Some s /\
            modify_style_attribute cm s new_attribute new_attribute = Raise ValueError.
Proof.
  destruct (a !! "style") as [s|] eqn:Hs.
  - destruct (modify_style_attribute cm s new_attribute new_attribute) as [[[new f] k]|e] eqn:Hm.
    + rewrite (replace_color_element_eq si cm a _ _ _ (resolve_eq cm a s new f k Hs Hm)).
      split; [done|]. intros (s' & [= <-] & H). congruence.
    + assert (replace_color_element si cm a = Raise e) as ->.
      { unfold replace_color_element, resolve. rewrite Hs, Hm. done. }
      split.
      * intros [= ->]. by exists s.
      * intros (s' & [= <-] & H). congruence.
  - rewrite (replace_color_element_eq si cm a _ _ _ (resolve_no_style cm a Hs)).
    split; [done|]. by intros (s' & ? & _).
Qed.

Lemma replace_color_raises_iff (si : list str -> list str) (cm : gmap str str)
    (doc : list (gmap str str)) :
  replace_color si cm doc = Raise ValueError <->
  exists a, a ∈ doc /\ replace_color_element si cm a = Raise ValueError.
Proof.
  split.
  - induction doc as [|b doc IH]; [done|]. cbn [replace_color].
    destruct (replace_color_element si cm b) as [b'|e] eqn:Hb; cbn [mbind result_bind rbind].
    + destruct (replace_color si cm doc) as [rest|e] eqn:Hr; cbn [mbind result_bind rbind]; [done|].
      intros [= ->]. destruct IH as (a & Ha & H); [done|]. exists a. split; [by right|done].
    + intros [= ->]. exists b. split; [left|done].
  - intros (a & Ha & H). by apply (replace_color_raises si cm doc a).
Qed.

Lemma replace_color_exn (si : list str -> list str) (cm : gmap str str)
    (doc : list (gmap str str)) (e : exn) :
  replace_color si cm doc = Raise e -> e = ValueError.
Proof.
  induction doc as [|b doc IH]; [done|]. cbn [replace_color].
  destruct (replace_color_element si cm b) as [b'|e'] eqn:Hb; cbn [mbind result_bind rbind].
  - destruct (replace_color si cm doc) as [rest|e'] eqn:Hr; cbn [mbind result_bind rbind]; [done|].
    intros [= <-]. by apply IH.
  - intros [= <-]. by apply (replace_color_element_exn si cm b).
Qed.

(** X10. [replace_color] fails exactly when some element of the document has
    a style that is not blank and holds, between two semicolons, a part that
    does not split on the colon into exactly two parts. The error is
    [ValueError]; whether the run fails depends neither on the colour mapping
    nor on the order of the sets. *)
Theorem replace_color_error_iff (si : list str -> list str) (cm : gmap str str)
    (doc : list (gmap str str)) :
  (replace_color si cm doc = Raise ValueError <->
   exists a s seg, a ∈ doc /\ a !! "style" = Some s /\ strip s <> [] /\
                   seg ∈ split ";" (strip s) /\ length (split ":" seg) <> 2) /\
  (forall e, replace_color si cm doc = Raise e -> e = ValueError).
Proof.
  split; [|apply replace_color_exn].
  rewrite replace_color_raises_iff. split.
  - intros (a & Ha & H). apply replace_color_element_raises_iff in H as (s & Hs & H).
    apply modify_style_attribute_raises_iff in H as (Hne & seg & Hseg & Hl).
    by exists a, s, seg.
  - intros (a & s & seg & Ha & Hs & Hne & Hseg & Hl). exists a. split; [done|].
    apply replace_color_element_raises_iff. exists s. split; [done|].
    apply modify_style_attribute_raises_iff. split; [done|]. by exists seg.
Qed.

(** X11. A style that ends in a semicolon, as [fill:red;] does, is fatal: the
    part after the last semicolon is empty and does not unpack into a
    property and a value. *)
Theorem trailing_semicolon_is_fatal (si : list str -> list str) (cm a : gmap str str)
    (doc : list (gmap str str)) (s x : str) :
  a ∈ doc -> a !! "style" = Some s -> strip s = x ++ ";" ->
  modify_style_attribute cm s new_attribute new_attribute = Raise ValueError /\
  replace_color si cm doc = Raise ValueError.
Proof.
  intros Ha Hs Hx.
  assert (modify_style_attribute cm s new_attribute new_attribute = Raise ValueError) as Hm.
  { apply modify_style_attribute_raises_iff. rewrite Hx. split; [by destruct x|].
    exists []. rewrite split_snoc_sep. split; [|simpl; lia].
    apply elem_of_app. right. left. }
  split; [done|]. apply replace_color_raises_iff. exists a. split; [done|].
  apply replace_color_element_raises_iff. by exists s.
Qed.

Lemma trailing_semicolon_is_fatal_witness :
  modify_style_attribute colors_example "fill:#ff0000;" new_attribute new_attribute
    = Raise ValueError /\
  replace_color insertion_order colors_example [∅; styled "fill:#ff0000;"] = Raise ValueError.
Proof.
  apply (trailing_semicolon_is_fatal insertion_order colors_example (styled "fill:#ff0000;")
           [∅; styled "fill:#ff0000;"] "fill:#ff0000;" "fill:#ff0000").
  - right. left.
  - by vm_compute.
  - by vm_compute.
Defined.

Lemma split_join_sep (sep : ascii) (L : list str) :
  L <> [] -> Forall (fun t => sep ∉ t) L -> split sep (join [sep] L) = L.
Proof.
  intros Hne HL. induction HL as [|x L Hx HL IH]; [done|].
  destruct L as [|y L].
  - simpl. by apply split_notin.
  - rewrite join_cons by done. rewrite split_app_l by done.
    change ([sep] ++ join [sep] (y :: L)) with (sep :: join [sep] (y :: L)).
    cbn [split]. rewrite eqc_refl. cbn [hd tl]. rewrite IH by done. by rewrite app_nil_r.
Qed.

Lemma kept_styles_all (cm : gmap str str) (l : list str) :
  Forall (fun seg => taken cm seg = false) l -> kept_styles cm l = l.
Proof.
  intros H. unfold kept_styles. induction H as [|x l Hx H IH]; [done|].
  by rewrite filter_cons_True, IH.
Qed.

Lemma modify_style_attribute_kept (cm : gmap str str) (s new : str) (f k f' k' : Attribute) :
  modify_style_attribute cm s f k = Ok (new, f', k') ->
  new = join ";" (kept_styles cm (split ";" (strip s))).
Proof.
  intros H. unfold modify_style_attribute in H. case_bool_decide as Hs.
  - injection H as <- _ _. rewrite Hs. by vm_compute.
  - destruct (modify_styles cm (split ";" (strip s)) [] f k) as [[[u f1] k1]|e] eqn:Hm; [|done].
    cbn [mbind result_bind rbind fst snd] in H. injection H as <- _ _.
    by rewrite (modify_styles_kept _ _ _ _ _ _ _ _ Hm).
Qed.

(** X12. The style that [modify_style_attribute] returns: the declarations
    of the stripped style that it does not take out, in their order and as
    they were written, joined by semicolons. Split on the semicolon again it
    gives back exactly those declarations (when one is left), and when no
    declaration is taken out it is the stripped style itself. *)
Theorem style_rebuilt (cm : gmap str str) (s new : str) (f k f' k' : Attribute) :
  modify_style_attribute cm s f k = Ok (new, f', k') ->
  new = join ";" (kept_styles cm (split ";" (strip s))) /\
  (kept_styles cm (split ";" (strip s)) <> [] ->
   split ";" new = kept_styles cm (split ";" (strip s))) /\
  (Forall (fun seg => taken cm seg = false) (split ";" (strip s)) -> new = strip s).
Proof.
  intros H.
  rewrite (modify_style_attribute_kept cm s new f k f' k' H).
  split; [done|]. split.
  - intros Hne. apply split_join_sep; [done|].
    apply Forall_forall. intros seg [_ Hseg]%list_elem_of_filter.
    by apply (split_no_sep ";" (strip s) seg).
  - intros Hall. rewrite kept_styles_all by done. apply (join_split ";").
Qed.

Lemma style_rebuilt_witness :
  "opacity:1;stroke-width:2"
    = join ";" (kept_styles colors_example (split ";" (strip " fill:#ff0000;opacity:1; stroke : none;stroke-width:2 "))) /\
  (kept_styles colors_example (split ";" (strip " fill:#ff0000;opacity:1; stroke : none;stroke-width:2 ")) <> [] ->
   split ";" "opacity:1;stroke-width:2"
   = kept_styles colors_example (split ";" (strip " fill:#ff0000;opacity:1; stroke : none;stroke-width:2 "))) /\
  (Forall (fun seg => taken colors_example seg = false)
     (split ";" (strip " fill:#ff0000;opacity:1; stroke : none;stroke-width:2 ")) ->
   "opacity:1;stroke-width:2" = strip " fill:#ff0000;opacity:1; stroke : none;stroke-width:2 ").
Proof.
  apply (style_rebuilt colors_example " fill:#ff0000;opacity:1; stroke : none;stroke-width:2 "
           "opacity:1;stroke-width:2" new_attribute new_attribute
           {| is_set := true; value := Some "#ff0000" |} {| is_set := true; value := None |}).
  by vm_compute.
Defined.

Lemma replace_color_length (si : list str -> list str) (cm : gmap str str)
    (doc doc' : list (gmap str str)) :
  replace_color si cm doc = Ok doc' -> length doc' = length doc.
Proof.
  revert doc'. induction doc as [|b doc IH]; intros doc' H.
  - by injection H as <-.
  - cbn [replace_color] in H.
    destruct (replace_color_element si cm b) as [b'|] eqn:Hb; [|done].
    destruct (replace_color si cm doc) as [rest'|] eqn:Hrest; [|done].
    cbn [mbind result_bind rbind] in H. injection H as <-. simpl. f_equal. by apply IH.
Qed.

Lemma resolve_ok (si : list str -> list str) (cm a a' : gmap str str) :
  replace_color_element si cm a = Ok a' ->
  exists a1 fa sa, resolve cm a = Ok (a1, fa, sa).
Proof.
  intros H. destruct (resolve cm a) as [[[a1 fa] sa]|e] eqn:Hr; [by exists a1, fa, sa|].
  unfold replace_color_element in H. by rewrite Hr in H.
Qed.

Lemma lookup_drop_if (cm : gmap str str) (at_ : Attribute) (k : str) (a : gmap str str) :
  drop_if cm at_ k a !! k = a !! k \/ drop_if cm at_ k a !! k = None.
Proof.
  unfold drop_if. destruct (matched cm at_); [right; apply lookup_delete_eq|by left].
Qed.

Lemma lookup_write_classes (si : list str -> list str) (cl : list str) (a : gmap str str) :
  is_Some (a !! "class") -> is_Some (write_classes si cl a !! "class").
Proof.
  intros H. unfold write_classes. destruct (0 <? length cl); [|done].
  rewrite lookup_insert_eq. by eexists.
Qed.

(** X13. What a run of [replace_color] leaves alone. The document keeps its
    elements, and for each element: every attribute other than [style],
    [fill], [stroke] and [class] is as before; [fill] and [stroke] are as
    before or removed, never given another value; a [style] attribute is
    there afterwards exactly when it was there before; and a [class]
    attribute that was there is still there. *)
Theorem replace_color_frame (si : list str -> list str) (cm : gmap str str)
    (doc doc' : list (gmap str str)) :
  replace_color si cm doc = Ok doc' ->
  length doc' = length doc /\
  forall (i : nat) (a : gmap str str), doc !! i = Some a ->
    exists a', doc' !! i = Some a' /\
      (forall key, key ∉ ["style"; "fill"; "stroke"; "class"] -> a' !! key = a !! key) /\
      (a' !! "fill" = a !! "fill" \/ a' !! "fill" = None) /\
      (a' !! "stroke" = a !! "stroke" \/ a' !! "stroke" = None) /\
      (is_Some (a' !! "style") <-> is_Some (a !! "style")) /\
      (is_Some (a !! "class") -> is_Some (a' !! "class")).
Proof.
  intros H. split; [by apply (replace_color_length si cm)|]. intros i a Hi.
  destruct (replace_color_lookup si cm doc doc' a i H Hi) as (a' & Hi' & Ha).
  exists a'. split; [done|].
  destruct (resolve_ok si cm a a' Ha) as (a1 & fa & sa & Hr).
  rewrite (replace_color_element_eq si cm a a1 fa sa Hr) in Ha. injection Ha as <-.
  destruct (resolve_inv cm a a1 fa sa Hr) as (Hc & Hf & Hk & Hst).
  assert (forall key, key <> "style" -> a1 !! key = a !! key) as Hother.
  { intros key Hkey. destruct Hst as [[_ ->]|(s & new & f & k & _ & _ & ->)]; [done|].
    by rewrite lookup_insert_ne. }
  assert (is_Some (a1 !! "style") <-> is_Some (a !! "style")) as Hstyle.
  { destruct Hst as [[_ ->]|(s & new & f & k & Hs & _ & ->)]; [done|].
    rewrite lookup_insert_eq, Hs. split; by eexists. }
  split; [|split; [|split; [|split]]].
  - intros key Hkey.
    rewrite lookup_write_classes_ne by (intros ->; apply Hkey; apply list_elem_of_In; simpl; tauto).
    rewrite !lookup_drop_if_ne by (intros <-; apply Hkey; apply list_elem_of_In; simpl; tauto).
    apply Hother. intros ->. apply Hkey. apply list_elem_of_In. simpl. tauto.
  - rewrite lookup_write_classes_ne by done. rewrite lookup_drop_if_ne by done.
    rewrite <- Hf. apply lookup_drop_if.
  - rewrite lookup_write_classes_ne by done. rewrite <- Hk.
    destruct (lookup_drop_if cm sa "stroke" (drop_if cm fa "fill" a1)) as [->| ->]; [|by right].
    left. by rewrite lookup_drop_if_ne.
  - rewrite lookup_write_classes_ne by done. by rewrite !lookup_drop_if_ne.
  - intros Hcl. apply lookup_write_classes. rewrite !lookup_drop_if_ne by done. by rewrite Hc.
Qed.

Lemma replace_color_frame_witness :
  length [<["class" := "fill-red"]> (delete "fill" (<["style" := ""]> (styled "fill:#ff0000")))]
  = length [styled "fill:#ff0000"] /\
  forall (i : nat) (a : gmap str str), [styled "fill:#ff0000"] !! i = Some a ->
    exists a',
      [<["class" := "fill-red"]> (delete "fill" (<["style" := ""]> (styled "fill:#ff0000")))] !! i
      = Some a' /\
      (forall key, key ∉ ["style"; "fill"; "stroke"; "class"] -> a' !! key = a !! key) /\
      (a' !! "fill" = a !! "fill" \/ a' !! "fill" = None) /\
      (a' !! "stroke" = a !! "stroke" \/ a' !! "stroke" = None) /\
      (is_Some (a' !! "style") <-> is_Some (a !! "style")) /\
      (is_Some (a !! "class") -> is_Some (a' !! "class")).
Proof.
  apply (replace_color_frame insertion_order colors_example [styled "fill:#ff0000"]).
  vm_compute. reflexivity.
Defined.

(** X14. The rewriter takes no class away: a token that is not empty and that
    the class attribute of an element holds before its turn is a token of
    its class attribute afterwards, whatever the names of the mapping are and
    in whatever order the set is written. *)
Theorem replace_color_keeps_classes (si : list str -> list str) (cm a a' : gmap str str)
    (t : str) :
  set_order si -> replace_color_element si cm a = Ok a' ->
  t <> [] -> t ∈ class_tokens a -> t ∈ class_tokens a'.
Proof.
  intros Hsi Ha Ht Hin.
  destruct (resolve_ok si cm a a' Ha) as (a1 & fa & sa & Hr).
  rewrite (replace_color_element_eq si cm a a1 fa sa Hr) in Ha. injection Ha as <-.
  destruct (resolve_inv cm a a1 fa sa Hr) as (Hc & _).
  rewrite (class_tokens_eq a1 a Hc).
  rewrite <- (class_tokens_stripped a t Hin).
  apply token_written; [done| | |].
  - apply elem_of_app. by left.
  - pose proof (class_tokens_spaceless a) as Hsp.
    unfold spaceless in Hsp. rewrite Forall_forall in Hsp. by apply Hsp.
  - by rewrite (class_tokens_stripped a t Hin).
Qed.

Lemma replace_color_keeps_classes_witness :
  "big" ∈ class_tokens (<["class" := "big fill-light blue"]> (∅ : gmap str str)).
Proof.
  apply (replace_color_keeps_classes insertion_order (<["#00f" := "light blue"]> ∅)
           (<["class" := "big"]> (<["fill" := "#00f"]> ∅)) _ "big").
  - exact insertion_order_set_order.
  - vm_compute. reflexivity.
  - discriminate.
  - vm_compute. left.
Defined.

Lemma matched_plain (cm : gmap str str) (v : str) :
  matched cm (plain new_attribute (Some v)) = cm !! v.
Proof. done. Qed.

(** X15. An element without a style attribute and with a plain [fill] (or
    [stroke]) of value [v]. When [v] is a key of the mapping, with the name
    [n], the attribute is removed and, for a name without a blank, the class
    [fill-n] (or [stroke-n]) is among the classes afterwards. When [v] is no
    key of the mapping, the attribute stays as it is. The value is looked up
    as it is written, white space included. *)
Theorem plain_attribute_rewritten (si : list str -> list str) (cm a : gmap str str)
    (p v : str) :
  p = "fill" \/ p = "stroke" -> set_order si ->
  a !! "style" = None -> a !! p = Some v ->
  exists a', replace_color_element si cm a = Ok a' /\
    (forall name, cm !! v = Some name ->
       a' !! p = None /\
       (" "%char ∉ name -> strip (p ++ "-" ++ name) ∈ class_tokens a')) /\
    (cm !! v = None -> a' !! p = Some v).
Proof.
  intros Hp Hsi Hs Hv. eexists.
  split; [apply (replace_color_element_eq si cm a _ _ _ (resolve_no_style cm a Hs))|].
  destruct Hp as [-> | ->]; rewrite Hv.
  - split.
    + intros name Hn. unfold fill_part, drop_if at 2. rewrite matched_plain, Hn. split.
      * rewrite lookup_write_classes_ne by done. rewrite lookup_drop_if_ne by done.
        apply lookup_delete_eq.
      * intros Hsp. apply token_written; [done| | |by apply strip_nonempty].
        -- apply elem_of_app. right. apply elem_of_app. left. left.
        -- intros Hin. apply Hsp. rewrite list_elem_of_In in Hin |- *.
           simpl in Hin. intuition discriminate.
    + intros Hn. rewrite lookup_write_classes_ne by done. rewrite lookup_drop_if_ne by done.
      unfold drop_if. by rewrite matched_plain, Hn.
  - split.
    + intros name Hn. unfold stroke_part, drop_if at 1. rewrite matched_plain, Hn. split.
      * rewrite lookup_write_classes_ne by done. apply lookup_delete_eq.
      * intros Hsp. apply token_written; [done| | |by apply strip_nonempty].
        -- apply elem_of_app. right. apply elem_of_app. right. left.
        -- intros Hin. apply Hsp. rewrite list_elem_of_In in Hin |- *.
           simpl in Hin. intuition discriminate.
    + intros Hn. rewrite lookup_write_classes_ne by done.
      unfold drop_if at 1. rewrite matched_plain, Hn. by rewrite lookup_drop_if_ne.
Qed.

Lemma plain_attribute_rewritten_witness :
  exists a', replace_color_element insertion_order colors_example
               (<["stroke" := "#00ff00"]> ∅) = Ok a' /\
    (forall name, colors_example !! "#00ff00" = Some name ->
       a' !! "stroke" = None /\
       (" "%char ∉ name -> strip ("stroke" ++ "-" ++ name) ∈ class_tokens a')) /\
    (colors_example !! "#00ff00" = None -> a' !! "stroke" = Some "#00ff00").
Proof.
  apply (plain_attribute_rewritten insertion_order colors_example
           (<["stroke" := "#00ff00"]> ∅) "stroke" "#00ff00").
  - by right.
  - exact insertion_order_set_order.
  - by vm_compute.
  - by vm_compute.
Defined.

Lemma fill_unresolved (cm : gmap str str) (l u u' : list str) (f k f' k' : Attribute) :
  modify_styles cm l u f k = Ok (u', f', k') ->
  (forall seg, seg ∈ l -> ~ resolving cm "fill" seg) ->
  value f' = value f /\
  (is_set f = true \/
   (exists seg attr val, seg ∈ l /\ split ":" seg = [attr; val] /\ strip attr = "fill" /\
                         is_Some (cm !! strip val)) ->
   is_set f' = true).
Proof.
  revert u f k. induction l as [|style l IH]; intros u f k H Hn.
  - injection H as <- <- <-. split; [done|]. intros [?|(seg & ? & ? & Hin & _)]; [done|].
    by apply elem_of_nil in Hin.
  - cbn [modify_styles] in H.
    assert (Hn' : forall seg, seg ∈ l -> ~ resolving cm "fill" seg).
    { intros seg ?. apply Hn. by right. }
    destruct (split ":" style) as [|attr [|val [|]]] eqn:Hsp; try done.
    destruct (bool_decide (strip attr = "fill") && bool_decide (is_Some (cm !! strip val))) eqn:E1.
    + apply andb_true_iff in E1 as [Ha%bool_decide_eq_true Hv%bool_decide_eq_true].
      apply IH in H as [-> Hset]; [|done]. cbn [value is_set] in *. split.
      * destruct (decide (strip val = "none")) as [Hnone|Hnone].
        { rewrite bool_decide_eq_false_2; [done|]. by intros ?. }
        exfalso. apply (Hn style); [left|]. by exists attr, val.
      * intros _. apply Hset. by left.
    + assert (value f' = value f /\
              (is_set f = true \/
               (exists seg attr val, seg ∈ l /\ split ":" seg = [attr; val] /\
                  strip attr = "fill" /\ is_Some (cm !! strip val)) -> is_set f' = true)) as [Hval Hset].
      { destruct (bool_decide (strip attr = "stroke") && bool_decide (is_Some (cm !! strip val)));
          by apply IH in H. }
      split; [done|]. intros [Hf|(seg & attr' & val' & Hin & Hseg & Ha & Hv)]; [by apply Hset; left|].
      apply elem_of_cons in Hin as [->|Hin].
      * rewrite Hsp in Hseg. injection Hseg as <- <-.
        rewrite bool_decide_eq_true_2 in E1 by done. by rewrite bool_decide_eq_true_2 in E1.
      * apply Hset. right. by exists seg, attr', val'.
Qed.

(** X16. A style with a declaration [fill:none], [none] being a key of the
    mapping, and with no fill declaration of another mapped value: the plain
    [fill] attribute of the element is not read. It stays on the element
    whatever its value, and the class attribute that is written does not
    depend on it, so that also a plain fill that is a key of the mapping
    gets no class. *)
Theorem style_none_shadows_plain_fill (si : list str -> list str) (cm a : gmap str str)
    (s seg attr val : str) :
  a !! "style" = Some s -> is_Some (cm !! "none") ->
  seg ∈ split ";" (strip s) -> split ":" seg = [attr; val] ->
  strip attr = "fill" -> strip val = "none" ->
  (forall seg', seg' ∈ split ";" (strip s) -> ~ resolving cm "fill" seg') ->
  parses (split ";" (strip s)) ->
  exists c, forall v2, exists a',
    replace_color_element si cm (<["fill" := v2]> a) = Ok a' /\
    a' !! "fill" = Some v2 /\ a' !! "class" = c.
Proof.
  intros Hs Hnone Hseg Hsp Ha Hv Hres Hpar.
  assert (exists new f k, modify_style_attribute cm s new_attribute new_attribute = Ok (new, f, k) /\
            is_set f = true /\ value f = None) as (new & f & k & Hm & Hset & Hval).
  { unfold modify_style_attribute. case_bool_decide as He.
    { rewrite He in Hseg. apply list_elem_of_In in Hseg. simpl in Hseg.
      destruct Hseg as [<-|[]]. done. }
    destruct (modify_styles_total cm _ [] new_attribute new_attribute Hpar) as [[[u1 f1] k1] H1].
    rewrite H1. cbn [mbind result_bind rbind fst snd].
    apply fill_unresolved in H1 as [H1 H2]; [|done].
    eexists _, _, _. split; [done|]. split; [|done].
    apply H2. right. exists seg, attr, val. by rewrite Hv. }
  set (cl := class_tokens a ++ fill_part cm f ++ stroke_part cm (plain k (a !! "stroke"))).
  exists (if 0 <? length cl then Some (strip (join " " (si cl))) else a !! "class").
  intros v2. eexists. split.
  { apply replace_color_element_eq.
    apply (resolve_eq cm (<["fill" := v2]> a) s new f k); [by rewrite lookup_insert_ne|done]. }
  rewrite lookup_insert_eq, plain_set by done. rewrite (lookup_insert_ne _ "fill" "stroke") by done.
  assert (matched cm f = None) as Hmf by (unfold matched; by rewrite Hset, Hval).
  split.
  - rewrite lookup_write_classes_ne by done. rewrite lookup_drop_if_ne by done.
    unfold drop_if. rewrite Hmf. rewrite lookup_insert_ne by done. apply lookup_insert_eq.
  - rewrite (class_tokens_eq _ a) by (by rewrite !lookup_insert_ne).
    fold cl. unfold write_classes. destruct (0 <? length cl); [by rewrite lookup_insert_eq|].
    rewrite lookup_drop_if_ne by done. unfold drop_if. rewrite Hmf.
    by rewrite !lookup_insert_ne.
Qed.

Lemma style_none_shadows_plain_fill_witness :
  exists c, forall v2, exists a',
    replace_color_element insertion_order colors_example
      (<["fill" := v2]> (styled "fill: none;opacity:1")) = Ok a' /\
    a' !! "fill" = Some v2 /\ a' !! "class" = c.
Proof.
  apply (style_none_shadows_plain_fill insertion_order colors_example
           (styled "fill: none;opacity:1") "fill: none;opacity:1" "fill: none" "fill" " none").
  - by vm_compute.
  - exists "none". by vm_compute.
  - apply list_elem_of_In. vm_compute. by left.
  - by vm_compute.
  - by vm_compute.
  - by vm_compute.
  - intros seg' Hin (attr & val & Hsp & Ha & _ & Hn).
    apply list_elem_of_In in Hin. vm_compute in Hin.
    destruct Hin as [<-|[<-|[]]]; vm_compute in Hsp; injection Hsp as <- <-.
    + by apply Hn.
    + discriminate Ha.
  - apply Forall_cons. split; [by vm_compute|]. apply Forall_cons. split; [by vm_compute|].
    apply Forall_nil. done.
Defined.

(** * Further properties of the patterns *)

Lemma many1_parts (f : ascii -> bool) (s y z : str) :
  (y, z) ∈ Re.many1 f s -> s = y ++ z /\ y <> [].
Proof.
  revert y z. induction s as [|c s IH]; intros y z H; [by apply elem_of_nil in H|].
  cbn [Re.many1] in H. destruct (f c); [|by apply elem_of_nil in H].
  apply elem_of_app in H as [H|H].
  - apply list_elem_of_fmap in H as ([y' z'] & [= -> ->] & H).
    apply IH in H as [-> _]. done.
  - apply list_elem_of_singleton in H as [= -> ->]. done.
Qed.

Lemma flat_map_nil {A B} (g : A -> list B) (l : list A) :
  (forall a, a ∈ l -> g a = []) -> flat_map g l = [].
Proof.
  induction l as [|a l IH]; intros H; [done|]. simpl.
  rewrite (H a) by left. apply IH. intros b Hb. apply H. by right.
Qed.

(** The greedy run followed by [k]: when [k] accepts after the run [x] and
    after no longer run, the first match is the one after [x]. *)
Lemma many1_bind_first {B} (f : ascii -> bool) (k : str -> Re.parser B) (x r : str)
    (v : B * str) (l : list (B * str)) :
  x <> [] -> forallb f x = true ->
  (forall y z, x ++ r = y ++ z -> length x < length y -> k y z = []) ->
  k x r = v :: l ->
  exists l', (Re.many1 f ≫= k) (x ++ r) = v :: l'.
Proof.
  revert k. induction x as [|c x IH]; intros k Hne Hf Hlong Hk; [done|].
  cbn [forallb] in Hf. apply andb_true_iff in Hf as [Hc Hx].
  unfold mbind, Re.parser_bind, Re.bind. cbn [app Re.many1]. rewrite Hc.
  rewrite flat_map_app. cbn [flat_map fst snd]. rewrite app_nil_r.
  rewrite flat_map_concat_map, map_map, <- flat_map_concat_map. cbn [fst snd].
  destruct x as [|d x].
  - rewrite flat_map_nil.
    + cbn [app]. rewrite Hk. by eexists.
    + intros [y z] Hyz. cbn [fst snd]. apply many1_parts in Hyz as [Hr Hy].
      apply Hlong; [simpl in *; by rewrite Hr|]. destruct y; [done|]. simpl. lia.
  - destruct (IH (fun y => k (c :: y))) as (l' & Hl'); [done|done| |done|].
    + intros y z Hyz Hlen. apply Hlong; [by rewrite <- app_comm_cons, Hyz|]. simpl in *. lia.
    + unfold mbind, Re.parser_bind, Re.bind in Hl'. rewrite Hl'. by eexists.
Qed.

Lemma many_bind_first {B} (f : ascii -> bool) (k : str -> Re.parser B) (x r : str)
    (v : B * str) (l : list (B * str)) :
  forallb f x = true ->
  (forall y z, x ++ r = y ++ z -> length x < length y -> k y z = []) ->
  k x r = v :: l ->
  exists l', (Re.many f ≫= k) (x ++ r) = v :: l'.
Proof.
  intros Hf Hlong Hk.
  assert ((Re.many f ≫= k) (x ++ r) = (Re.many1 f ≫= k) (x ++ r) ++ k [] (x ++ r)) as ->.
  { unfold mbind, Re.parser_bind, Re.bind, Re.many. rewrite flat_map_app. simpl.
    by rewrite app_nil_r. }
  destruct x as [|c x].
  - assert ((Re.many1 f ≫= k) ([] ++ r) = []) as ->.
    { apply flat_map_nil. intros [y z] Hyz. apply many1_parts in Hyz as [Hr Hy].
      apply Hlong; [done|]. destruct y; [done|]. simpl. lia. }
    simpl. simpl in Hk. rewrite Hk. by eexists.
  - destruct (many1_bind_first f k (c :: x) r v l) as (l' & ->); try done. by eexists.
Qed.

Lemma lit_notin (c : ascii) (z : str) : c ∉ z -> Re.lit [c] z = [].
Proof.
  destruct z as [|d z]; [done|]. intros H. simpl.
  destruct (eqc c d) eqn:E; [|done]. apply eqc_true in E as ->. exfalso. apply H. left.
Qed.

Lemma longer_prefix (x y z t : str) (c : ascii) :
  x ++ c :: t = y ++ z -> length x < length y -> exists l, t = l ++ z.
Proof.
  intros H Hlen. apply app_eq_app in H as (l & [[-> _]|[-> H]]).
  - rewrite length_app in Hlen. lia.
  - destruct l as [|d l]; [rewrite length_app in Hlen; simpl in Hlen; lia|].
    injection H as _ ->. by exists l.
Qed.

Lemma forallb_not_nl (x : str) : NL ∉ x -> forallb (fun c => negb (eqc c NL)) x = true.
Proof.
  induction x as [|c x IH]; [done|]. intros H. apply not_elem_of_cons in H as [Hc Hx].
  simpl. rewrite IH by done.
  assert (eqc c NL = false) as -> by (apply eqc_false; congruence). done.
Qed.

(** The group of the two patterns with [.*] before a closing character [c]:
    the text up to the last [c]. *)
Lemma greedy_until (c : ascii) (x t : str) {B} (g : str -> str -> B) :
  NL ∉ x -> c ∉ t ->
  exists l, (Re.many (fun c => negb (eqc c NL)) ≫= fun b => Re.lit [c] ≫= fun d => mret (g b d))
              (x ++ c :: t) = (g x [c], t) :: l.
Proof.
  intros Hx Ht.
  apply (many_bind_first _ (fun b => Re.lit [c] ≫= fun d => mret (g b d)) x (c :: t) _ []).
  - by apply forallb_not_nl.
  - intros y z Hyz Hlen. apply longer_prefix in Hyz as (l & ->); [|done].
    apply bind_nil, lit_notin. intros Hin. apply Ht. apply elem_of_app. by right.
  - unfold mbind, Re.parser_bind, Re.bind. change (c :: t) with ([c] ++ t).
    by rewrite lit_app.
Qed.

(** X17. The marker pattern on a declaration [marker-<kind>:url(#<x>)<t>],
    [kind] one of [start], [end] and [mid]: the group [marker_id] is greedy,
    so when [t] holds no closing parenthesis (and [x] no newline) the id is
    [x], the text up to the last closing parenthesis; what follows it is not
    looked at. *)
Theorem marker_id_up_to_last_paren (kind x t : str) :
  kind ∈ ["start"; "end"; "mid"] -> NL ∉ x -> ")"%char ∉ t ->
  Re.rmatch marker_pattern ("marker-" ++ kind ++ ":url(#" ++ x ++ ")" ++ t) = Some (x, t).
Proof.
  intros Hk Hx Ht. unfold marker_pattern.
  eapply rmatch_bind_first; [apply lit_app|].
  assert (exists l, Re.alt (Re.lit "start") (Re.alt (Re.lit "end") (Re.lit "mid"))
                      (kind ++ ":url(#" ++ x ++ ")" ++ t)
                    = (kind, ":url(#" ++ x ++ ")" ++ t) :: l) as (l & Hl).
  { unfold Re.alt. apply list_elem_of_In in Hk. simpl in Hk.
    destruct Hk as [<-|[<-|[<-|[]]]].
    - rewrite lit_app. by eexists.
    - rewrite (lit_app "end"). by eexists.
    - rewrite (lit_app "mid"). by eexists. }
  eapply rmatch_bind_first; [exact Hl|].
  eapply rmatch_bind_first; [apply lit_app|].
  destruct (greedy_until ")" x t (fun b _ => b) Hx Ht) as (l' & Hg).
  unfold Re.rmatch. change (")" ++ t) with (")"%char :: t). by rewrite Hg.
Qed.

Lemma marker_id_up_to_last_paren_witness :
  Re.rmatch marker_pattern ("marker-" ++ "end" ++ ":url(#" ++ "a) url(#b" ++ ")" ++ " !important")
  = Some ("a) url(#b", " !important").
Proof.
  apply (marker_id_up_to_last_paren "end" "a) url(#b" " !important").
  - apply list_elem_of_In. simpl. tauto.
  - solve_notin.
  - solve_notin.
Defined.

(** X18. The tag of the style element that [get_style_element] looks for and
    creates. For a root with the tag [{u}l], where the local name [l] holds
    no closing brace, it is [{u}style]: the namespace of the root. For a root
    whose tag does not start with a brace it is [style]. *)
Theorem style_tag_namespace (u l : str) (a : gmap str str) (x : option str)
    (c : list element) :
  NL ∉ u -> "}"%char ∉ l -> startswith l "{" = false ->
  style_tag (Element ("{" ++ u ++ "}" ++ l) a x c) = "{" ++ u ++ "}style" /\
  style_tag (Element l a x c) = "style".
Proof.
  intros Hu Hl Hs. split.
  - assert (namespace_uri (Element ("{" ++ u ++ "}" ++ l) a x c) = "{" ++ u ++ "}") as Hn.
    { unfold namespace_uri. cbn [tag].
      destruct (greedy_until "}" u l (fun b d => "{" ++ b ++ d) Hu Hl) as (l' & Hg).
      rewrite (rmatch_bind_first _ _ _ "{" (u ++ "}" ++ l) [] ("{" ++ u ++ "}", l));
        [done|apply lit_app|].
      unfold Re.rmatch. change ("}" ++ l) with ("}"%char :: l). by rewrite Hg. }
    unfold style_tag. rewrite Hn. rewrite bool_decide_eq_true_2 by done.
    by rewrite <- !app_assoc.
  - assert (namespace_uri (Element l a x c) = "") as Hn.
    { unfold namespace_uri. cbn [tag]. rewrite rmatch_bind_nil; [done|].
      destruct l as [|d l]; [done|]. simpl in *.
      destruct (eqc "{" d); [by destruct l|done]. }
    unfold style_tag. rewrite Hn. by rewrite bool_decide_eq_false_2 by (by intros ?).
Qed.

Lemma style_tag_namespace_witness :
  style_tag (Element ("{" ++ "http://www.w3.org/2000/svg" ++ "}" ++ "svg") ∅ None [])
  = "{" ++ "http://www.w3.org/2000/svg" ++ "}style" /\
  style_tag (Element "svg" ∅ None []) = "style".
Proof.
  apply (style_tag_namespace "http://www.w3.org/2000/svg" "svg" ∅ None []).
  - solve_notin.
  - solve_notin.
  - reflexivity.
Defined.

(** * Further properties of the marker propagator *)

Lemma propagate_all_length (si : list str -> list str) (fp : finder)
    (doc doc' : list (gmap str str)) (ff : bool) (i : nat) (styles : list str) :
  propagate_all si fp ff i styles doc = Ok doc' -> length doc' = length doc.
Proof.
  revert doc. induction styles as [|seg styles IH]; intros doc H.
  - by injection H as <-.
  - cbn [propagate_all] in H. destruct (propagate si fp ff i seg doc) as [d1|] eqn:H1; [|done].
    cbn [mbind result_bind rbind] in H. apply propagate_length in H1.
    apply IH in H. congruence.
Qed.

Lemma markers_from_shape (si : list str -> list str) (fp : finder)
    (doc doc' : list (gmap str str)) (ff : bool) (n i : nat) :
  markers_from si fp ff n i doc = Ok doc' -> length doc' = length doc /\ frame doc doc'.
Proof.
  revert i doc. induction n as [|n IH]; intros i doc H.
  - injection H as <-. split; [done|]. apply frame_refl.
  - cbn [markers_from] in H.
    destruct (markers_of_element si fp ff i doc) as [d1|] eqn:H1; [|done].
    cbn [mbind result_bind rbind] in H.
    pose proof (markers_of_element_frame si fp doc d1 ff i H1) as Hfr.
    assert (length d1 = length doc) as Hl.
    { unfold markers_of_element in H1. destruct (element_get doc i "style") as [s|].
      - by apply propagate_all_length in H1.
      - by injection H1 as <-. }
    apply IH in H as [Hl' Hfr']. split; [congruence|].
    by apply (frame_trans doc d1 doc').
Qed.

(** X19. What a run of [deal_with_markers] leaves alone. The document keeps
    its elements; on every element each attribute other than [class] is as
    before, and an element that had a [class] attribute still has one. *)
Theorem deal_with_markers_frame (si : list str -> list str) (fp : finder) (ff : bool)
    (doc doc' : list (gmap str str)) :
  deal_with_markers si fp ff doc = Ok doc' ->
  length doc' = length doc /\
  (forall k key, key <> "class" -> element_get doc' k key = element_get doc k key) /\
  (forall k, is_Some (element_get doc k "class") -> is_Some (element_get doc' k "class")).
Proof.
  intros H. unfold deal_with_markers in H.
  apply markers_from_shape in H as (Hl & Hfr1 & Hfr2). done.
Qed.

Lemma deal_with_markers_frame_witness :
  length (<[2 := <["class" := "fill-red"]> (<["id" := "m1"]> ∅)]> (marker_doc "fill-red" ∅))
  = length (marker_doc "fill-red" ∅) /\
  (forall k key, key <> "class" ->
     element_get (<[2 := <["class" := "fill-red"]> (<["id" := "m1"]> ∅)]> (marker_doc "fill-red" ∅))
       k key
     = element_get (marker_doc "fill-red" ∅) k key) /\
  (forall k, is_Some (element_get (marker_doc "fill-red" ∅) k "class") ->
     is_Some (element_get
       (<[2 := <["class" := "fill-red"]> (<["id" := "m1"]> ∅)]> (marker_doc "fill-red" ∅))
       k "class")).
Proof.
  apply (deal_with_markers_frame insertion_order no_path false (marker_doc "fill-red" ∅)
           (<[2 := <["class" := "fill-red"]> (<["id" := "m1"]> ∅)]> (marker_doc "fill-red" ∅))).
  vm_compute. reflexivity.
Defined.

(** X20. Under [force_fill], when the first class handed on holds no hyphen,
    as [fill] or [stroke] alone, the step for a marker that is found raises
    [IndexError]: the colour is read after the first hyphen, and there is
    none. *)
Theorem force_fill_without_hyphen (si : list str -> list str) (fp : finder)
    (doc : list (gmap str str)) (m : gmap str str) (i j : nat)
    (seg c id rest t0 : str) (more : list str) :
  element_get doc i "class" = Some c -> color_classes c = t0 :: more ->
  "-"%char ∉ t0 ->
  Re.rmatch marker_pattern (strip seg) = Some (id, rest) ->
  find_element_with_id fp doc id = Ok (Some j) -> doc !! j = Some m ->
  propagate si fp true i seg doc = Raise IndexError.
Proof.
  intros Hc Hcc Ht Hm Hfind Hj. unfold propagate. rewrite Hm, Hc, Hfind.
  cbn [mbind result_bind rbind option_bind]. rewrite Hj. cbn [fmap option_fmap option_map].
  unfold forced_fill. rewrite Hcc. cbn [andb length Nat.ltb Nat.leb hd].
  by rewrite split_notin.
Qed.

Lemma force_fill_without_hyphen_witness :
  propagate insertion_order no_path true 1 "marker-end:url(#m1)"
    (marker_doc "big stroke fill-red" ∅)
  = Raise IndexError.
Proof.
  apply (force_fill_without_hyphen insertion_order no_path (marker_doc "big stroke fill-red" ∅)
           (<["id" := "m1"]> ∅) 1 2 "marker-end:url(#m1)" "big stroke fill-red" "m1" ""
           "stroke" ["fill-red"]).
  - by vm_compute.
  - by vm_compute.
  - solve_notin.
  - by vm_compute.
  - by vm_compute.
  - by vm_compute.
Defined.

(** * The stages together *)

Lemma strip_head (c : ascii) (s : str) : isspace c = false -> exists r, strip (c :: s) = c :: r.
Proof.
  intros Hc. pose proof (strip_nonempty c s Hc) as Hne.
  unfold strip in *. rewrite lstrip_id in * by done.
  destruct (rstrip_decomp (c :: s)) as (w & Hw & _).
  destruct (rstrip (c :: s)) as [|d r]; [done|]. injection Hw as <- _. by exists r.
Qed.

Lemma strip_app_space_l (w x : str) : forallb isspace w = true -> strip (w ++ x) = strip x.
Proof. intros H. unfold strip. by rewrite lstrip_app_space. Qed.

(** A declaration that the marker pattern matches is no [fill] and no
    [stroke]: the rewriter leaves it in the style. *)
Lemma marker_not_taken (cm : gmap str str) (seg : str) :
  is_Some (Re.rmatch marker_pattern (strip seg)) -> taken cm seg = false.
Proof.
  intros [[id rest] H]. unfold Re.rmatch in H.
  assert ((id, rest) ∈ marker_pattern (strip seg)) as Hin.
  { destruct (marker_pattern (strip seg)) as [|y l]; [done|]. injection H as ->. left. }
  unfold marker_pattern in Hin. apply elem_of_bind in Hin as (x & r & Hlit & _).
  apply lit_inv in Hlit as [_ Hs].
  destruct (strip_decomp seg) as (w1 & w2 & Hseg & Hw1 & _).
  rewrite Hs in Hseg. unfold taken.
  assert (exists h t, split ":" seg = (w1 ++ "m"%char :: h) :: t) as (h & t & ->).
  { rewrite Hseg. rewrite split_app_l by (by apply spaces_notin).
    simpl. destruct (split ":" _) as [|h t]; by eexists _, _. }
  destruct t as [|val [|? ?]]; try done.
  rewrite strip_app_space_l by done.
  destruct (strip_head "m" h) as (r' & ->); [done|].
  rewrite (bool_decide_eq_false_2 (_ = "fill")) by done.
  rewrite (bool_decide_eq_false_2 (_ = "stroke")) by done. done.
Qed.

(** X21. The rewriter and the propagator, one after the other. A declaration
    of the stripped style that the marker pattern matches is still a
    declaration of the style that the rewriter writes back, so the
    propagator, which runs on the rewritten document, finds it there. *)
Theorem marker_declaration_survives (si : list str -> list str) (cm a a' : gmap str str)
    (s seg : str) :
  a !! "style" = Some s -> seg ∈ split ";" (strip s) ->
  is_Some (Re.rmatch marker_pattern (strip seg)) ->
  replace_color_element si cm a = Ok a' ->
  exists s', a' !! "style" = Some s' /\ seg ∈ split ";" s'.
Proof.
  intros Hs Hseg Hm Ha.
  destruct (resolve_ok si cm a a' Ha) as (a1 & fa & sa & Hr).
  destruct (resolve_inv cm a a1 fa sa Hr) as (_ & _ & _ & [[Hn _]|(s0 & new & f & k & Hs0 & Hmsa & _)]);
    [congruence|].
  rewrite Hs in Hs0. injection Hs0 as <-.
  destruct (style_kept si cm a s new f k Hs Hmsa) as (a'' & Ha'' & Hst).
  rewrite Ha in Ha''. injection Ha'' as <-.
  exists new. split; [done|].
  rewrite (modify_style_attribute_kept cm s new _ _ _ _ Hmsa).
  assert (seg ∈ kept_styles cm (split ";" (strip s))) as Hk.
  { apply list_elem_of_filter. split; [by apply marker_not_taken|done]. }
  rewrite split_join_sep; [done| |].
  - intros E. rewrite E in Hk. by apply elem_of_nil in Hk.
  - apply Forall_forall. intros x [_ Hx]%list_elem_of_filter.
    by apply (split_no_sep ";" (strip s) x).
Qed.

Lemma marker_declaration_survives_witness :
  exists s', (<["class" := "fill-red"]> (delete "fill"
                (<["style" := " marker-end:url(#m1)"]> (styled "fill:#ff0000; marker-end:url(#m1) "))))
             !! "style" = Some s' /\
             " marker-end:url(#m1)" ∈ split ";" s'.
Proof.
  apply (marker_declaration_survives insertion_order colors_example
           (styled "fill:#ff0000; marker-end:url(#m1) ") _
           "fill:#ff0000; marker-end:url(#m1) " " marker-end:url(#m1)").
  - by vm_compute.
  - apply list_elem_of_In. vm_compute. right. by left.
  - exists ("m1", ""). by vm_compute.
  - vm_compute. reflexivity.
Defined.

Lemma prefixed_theme_ok (items : list (str * str)) :
  Forall (fun kv => color_name_ok kv.1 /\ hex_ok kv.2) items -> theme_ok (prefixed items).
Proof.
  intros H. unfold theme_ok, prefixed. induction H as [|[n v] items [Hn Hv] H IH]; [done|].
  simpl. apply Forall_cons. split; [|done]. split; [done|]. by exists v.
Qed.

(** X22. The theme table and the style-block manager, one after the other. A
    theme of the themes file whose names are letters and digits and whose
    values are three or six hex digits (written without the number sign)
    loads into a table that the manager recognises: on a style text without
    U+0001 the manager appends the rules that are missing, and a second run
    on the result changes nothing. *)
Theorem loaded_theme_is_recognised (themes : config) (theme : str)
    (items : list (str * str)) (S : str) :
  section themes theme = Some items ->
  Forall (fun kv => color_name_ok kv.1 /\ hex_ok kv.2) items -> SOH ∉ S ->
  exists T, load_theme_colors themes theme = Ok T /\ theme_ok T /\
    update_style_content S T = Some (S ++ missing_rules S T) /\
    update_style_content (S ++ missing_rules S T) T = Some (S ++ missing_rules S T).
Proof.
  intros Hsec Hit HS. exists (prefixed items).
  pose proof (prefixed_theme_ok items Hit) as HT.
  split; [unfold load_theme_colors; by rewrite Hsec|]. split; [done|].
  pose proof (update_style_content_missing S _ HT HS) as H1. split; [done|].
  destruct (update_style_content_twice S _ HT HS) as (S1 & H1' & _ & H2).
  rewrite H1 in H1'. injection H1' as <-. done.
Qed.

Lemma loaded_theme_is_recognised_witness :
  exists T, load_theme_colors themes_example "dark" = Ok T /\ theme_ok T /\
    update_style_content "" T = Some ("" ++ missing_rules "" T) /\
    update_style_content ("" ++ missing_rules "" T) T = Some ("" ++ missing_rules "" T).
Proof.
  apply (loaded_theme_is_recognised themes_example "dark" [("red", "ff0000")] "").
  - reflexivity.
  - apply Forall_cons. split; [|by apply Forall_nil].
    split; [split; [discriminate|reflexivity]|]. split; [reflexivity|]. right. reflexivity.
  - apply not_elem_of_nil.
Defined.
